(** * Fan-in cones over a netlist: a shallow embedding of [kernel/algo.h]

    The development follows the header top to bottom: the [Netlist] index and
    its construction ([setup_netlist]), the bit iterator
    ([NetlistConeWireIter], with [next_sig_in_dag] and [operator++]), the cell
    iterator built on top of it ([NetlistConeCellIter]) and the two entry
    points [cone] and [cell_cone].

    What the header takes from [kernel/rtlil.h], [kernel/sigtools.h] and
    [kernel/celltypes.h] is a parameter of the development: the type of
    signal bits with its [operator<], the addresses of cells, identifiers,
    the [SigMap] and the [CellTypes] queries. *)

From stdpp Require Import base gmap sets list strings relations.
From stdpp Require Import sorting.
From Stdlib Require Ascii.
Import Ascii.AsciiSyntax.
Delimit Scope char_scope with char.

(** ** Outcomes of the partial operations

    [dict::at] throws [std::out_of_range] on a missing key; dereferencing or
    incrementing the past-the-end iterator of a [std::set] is undefined
    behaviour.  Both are made explicit.  [OutOfFuel] is the only artefact of
    the embedding: the [while] loops of the header are run with a step
    budget, and the theorems below show that the budget computed from the
    index is never exhausted. *)
Inductive error : Type :=
  | OutOfRange
  | UndefinedBehaviour
  | OutOfFuel.

Inductive res (A : Type) : Type :=
  | Ok (a : A)
  | Err (e : error).
Arguments Ok {A} a.
Arguments Err {A} e.

#[global] Instance error_eq_dec : EqDecision error.
Proof. solve_decision. Defined.

Section Algo.
(** [RTLIL::SigBit], [RTLIL::Cell *] and [RTLIL::IdString]. *)
Context {SigBit CellPtr IdString : Type}.
Context `{Countable SigBit, Countable CellPtr, Inhabited SigBit}.

(** [SigBit::operator<], the order of every [std::set<RTLIL::SigBit>]. *)
Variable SigBit_lt : SigBit → SigBit → bool.

(** [RTLIL::SigSpec], as the vector [to_sigbit_vector()] unpacks it to. *)
Definition SigSpec : Type := list SigBit.

(** A cell as [setup_netlist] reads it: its address, [cell->type] and
    [cell->connections()] in the dict's enumeration order. *)
Record Cell : Type := mkCell {
  self : CellPtr;
  type : IdString;
  connections : list (IdString * SigSpec)
}.

(** [RTLIL::Module], reduced to [module->cells()] in enumeration order. *)
Record Module : Type := mkModule {
  cells : list Cell
}.

(** The two queries of [CellTypes] that the header calls. *)
Record CellTypes : Type := mkCellTypes {
  cell_known : IdString → bool;
  cell_output : IdString → IdString → bool
}.

(** ** [std::set<RTLIL::SigBit>]

    A set is the list of its elements in iteration order, that is
    increasing for [operator<]; [insert] keeps the first of two
    equivalent elements. *)
Fixpoint set_insert (x : SigBit) (s : list SigBit) : list SigBit :=
  match s with
  | [] => [x]
  | y :: s' =>
      if SigBit_lt x y then x :: s
      else if SigBit_lt y x then y :: set_insert x s'
      else s
  end.

(** [s.insert(bits.begin(), bits.end())] *)
Definition set_insert_range (bits : list SigBit) (s : list SigBit) : list SigBit :=
  fold_left (λ acc b, set_insert b acc) bits s.

(** ** [struct Netlist] *)
Record Netlist : Type := mkNetlist {
  module : Module;
  sigmap : SigBit → SigBit;
  sigbit_driver_map : gmap SigBit CellPtr;
  cell_inputs_map : gmap CellPtr (list SigBit)
}.

Definition set_cell_inputs (net : Netlist) (c : CellPtr) (inputs : list SigBit) : Netlist :=
  mkNetlist (module net) (sigmap net) (sigbit_driver_map net)
            (<[c := inputs]> (cell_inputs_map net)).

Definition set_sigbit_driver (net : Netlist) (bit : SigBit) (c : CellPtr) : Netlist :=
  mkNetlist (module net) (sigmap net) (<[bit := c]> (sigbit_driver_map net))
            (cell_inputs_map net).

(** The loop over [cell->connections()]: the pair [(inputs, outputs)]
    after all ports have been sorted into one of the two sets. *)
Definition sort_port (ct : CellTypes) (sm : SigBit → SigBit) (ty : IdString)
    (acc : list SigBit * list SigBit) (port : IdString * SigSpec) : list SigBit * list SigBit :=
  let bits := sm <$> port.2 in
  if cell_output ct ty port.1
  then (acc.1, set_insert_range bits acc.2)
  else (set_insert_range bits acc.1, acc.2).

Definition cell_ports (ct : CellTypes) (sm : SigBit → SigBit) (cell : Cell)
    : list SigBit * list SigBit :=
  fold_left (sort_port ct sm (type cell)) (connections cell) ([], []).

(** The body of the loop over [module->cells()]. *)
Definition setup_cell (ct : CellTypes) (net : Netlist) (cell : Cell) : Netlist :=
  if cell_known ct (type cell) then
    let io := cell_ports ct (sigmap net) cell in
    fold_left (λ n bit, set_sigbit_driver n bit (self cell)) io.2
              (set_cell_inputs net (self cell) io.1)
  else net.

Definition setup_netlist (net : Netlist) (m : Module) (ct : CellTypes) : Netlist :=
  fold_left (setup_cell ct) (cells m) net.

(** [Netlist(RTLIL::Module *module, const CellTypes &ct)]: both maps start
    empty, [sigmap] is the module's. *)
Definition Netlist_new (m : Module) (sm : SigBit → SigBit) (ct : CellTypes) : Netlist :=
  setup_netlist (mkNetlist m sm ∅ ∅) m ct.

(** ** [struct NetlistConeWireIter]

    [net] is a [const Netlist &]: it is an argument of every operation and
    never part of what an operation returns.  A stack entry is a pair
    [(first, second)] of iterators into one cell's input set with [second]
    its [end()]; it is the list of the elements from [first] on, so that
    [*first] is the head, [first++] drops it and [first == second] is the
    empty list. *)
Record NetlistConeWireIter : Type := mkWireIter {
  sig : SigBit;
  sentinel : bool;
  dfs_path_stack : list (list SigBit);
  cells_visited : gset CellPtr
}.

(** [NetlistConeWireIter(net)]: [sig] is default-constructed. *)
Definition WireIter_end : NetlistConeWireIter :=
  mkWireIter inhabitant true [] ∅.

(** [NetlistConeWireIter(net, sig)] *)
Definition WireIter_begin (s : SigBit) : NetlistConeWireIter :=
  mkWireIter s false [] ∅.

(** [operator!=] *)
Definition WireIter_neq (a b : NetlistConeWireIter) : bool :=
  if sentinel a || sentinel b
  then negb (eqb (sentinel a) (sentinel b))
  else negb (bool_decide (sig a = sig b)).

(** [next_sig_in_dag], by recursion on the stack it pops. *)
Fixpoint next_sig_in_dag_from (s : SigBit) (snt : bool) (visited : gset CellPtr)
    (stack : list (list SigBit)) : res NetlistConeWireIter :=
  match stack with
  | [] => Ok (mkWireIter s true [] visited)
  | frame :: below =>
      match frame with
      | [] => Err UndefinedBehaviour
      | _ :: frame' =>
          match frame' with
          | [] => next_sig_in_dag_from s snt visited below
          | s' :: _ => Ok (mkWireIter s' snt (frame' :: below) visited)
          end
      end
  end.

Definition next_sig_in_dag (it : NetlistConeWireIter) : res NetlistConeWireIter :=
  next_sig_in_dag_from (sig it) (sentinel it) (cells_visited it) (dfs_path_stack it).

(** [operator++] *)
Definition WireIter_incr (net : Netlist) (it : NetlistConeWireIter)
    : res NetlistConeWireIter :=
  match sigbit_driver_map net !! sig it with
  | Some drv =>
      if decide (drv ∈ cells_visited it) then next_sig_in_dag it
      else
        match cell_inputs_map net !! drv with
        | None => Err OutOfRange
        | Some inputs =>
            match inputs with
            | [] => Err UndefinedBehaviour
            | s' :: _ =>
                Ok (mkWireIter s' (sentinel it) (inputs :: dfs_path_stack it)
                               ({[drv]} ∪ cells_visited it))
            end
        end
  | None => next_sig_in_dag it
  end.

(** [for (auto bit : cone(...))]: what the loop body sees, and how the
    loop ended ([None]: the iterator compared equal to [end()]). *)
Fixpoint wire_range_for (fuel : nat) (net : Netlist) (it : NetlistConeWireIter)
    : list SigBit * option error :=
  if WireIter_neq it WireIter_end then
    match fuel with
    | 0 => ([], Some OutOfFuel)
    | S fuel' =>
        match WireIter_incr net it with
        | Ok it' =>
            let r := wire_range_for fuel' net it' in (sig it :: r.1, r.2)
        | Err e => ([sig it], Some e)
        end
    end
  else ([], None).

(** ** [struct NetlistConeCellIter] *)
Record NetlistConeCellIter : Type := mkCellIter {
  sig_iter : NetlistConeWireIter
}.

Definition has_driver_cell (net : Netlist) (s : SigBit) : bool :=
  bool_decide (is_Some (sigbit_driver_map net !! s)).

(** [operator*] *)
Definition CellIter_deref (net : Netlist) (it : NetlistConeCellIter) : res CellPtr :=
  match sigbit_driver_map net !! sig (sig_iter it) with
  | Some c => Ok c
  | None => Err OutOfRange
  end.

(** [operator++] *)
Fixpoint CellIter_incr (fuel : nat) (net : Netlist) (it : NetlistConeCellIter)
    : res NetlistConeCellIter :=
  match fuel with
  | 0 => Err OutOfFuel
  | S fuel' =>
      match WireIter_incr net (sig_iter it) with
      | Err e => Err e
      | Ok w =>
          if sentinel w then Ok (mkCellIter w)
          else if has_driver_cell net (sig w) then
            match sigbit_driver_map net !! sig w with
            | None => Err OutOfRange
            | Some cell =>
                if decide (cell ∈ cells_visited w)
                then CellIter_incr fuel' net (mkCellIter w)
                else Ok (mkCellIter w)
            end
          else CellIter_incr fuel' net (mkCellIter w)
      end
  end.

(** [NetlistConeCellIter(net)] and [NetlistConeCellIter(net, sig)] *)
Definition CellIter_end : NetlistConeCellIter := mkCellIter WireIter_end.

Definition CellIter_begin (fuel : nat) (net : Netlist) (s : SigBit)
    : res NetlistConeCellIter :=
  let it := mkCellIter (WireIter_begin s) in
  if negb (sentinel (sig_iter it)) && negb (has_driver_cell net (sig (sig_iter it)))
  then CellIter_incr fuel net it
  else Ok it.

Definition CellIter_neq (a b : NetlistConeCellIter) : bool :=
  WireIter_neq (sig_iter a) (sig_iter b).

(** [for (auto cell : cell_cone(...))] *)
Fixpoint cell_range_for (fuel : nat) (net : Netlist) (it : NetlistConeCellIter)
    : list CellPtr * option error :=
  if CellIter_neq it CellIter_end then
    match fuel with
    | 0 => ([], Some OutOfFuel)
    | S fuel' =>
        match CellIter_deref net it with
        | Err e => ([], Some e)
        | Ok c =>
            match CellIter_incr fuel net it with
            | Ok it' =>
                let r := cell_range_for fuel' net it' in (c :: r.1, r.2)
            | Err e => ([c], Some e)
            end
        end
    end
  else ([], None).

(** ** The step budget

    Every cell of [cell_inputs_map] is pushed at most once and every
    element of a pushed set is stepped over at most once. *)
Definition unvisited_weight (net : Netlist) (visited : gset CellPtr) : nat :=
  map_fold (λ c inputs acc, if decide (c ∈ visited) then acc else S (length inputs) + acc)
           0 (cell_inputs_map net).

Definition stack_weight (stack : list (list SigBit)) : nat :=
  sum_list (length <$> stack).

Definition iter_weight (net : Netlist) (it : NetlistConeWireIter) : nat :=
  unvisited_weight net (cells_visited it) + stack_weight (dfs_path_stack it)
  + (if sentinel it then 0 else 1).

Definition cone_fuel (net : Netlist) : nat := S (unvisited_weight net ∅).

(** ** The entry points *)

(** [cone(net, sig)], consumed by a range-based [for]. *)
Definition cone (net : Netlist) (s : SigBit) : list SigBit * option error :=
  wire_range_for (cone_fuel net) net (WireIter_begin (sigmap net s)).

(** [cell_cone(net, sig)], consumed by a range-based [for]. *)
Definition cell_cone (net : Netlist) (s : SigBit) : list CellPtr * option error :=
  match CellIter_begin (cone_fuel net) net (sigmap net s) with
  | Ok it => cell_range_for (cone_fuel net) net it
  | Err e => ([], Some e)
  end.

(** ** Vocabulary of the statements *)

(** The cell whose input set [operator++] pushes when applied to [it]:
    the driver of the current bit when it is not in [cells_visited]. *)
Definition pushes (net : Netlist) (it : NetlistConeWireIter) : option CellPtr :=
  match sigbit_driver_map net !! sig it with
  | Some drv => if decide (drv ∈ cells_visited it) then None else Some drv
  | None => None
  end.

(** The iterator at each run of the body of [for (auto bit : cone(...))]:
    [wire_range_for] with the whole iterator recorded instead of [*it]. *)
Fixpoint wire_states (fuel : nat) (net : Netlist) (it : NetlistConeWireIter)
    : list NetlistConeWireIter * option error :=
  if WireIter_neq it WireIter_end then
    match fuel with
    | 0 => ([], Some OutOfFuel)
    | S fuel' =>
        match WireIter_incr net it with
        | Ok it' =>
            let r := wire_states fuel' net it' in (it :: r.1, r.2)
        | Err e => ([it], Some e)
        end
    end
  else ([], None).

Definition cone_states (net : Netlist) (s : SigBit)
    : list NetlistConeWireIter * option error :=
  wire_states (cone_fuel net) net (WireIter_begin (sigmap net s)).

(** The cells whose input sets the traversal of [cone(net, s)] pushes, in
    the order of the pushes. *)
Definition cone_pushes (net : Netlist) (s : SigBit) : list CellPtr :=
  omap (pushes net) (cone_states net s).1.

(** The same run as a relation, free of the step budget. *)
Inductive trace (net : Netlist)
    : NetlistConeWireIter → list NetlistConeWireIter → option error → Prop :=
  | trace_end it :
      sentinel it = true → trace net it [] None
  | trace_step it it' l e :
      sentinel it = false → WireIter_incr net it = Ok it' →
      trace net it' l e → trace net it (it :: l) e
  | trace_fault it e :
      sentinel it = false → WireIter_incr net it = Err e →
      trace net it [it] (Some e).

(** One backward step along a driver: [s'] is an input of the cell that
    drives [s]. *)
Definition feeds (net : Netlist) (s s' : SigBit) : Prop :=
  ∃ c inputs, sigbit_driver_map net !! s = Some c
              ∧ cell_inputs_map net !! c = Some inputs ∧ s' ∈ inputs.

(** The bits and the cells of the transitive fan-in of [s], [s] and its
    driver included. *)
Definition fanin_bit (net : Netlist) (s s' : SigBit) : Prop :=
  rtc (feeds net) s s'.

Definition fanin_cell (net : Netlist) (s : SigBit) (c : CellPtr) : Prop :=
  ∃ s', rtc (feeds net) s s' ∧ sigbit_driver_map net !! s' = Some c.

(** Every cell that drives a bit has a recorded input set, and the set is
    not empty. *)
Definition index_ok (net : Netlist) : Prop :=
  ∀ s c, sigbit_driver_map net !! s = Some c →
         ∃ x inputs, cell_inputs_map net !! c = Some (x :: inputs).

(** [index_ok], as a test that can be run on a given index. *)
Definition has_inputs (net : Netlist) (c : CellPtr) : bool :=
  match cell_inputs_map net !! c with
  | Some (_ :: _) => true
  | _ => false
  end.

Definition index_okb (net : Netlist) : bool :=
  bool_decide (map_Forall (λ _ c, has_inputs net c = true) (sigbit_driver_map net)).

(** The drivers of a sequence of bits, bits without a driver left out. *)
Definition drivers_of (net : Netlist) (bits : list SigBit) : list CellPtr :=
  omap (λ s, sigbit_driver_map net !! s) bits.

(** A sequence with every element kept at its first occurrence only;
    [seen] are the elements met so far. *)
Fixpoint first_occurrences (seen : gset CellPtr) (l : list CellPtr) : list CellPtr :=
  match l with
  | [] => []
  | c :: l' =>
      if decide (c ∈ seen) then first_occurrences seen l'
      else c :: first_occurrences ({[c]} ∪ seen) l'
  end.

(** [cell] produces the canonical bit [b] on one of its output ports. *)
Definition drives (ct : CellTypes) (sm : SigBit → SigBit) (cell : Cell) (b : SigBit) : Prop :=
  ∃ port spec bit, (port, spec) ∈ connections cell
                   ∧ cell_output ct (type cell) port = true
                   ∧ bit ∈ spec ∧ b = sm bit.

(** What the traversal maintains, with [yielded] the bits the loop body has
    seen before the current one and [start] the bit the traversal began at. *)
Record cone_inv (net : Netlist) (start : SigBit) (yielded : list SigBit)
    (it : NetlistConeWireIter) : Prop := mkConeInv {
  inv_start : start ∈ sig it :: yielded;
  inv_reach_sig : rtc (feeds net) start (sig it);
  inv_reach_yielded : ∀ s, s ∈ yielded → rtc (feeds net) start s;
  inv_reach_stack :
    ∀ frame s, frame ∈ dfs_path_stack it → s ∈ frame → rtc (feeds net) start s;
  inv_driver_visited :
    ∀ s c, s ∈ yielded → sigbit_driver_map net !! s = Some c → c ∈ cells_visited it;
  inv_inputs_pending :
    ∀ c inputs s, c ∈ cells_visited it → cell_inputs_map net !! c = Some inputs →
                  s ∈ inputs →
                  s ∈ sig it :: yielded
                  ∨ ∃ frame, frame ∈ dfs_path_stack it ∧ s ∈ tail frame;
  inv_frames : ∀ frame, frame ∈ dfs_path_stack it → frame ≠ [];
  inv_sentinel :
    sentinel it = true → dfs_path_stack it = [] ∧ sig it ∈ yielded
}.

End Algo.

(** ** Concrete netlists

    Bits, cells and identifiers are named by strings, ordered as strings;
    a port is an output when it is called [Y]. *)
Definition ex_ct : @CellTypes string :=
  mkCellTypes (λ ty, bool_decide (ty ∈ ["$and"; "$not"; "$anyconst"]%string))
              (λ _ port, bool_decide (port = "Y"%string)).

Definition ex_cell (name ty : string) (ports : list (string * list string))
    : @Cell string string string :=
  mkCell name ty ports.

(** [c1 = AND(in0, in1) -> w1], [c2 = AND(w1, in2) -> out] *)
Definition ex_and_module : @Module string string string :=
  mkModule
    [ ex_cell "c1" "$and" [("A", ["in0"]); ("B", ["in1"]); ("Y", ["w1"])];
      ex_cell "c2" "$and" [("A", ["w1"]); ("B", ["in2"]); ("Y", ["out"])] ]%string.

Definition ex_and_net : @Netlist string string string _ _ _ _ :=
  Netlist_new String.ltb ex_and_module id ex_ct.

(** [A -> bitX -> B -> bitY -> A] *)
Definition ex_loop_module : @Module string string string :=
  mkModule
    [ ex_cell "A" "$not" [("A", ["bitY"]); ("Y", ["bitX"])];
      ex_cell "B" "$not" [("A", ["bitX"]); ("Y", ["bitY"])] ]%string.

Definition ex_loop_net : @Netlist string string string _ _ _ _ :=
  Netlist_new String.ltb ex_loop_module id ex_ct.

(** One cell with an output port and no input port. *)
Definition ex_const_module : @Module string string string :=
  mkModule [ ex_cell "K" "$anyconst" [("Y", ["k"])] ]%string.

Definition ex_const_net : @Netlist string string string _ _ _ _ :=
  Netlist_new String.ltb ex_const_module id ex_ct.

(** Two cells on one bit, and a cell of a type the oracle does not know. *)
Definition ex_multi_module : @Module string string string :=
  mkModule
    [ ex_cell "d1" "$not" [("A", ["a"]); ("Y", ["z"])];
      ex_cell "d2" "$not" [("A", ["b"]); ("Y", ["z"])];
      ex_cell "u" "$dff" [("D", ["z"]); ("Y", ["q"])] ]%string.

Definition ex_multi_net : @Netlist string string string _ _ _ _ :=
  Netlist_new String.ltb ex_multi_module id ex_ct.

(** A canonicalizer that merges [alias] into [out]. *)
Definition ex_sigmap (b : string) : string :=
  if bool_decide (b = "alias"%string) then "out"%string else b.

Definition ex_alias_net : @Netlist string string string _ _ _ _ :=
  Netlist_new String.ltb ex_and_module ex_sigmap ex_ct.

(** [g = AND(k, w) -> y], with [k] driven by a cell [K] without input port
    and [w] by [h = NOT(x)]. *)
Definition ex_gap_module : @Module string string string :=
  mkModule
    [ ex_cell "g" "$and" [("A", ["k"]); ("B", ["w"]); ("Y", ["y"])];
      ex_cell "K" "$anyconst" [("Y", ["k"])];
      ex_cell "h" "$not" [("A", ["x"]); ("Y", ["w"])] ]%string.

Definition ex_gap_net : @Netlist string string string _ _ _ _ :=
  Netlist_new String.ltb ex_gap_module id ex_ct.

(** ** The rest of the iterator interface *)

Section AlgoMore.
Context {SigBit CellPtr IdString : Type}.
Context `{Countable SigBit, Countable CellPtr}.

(** [NetlistConeWireIter::operator==] *)
Definition WireIter_eq (a b : @NetlistConeWireIter SigBit CellPtr _ _) : bool :=
  if sentinel a || sentinel b
  then eqb (sentinel a) (sentinel b)
  else bool_decide (sig a = sig b).

(** [NetlistConeCellIter::operator==] *)
Definition CellIter_eq (a b : @NetlistConeCellIter SigBit CellPtr _ _) : bool :=
  WireIter_eq (sig_iter a) (sig_iter b).

(** [cell] takes the canonical bit [b] on a port that is not an output. *)
Definition consumes (ct : @CellTypes IdString) (sm : SigBit → SigBit)
    (cell : @Cell SigBit CellPtr IdString) (b : SigBit) : Prop :=
  ∃ port spec bit, (port, spec) ∈ connections cell
                   ∧ cell_output ct (type cell) port = false
                   ∧ bit ∈ spec ∧ b = sm bit.

(** The recorded input sets of a sequence of cells, one after the other. *)
Definition inputs_of_cells (net : @Netlist SigBit CellPtr IdString _ _ _ _)
    (cs : list CellPtr) : list SigBit :=
  concat ((λ c, default [] (cell_inputs_map net !! c)) <$> cs).

(** The bits of the stack that the cursors have not reached yet. *)
Definition pending (stack : list (list SigBit)) : list SigBit :=
  concat (tail <$> stack).

(** The module with the cells the oracle knows only. *)
Definition known_cells (ct : @CellTypes IdString)
    (m : @Module SigBit CellPtr IdString) : @Module SigBit CellPtr IdString :=
  mkModule (filter (λ cell, cell_known ct (type cell) = true) (cells m)).

(** Along a run every stack entry is a non-empty suffix of the recorded
    input set of a visited cell, the visited cells have recorded input sets
    and the stack is no deeper than there are visited cells. *)
Record stack_inv (net : @Netlist SigBit CellPtr IdString _ _ _ _)
    (it : @NetlistConeWireIter SigBit CellPtr _ _) : Prop := mkStackInv {
  sinv_frames :
    ∀ frame, frame ∈ dfs_path_stack it →
      frame ≠ [] ∧ ∃ c inputs, c ∈ cells_visited it
                               ∧ cell_inputs_map net !! c = Some inputs
                               ∧ frame `suffix_of` inputs;
  sinv_visited : cells_visited it ⊆ dom (cell_inputs_map net);
  sinv_depth : length (dfs_path_stack it) ≤ size (cells_visited it)
}.

(** Every cell in [sigbit_driver_map] is a key of [cell_inputs_map]. *)
Definition drivers_recorded (net : @Netlist SigBit CellPtr IdString _ _ _ _) : Prop :=
  ∀ b c, sigbit_driver_map net !! b = Some c → is_Some (cell_inputs_map net !! c).

(** [x] is below [y] for [operator<]. *)
Definition below (SigBit_lt : SigBit → SigBit → bool) (x y : SigBit) : Prop :=
  SigBit_lt x y = true.

End AlgoMore.

(** * The [synth_intel] pass

    The pass of [techlibs/intel/synth_intel.cc]: its flags, the parsing of
    its arguments in [execute] and its [script].  What it inherits from
    [ScriptPass] ([kernel/register.h]) is a parameter: [extra_args], the
    selection of the design, [check_label] and [run], the last two acting on
    a state of the base class that [script] never looks into. *)

(** ** [std::string::find(char)] and [std::string::substr] *)

(** [s.find(c)], [None] for [npos]. *)
Fixpoint string_find (c : Ascii.ascii) (s : string) : option nat :=
  match s with
  | EmptyString => None
  | String a s' => if Ascii.eqb a c then Some 0 else S <$> string_find c s'
  end.

(** [s.substr(0, n)] *)
Fixpoint string_prefix (n : nat) (s : string) : string :=
  match n, s with
  | S n', String a s' => String a (string_prefix n' s')
  | _, _ => EmptyString
  end.

(** [s.substr(pos)], for [pos <= s.size()]. *)
Fixpoint string_suffix (pos : nat) (s : string) : string :=
  match pos, s with
  | S pos', String _ s' => string_suffix pos' s'
  | _, _ => s
  end.

(** ** Commands

    A command handed to [run] is a line for the command interpreter: the
    name of a pass, then its arguments, separated by blanks. *)

(** The first word of a command: the pass it runs. *)
Fixpoint command_word (c : string) : string :=
  match c with
  | EmptyString => EmptyString
  | String a c' => if Ascii.eqb a " "%char then EmptyString else String a (command_word c')
  end.

(** [opt] occurs somewhere in the command [c]. *)
Fixpoint carries (opt c : string) : bool :=
  String.prefix opt c
  || match c with
     | EmptyString => false
     | String _ c' => carries opt c'
     end.

(** ** The flags *)

Record SynthIntelPass : Type := mkSynthIntelPass {
  top_opt : string;
  family_opt : string;
  vout_file : string;
  retime : bool;
  flatten : bool;
  nobram : bool
}.

(** [clear_flags] *)
Definition clear_flags (_ : SynthIntelPass) : SynthIntelPass :=
  mkSynthIntelPass "-auto-top" "max10" "" false true false.

Definition set_family_opt (p : SynthIntelPass) (v : string) : SynthIntelPass :=
  mkSynthIntelPass (top_opt p) v (vout_file p) (retime p) (flatten p) (nobram p).

Definition set_top_opt (p : SynthIntelPass) (v : string) : SynthIntelPass :=
  mkSynthIntelPass v (family_opt p) (vout_file p) (retime p) (flatten p) (nobram p).

Definition set_vout_file (p : SynthIntelPass) (v : string) : SynthIntelPass :=
  mkSynthIntelPass (top_opt p) (family_opt p) v (retime p) (flatten p) (nobram p).

Definition set_retime (p : SynthIntelPass) (v : bool) : SynthIntelPass :=
  mkSynthIntelPass (top_opt p) (family_opt p) (vout_file p) v (flatten p) (nobram p).

Definition set_flatten (p : SynthIntelPass) (v : bool) : SynthIntelPass :=
  mkSynthIntelPass (top_opt p) (family_opt p) (vout_file p) (retime p) v (nobram p).

Definition set_nobram (p : SynthIntelPass) (v : bool) : SynthIntelPass :=
  mkSynthIntelPass (top_opt p) (family_opt p) (vout_file p) (retime p) (flatten p) v.

(** ** [execute]: the arguments *)

(** The locals of [execute] and the flags while the [for] loop runs. *)
Record parse_state : Type := mkParseState {
  pass : SynthIntelPass;
  run_from : string;
  run_to : string;
  argidx : nat
}.

Definition next_arg (st : parse_state) (p : SynthIntelPass) (skip : nat) : parse_state :=
  mkParseState p (run_from st) (run_to st) (argidx st + skip).

(** The [for] loop over [args], with [rest] the arguments from [argidx] on:
    [args[argidx]] is the head of [rest] and [argidx+1 < args.size()] says
    that its tail is not empty.  A [continue] after [++argidx] goes on two
    arguments further, a plain [continue] one, [break] returns. *)
Fixpoint parse_loop (rest : list string) (st : parse_state) : parse_state :=
  match rest with
  | [] => st
  | arg :: rest' =>
      let switches :=
        if String.eqb arg "-nobram" then
          parse_loop rest' (next_arg st (set_nobram (pass st) true) 1)
        else if String.eqb arg "-flatten" then
          parse_loop rest' (next_arg st (set_flatten (pass st) true) 1)
        else if String.eqb arg "-retime" then
          parse_loop rest' (next_arg st (set_retime (pass st) true) 1)
        else st
      in
      match rest' with
      | [] => switches
      | value :: rest'' =>
          if String.eqb arg "-family" then
            parse_loop rest'' (next_arg st (set_family_opt (pass st) value) 2)
          else if String.eqb arg "-top" then
            parse_loop rest'' (next_arg st (set_top_opt (pass st) ("-top " ++ value)) 2)
          else if String.eqb arg "-vqm" then
            parse_loop rest'' (next_arg st (set_vout_file (pass st) value) 2)
          else if String.eqb arg "-run" then
            match string_find ":"%char value with
            | None => st
            | Some pos =>
                parse_loop rest''
                  (mkParseState (pass st) (string_prefix pos value)
                                (string_suffix (pos + 1) value) (argidx st + 2))
            end
          else switches
      end
  end.

(** [execute] up to the call of [extra_args]: [clear_flags()], then the
    loop from [argidx = 1]. *)
Definition parse_args (p : SynthIntelPass) (args : list string) : parse_state :=
  parse_loop (drop 1 args) (mkParseState (clear_flags p) "" "" 1).

Definition family_known (family : string) : bool :=
  bool_decide (family ∈ ["max10"; "a10gx"; "cyclonev"; "cycloneiv"; "cycloneive"]%string).

(** How [execute] goes on: [extra_args] may raise, the two [log_cmd_error]
    calls raise, otherwise [run_script] is called with the flags. *)
Inductive execute_result : Type :=
  | ExtraArgsError
  | NotFullySelected
  | InvalidFamily (family : string)
  | RunScript (p : SynthIntelPass) (from to : string).

(** [execute]; [extra_args args argidx] says whether [extra_args] returns,
    [full_selection] is [design->full_selection()]. *)
Definition execute (extra_args : list string → nat → bool) (full_selection : bool)
    (p : SynthIntelPass) (args : list string) : execute_result :=
  let st := parse_args p args in
  if negb (extra_args args (argidx st)) then ExtraArgsError
  else if negb full_selection then NotFullySelected
  else if negb (String.eqb (family_opt (pass st)) "max10")
          && negb (String.eqb (family_opt (pass st)) "a10gx")
          && negb (String.eqb (family_opt (pass st)) "cyclonev")
          && negb (String.eqb (family_opt (pass st)) "cycloneiv")
          && negb (String.eqb (family_opt (pass st)) "cycloneive")
       then InvalidFamily (family_opt (pass st))
  else RunScript (pass st) (run_from st) (run_to st).

(** ** [script] *)

Section Script.
(** The state of [ScriptPass] behind [check_label] and [run]. *)
Context {Base : Type}.
(** [check_label(label, info)] and the effect of [run(command, info)]. *)
Variable check_label : string → string → Base → bool * Base.
Variable run_effect : string → string → Base → Base.

(** The state of the base class and the commands handed to [run] so far. *)
Definition script_state : Type := Base * list string.

Definition run (command info : string) (w : script_state) : script_state :=
  (run_effect command info w.1, w.2 ++ [command]).

Definition label (name info : string) (w : script_state) : bool * script_state :=
  let r := check_label name info w.1 in (r.1, (r.2, w.2)).

(** [c1 && c2] with [c1] a call of [check_label]. *)
Definition label_and (name : string) (cond : bool) (w : script_state)
    : bool * script_state :=
  let r := label name "" w in (r.1 && cond, r.2).

Definition cells_sim (family : string) : string :=
  "read_verilog -sv -lib +/intel/" ++ family ++ "/cells_sim.v".

Definition cells_map (family : string) : string :=
  "techmap -map +/intel/" ++ family ++ "/cells_map.v".

(** [if (check_label("begin")) { ... }] *)
Definition script_begin (p : SynthIntelPass) (help_mode : bool)
    (w : script_state) : script_state :=
  let r := label "begin" "" w in
  if r.1 then
    let r1 := label_and "family" (String.eqb (family_opt p) "max10") r.2 in
    let w1 :=
      if r1.1 then run (cells_sim "max10") "" r1.2
      else
        let r2 := label_and "family" (String.eqb (family_opt p) "a10gx") r1.2 in
        if r2.1 then run (cells_sim "a10gx") "" r2.2
        else
          let r3 := label_and "family" (String.eqb (family_opt p) "cyclonev") r2.2 in
          if r3.1 then run (cells_sim "cyclonev") "" r3.2
          else
            let r4 := label_and "family" (String.eqb (family_opt p) "cycloneiv") r3.2 in
            if r4.1 then run (cells_sim "cycloneiv") "" r4.2
            else run (cells_sim "cycloneive") "" r4.2
    in
    let w2 := run "read_verilog -sv -lib +/intel/common/m9k_bb.v" "" w1 in
    let w3 := run "read_verilog -sv -lib +/intel/common/altpll_bb.v" "" w2 in
    run ("hierarchy -check " ++ (if help_mode then "-top <top>" else top_opt p)) "" w3
  else r.2.

(** [if (flatten && check_label("flatten", "(unless -noflatten)")) { ... }] *)
Definition script_flatten (p : SynthIntelPass) (w : script_state) : script_state :=
  if flatten p then
    let r := label "flatten" "(unless -noflatten)" w in
    if r.1 then
      run "deminout" "" (run "tribuf -logic" "" (run "flatten" "" (run "proc" "" r.2)))
    else r.2
  else w.

(** [if (check_label("coarse")) { ... }] *)
Definition script_coarse (w : script_state) : script_state :=
  let r := label "coarse" "" w in
  if r.1 then run "synth -run coarse" "" r.2 else r.2.

(** [if (!nobram && check_label("bram", "(skip if -nobram)")) { ... }] *)
Definition script_bram (p : SynthIntelPass) (w : script_state) : script_state :=
  if negb (nobram p) then
    let r := label "bram" "(skip if -nobram)" w in
    if r.1 then
      run "techmap -map +/intel/common/brams_map.v" ""
        (run "memory_bram -rules +/intel/common/brams.txt" "" r.2)
    else r.2
  else w.

(** [if (check_label("fine")) { ... }] *)
Definition script_fine (p : SynthIntelPass) (help_mode : bool)
    (w : script_state) : script_state :=
  let r := label "fine" "" w in
  if r.1 then
    let w1 :=
      foldl (λ acc command, run command "" acc) r.2
        [ "opt -fast -mux_undef -undriven -fine -full";
          "memory_map";
          "opt -undriven -fine";
          "dffsr2dff";
          "dff2dffe -direct-match $_DFF_*";
          "opt -fine";
          "techmap -map +/techmap.v";
          "opt -full";
          "clean -purge";
          "setundef -undriven -zero" ]%string in
    if retime p || help_mode
    then run "abc -markgroups -dff" "(only if -retime)" w1
    else w1
  else r.2.

(** [if (check_label("map_luts")) { ... }] *)
Definition script_map_luts (p : SynthIntelPass) (w : script_state) : script_state :=
  let r := label "map_luts" "" w in
  if r.1 then
    let w1 :=
      if String.eqb (family_opt p) "a10gx" || String.eqb (family_opt p) "cyclonev"
      then run ("abc -luts 2:2,3,6:5,10" ++ (if retime p then " -dff" else "")) "" r.2
      else run ("abc -lut 4" ++ (if retime p then " -dff" else "")) "" r.2 in
    run "clean" "" w1
  else r.2.

(** [if (check_label("map_cells")) { ... }] *)
Definition script_map_cells (p : SynthIntelPass) (w : script_state) : script_state :=
  let r := label "map_cells" "" w in
  if r.1 then
    let w0 := run "iopadmap -bits -outpad $__outpad I:O -inpad $__inpad O:I" "" r.2 in
    let w1 :=
      if String.eqb (family_opt p) "max10" then run (cells_map "max10") "" w0
      else if String.eqb (family_opt p) "a10gx" then run (cells_map "a10gx") "" w0
      else if String.eqb (family_opt p) "cyclonev" then run (cells_map "cyclonev") "" w0
      else if String.eqb (family_opt p) "cycloneiv" then run (cells_map "cycloneiv") "" w0
      else run (cells_map "cycloneive") "" w0 in
    run "clean -purge" "" (run "dffinit -ff dffeas Q INIT" "" w1)
  else r.2.

(** [if (check_label("check")) { ... }] *)
Definition script_check (w : script_state) : script_state :=
  let r := label "check" "" w in
  if r.1 then
    run "check -noinit" "" (run "stat" "" (run "hierarchy -check" "" r.2))
  else r.2.

(** [if (check_label("vqm")) { ... }] *)
Definition script_vqm (p : SynthIntelPass) (help_mode : bool)
    (w : script_state) : script_state :=
  let r := label "vqm" "" w in
  if r.1 then
    if negb (String.eqb (vout_file p) "") || help_mode
    then run ("write_verilog -attr2comment -defparam -nohex -decimal -renameprefix syn_ "
              ++ (if help_mode then "<file-name>" else vout_file p)) "" r.2
    else r.2
  else r.2.

(** [script], block after block. *)
Definition script (p : SynthIntelPass) (help_mode : bool)
    (w : script_state) : script_state :=
  script_vqm p help_mode
    (script_check
      (script_map_cells p
        (script_map_luts p
          (script_fine p help_mode
            (script_bram p
              (script_coarse
                (script_flatten p
                  (script_begin p help_mode w)))))))).

(** A block hands to [run] commands that all satisfy [Q], and keeps the
    commands handed over before. *)
Definition appends (block : script_state → script_state) (Q : string → Prop) : Prop :=
  ∀ w, ∃ commands, (block w).2 = w.2 ++ commands ∧ Forall Q commands.

(** What a block can hand to [run] with the flags as they are, whatever
    [check_label] answers. *)
Definition begin_commands (p : SynthIntelPass) (help_mode : bool) : list string :=
  [ cells_sim (family_opt p);
    cells_sim "cycloneive";
    "read_verilog -sv -lib +/intel/common/m9k_bb.v";
    "read_verilog -sv -lib +/intel/common/altpll_bb.v";
    "hierarchy -check " ++ (if help_mode then "-top <top>" else top_opt p) ]%string.

Definition flatten_commands (p : SynthIntelPass) : list string :=
  if flatten p then ["proc"; "flatten"; "tribuf -logic"; "deminout"]%string else [].

Definition bram_commands (p : SynthIntelPass) : list string :=
  if nobram p then []
  else [ "memory_bram -rules +/intel/common/brams.txt";
         "techmap -map +/intel/common/brams_map.v" ]%string.

Definition fine_commands (p : SynthIntelPass) (help_mode : bool) : list string :=
  [ "opt -fast -mux_undef -undriven -fine -full";
    "memory_map";
    "opt -undriven -fine";
    "dffsr2dff";
    "dff2dffe -direct-match $_DFF_*";
    "opt -fine";
    "techmap -map +/techmap.v";
    "opt -full";
    "clean -purge";
    "setundef -undriven -zero" ]%string
  ++ (if retime p || help_mode then ["abc -markgroups -dff"%string] else []).

Definition map_luts_commands (p : SynthIntelPass) : list string :=
  [ (if String.eqb (family_opt p) "a10gx" || String.eqb (family_opt p) "cyclonev"
     then "abc -luts 2:2,3,6:5,10" else "abc -lut 4")
    ++ (if retime p then " -dff" else "");
    "clean" ]%string.

(** The family whose cells are mapped: the one asked for when it is one of
    the five, Cyclone IV E otherwise. *)
Definition chosen_family (p : SynthIntelPass) : string :=
  if family_known (family_opt p) then family_opt p else "cycloneive".

Definition map_cells_commands (p : SynthIntelPass) : list string :=
  [ "iopadmap -bits -outpad $__outpad I:O -inpad $__inpad O:I";
    cells_map (chosen_family p);
    "dffinit -ff dffeas Q INIT";
    "clean -purge" ]%string.

Definition vqm_commands (p : SynthIntelPass) (help_mode : bool) : list string :=
  if negb (String.eqb (vout_file p) "") || help_mode
  then [ ("write_verilog -attr2comment -defparam -nohex -decimal -renameprefix syn_ "
          ++ (if help_mode then "<file-name>" else vout_file p))%string ]
  else [].

Definition script_repertoire (p : SynthIntelPass) (help_mode : bool) : list string :=
  begin_commands p help_mode ++ flatten_commands p ++ ["synth -run coarse"%string]
  ++ bram_commands p ++ fine_commands p help_mode ++ map_luts_commands p
  ++ map_cells_commands p ++ ["hierarchy -check"; "stat"; "check -noinit"]%string
  ++ vqm_commands p help_mode.

(** What [script] hands to [run] when every block is active. *)
Definition full_commands (p : SynthIntelPass) (help_mode : bool) : list string :=
  [ cells_sim (chosen_family p);
    "read_verilog -sv -lib +/intel/common/m9k_bb.v";
    "read_verilog -sv -lib +/intel/common/altpll_bb.v";
    "hierarchy -check " ++ (if help_mode then "-top <top>" else top_opt p) ]%string
  ++ flatten_commands p ++ ["synth -run coarse"%string]
  ++ bram_commands p ++ fine_commands p help_mode ++ map_luts_commands p
  ++ map_cells_commands p ++ ["hierarchy -check"; "stat"; "check -noinit"]%string
  ++ vqm_commands p help_mode.

(** A command obeys the flags.  Under [-nobram] it is no [memory_bram]
    command and no [techmap] command that mentions [brams]; without
    [-retime] no [abc] command that carries [-dff]; without [-vqm] no
    [write_verilog] command (the last two outside help mode); with
    [flatten] off no [proc], [flatten], [tribuf] or [deminout] command. *)
Definition obeys_flags (p : SynthIntelPass) (help_mode : bool) (c : string) : Prop :=
  (nobram p = true →
     command_word c ≠ "memory_bram"%string
     ∧ (command_word c = "techmap"%string → carries "brams" c = false))
  ∧ (retime p = false → help_mode = false →
     command_word c = "abc"%string → carries "-dff" c = false)
  ∧ (vout_file p = ""%string → help_mode = false →
     command_word c ≠ "write_verilog"%string)
  ∧ (flatten p = false →
     command_word c ∉ ["proc"; "flatten"; "tribuf"; "deminout"]%string).

(** The commands [script] hands to [run], from a state of the base class. *)
Definition script_commands (p : SynthIntelPass) (help_mode : bool) (s : Base)
    : list string :=
  (script p help_mode (s, [])).2.

End Script.

(** Answers of [check_label] under which every block is active. *)
Definition all_labels (_ _ : string) (s : unit) : bool * unit := (true, s).

(** No block is active. *)
Definition no_label (_ _ : string) (s : unit) : bool * unit := (false, s).

(** ** Concrete runs of the pass *)

(** The flags after [synth_intel -family cyclonev -top cpu -nobram]. *)
Definition ex_pass : SynthIntelPass :=
  mkSynthIntelPass "-top cpu" "cyclonev" "" false true true.

(** [run] with no effect on the state of the base class. *)
Definition ex_run_effect (_ _ : string) (s : unit) : unit := s.

(** [extra_args] that accepts whatever is left. *)
Definition ex_extra_args (_ : list string) (_ : nat) : bool := true.

(** ** Tactics for the blocks of [script] *)

Ltac elem_cases Hc :=
  repeat (apply elem_of_cons in Hc as [-> | Hc]);
  try (by apply elem_of_nil in Hc).

Ltac elem_solve :=
  repeat first [ apply list_elem_of_here | apply list_elem_of_further ].

(** Runs a block on every answer of [check_label] and compares what it
    hands to [run] with the list [HQ] speaks of. *)
Ltac block_appends HQ :=
  intros w; cbn zeta; cbn [label label_and run fst snd foldl];
  repeat (case_match; cbn [label label_and run fst snd foldl]);
  (eexists; (split; [rewrite <- ?app_assoc; try reflexivity; by rewrite app_nil_r|]));
  rewrite Forall_forall in HQ; apply Forall_forall; intros c Hc; apply HQ;
  repeat match goal with
         | Heq : (_ && String.eqb _ _) = true |- _ =>
             apply andb_prop in Heq as [_ Heq]
         | Heq : String.eqb _ _ = true |- _ =>
             apply String.eqb_eq in Heq; rewrite ?Heq
         end;
  cbn [app] in Hc |- *; elem_cases Hc; elem_solve.

Ltac flags_clash :=
  exfalso;
  repeat match goal with
         | H : ?x = ?b, H' : context [?x] |- _ =>
             lazymatch b with
             | true => idtac | false => idtac | EmptyString => idtac
             end;
             rewrite H in H'
         end;
  cbn in *; discriminate.

(** One clause of [obeys_flags] for a command whose first word is known:
    the word is another one, the command does not carry the option, or the
    flags in the context rule the case out. *)
Ltac flag_clause :=
  first [ by (let Hword := fresh "Hword" in
              intros Hword; vm_compute in Hword; discriminate Hword)
        | by (intros; vm_compute; reflexivity)
        | flags_clash ].

(** ** Tactics for runs on an index given by its entries *)

Ltac visited_solver :=
  rewrite ?elem_of_union, ?elem_of_singleton, ?elem_of_empty;
  intuition congruence.

Ltac incr_lookup :=
  unfold WireIter_incr, next_sig_in_dag, pushes;
  cbn [WireIter_begin sig sentinel dfs_path_stack cells_visited];
  repeat match goal with
  | H : sigbit_driver_map _ !! _ = _ |- _ => rewrite H
  | H : cell_inputs_map _ !! _ = _ |- _ => rewrite H
  | |- context [decide (?c ∈ ?V)] =>
      first [ rewrite (decide_True (P := c ∈ V)) by visited_solver
            | rewrite (decide_False (P := c ∈ V)) by visited_solver ]
  end;
  cbn [next_sig_in_dag_from].

Ltac trace_run :=
  repeat first
    [ apply trace_end; reflexivity
    | eapply trace_step; [reflexivity | incr_lookup; reflexivity | ] ].

(** * Properties *)

Section ConeFacts.
Context {SigBit CellPtr IdString : Type}.
Context `{Countable SigBit, Countable CellPtr, Inhabited SigBit}.

Abbreviation Netlist := (@Netlist SigBit CellPtr IdString _ _ _ _).
Abbreviation WireIter := (@NetlistConeWireIter SigBit CellPtr _ _).
Abbreviation CellIter := (@NetlistConeCellIter SigBit CellPtr _ _).
Implicit Types (net : Netlist) (it : WireIter) (ci : CellIter) (s : SigBit) (c : CellPtr).
Implicit Types (V : gset CellPtr) (stack : list (list SigBit)).

(** ** The iterator protocol *)

Lemma WireIter_neq_end it : WireIter_neq it WireIter_end = negb (sentinel it).
Proof.
  unfold WireIter_neq, WireIter_end; simpl.
  rewrite orb_true_r. by destruct (sentinel it).
Qed.

Lemma CellIter_neq_end ci :
  CellIter_neq ci CellIter_end = negb (sentinel (sig_iter ci)).
Proof. apply WireIter_neq_end. Qed.

(** ** The step budget decreases *)

Lemma weight_step_comm V (j1 j2 : CellPtr) (z1 z2 : list SigBit) (y : nat) :
  (if decide (j1 ∈ V) then (if decide (j2 ∈ V) then y else S (length z2) + y)
   else S (length z1) + (if decide (j2 ∈ V) then y else S (length z2) + y))
  = (if decide (j2 ∈ V) then (if decide (j1 ∈ V) then y else S (length z1) + y)
     else S (length z2) + (if decide (j1 ∈ V) then y else S (length z1) + y)).
Proof. repeat case_decide; lia. Qed.

Lemma unvisited_weight_absent net V c :
  cell_inputs_map net !! c = None →
  unvisited_weight net ({[c]} ∪ V) = unvisited_weight net V.
Proof.
  unfold unvisited_weight. generalize (cell_inputs_map net) as m.
  intros m. induction m as [|i x m Hi IH] using map_ind; intros Hc.
  - by rewrite !map_fold_empty.
  - apply lookup_insert_None in Hc as [Hc Hne].
    rewrite !map_fold_insert_L; try done;
      try (intros; apply weight_step_comm).
    rewrite IH; [|done].
    destruct (decide (i ∈ V)) as [Hv|Hv], (decide (i ∈ {[c]} ∪ V)) as [Hu|Hu];
      try done.
    + exfalso. apply Hu, elem_of_union. by right.
    + apply elem_of_union in Hu as [Hu%elem_of_singleton|Hu]; congruence.
Qed.

Lemma unvisited_weight_visit net V c inputs :
  cell_inputs_map net !! c = Some inputs → c ∉ V →
  unvisited_weight net V = S (length inputs) + unvisited_weight net ({[c]} ∪ V).
Proof.
  intros Hc HV.
  pose (net' := mkNetlist (module net) (sigmap net) (sigbit_driver_map net)
                          (delete c (cell_inputs_map net))).
  assert (Habs : unvisited_weight net' ({[c]} ∪ V) = unvisited_weight net' V).
  { apply unvisited_weight_absent. simpl. apply lookup_delete_eq. }
  unfold unvisited_weight in *. subst net'. cbn [cell_inputs_map] in Habs.
  rewrite !(map_fold_delete_L _ _ c inputs (cell_inputs_map net));
    try done; try (intros; apply weight_step_comm).
  rewrite Habs.
  destruct (decide (c ∈ V)); [done|].
  destruct (decide (c ∈ {[c]} ∪ V)) as [|Hu]; [done|].
  exfalso. apply Hu, elem_of_union. left. by apply elem_of_singleton.
Qed.

(** ** What one step does *)

Lemma next_sig_in_dag_from_Ok s snt V stack it' :
  next_sig_in_dag_from s snt V stack = Ok it' →
  (it' = mkWireIter s true [] V ∧ ∀ frame, frame ∈ stack → ∃ x, frame = [x])
  ∨ ∃ popped x s' rest below,
      stack = popped ++ ((x :: s' :: rest) :: below)
      ∧ (∀ frame, frame ∈ popped → ∃ y, frame = [y])
      ∧ it' = mkWireIter s' snt ((s' :: rest) :: below) V.
Proof.
  induction stack as [|frame below IH]; simpl; intros Hok.
  - left. split; [congruence|]. intros ? Hin. by apply elem_of_nil in Hin.
  - destruct frame as [|x [|s' rest]]; [done| |].
    + destruct (IH Hok) as [[-> Hall]|(popped & x' & s' & rest & below' & -> & Hall & ->)].
      * left. split; [done|]. intros f [->|Hf]%elem_of_cons; eauto.
      * right. exists ([x] :: popped), x', s', rest, below'.
        split_and!; [done| |done].
        intros f [->|Hf]%elem_of_cons; eauto.
    + right. exists [], x, s', rest, below.
      split_and!; [done| |congruence].
      intros ? Hin. by apply elem_of_nil in Hin.
Qed.

Lemma WireIter_incr_Ok net it it' :
  WireIter_incr net it = Ok it' →
  (∃ drv x inputs,
      pushes net it = Some drv
      ∧ sigbit_driver_map net !! sig it = Some drv ∧ (drv ∉ cells_visited it)
      ∧ cell_inputs_map net !! drv = Some (x :: inputs)
      ∧ it' = mkWireIter x (sentinel it) ((x :: inputs) :: dfs_path_stack it)
                         ({[drv]} ∪ cells_visited it))
  ∨ (pushes net it = None ∧ next_sig_in_dag it = Ok it').
Proof.
  unfold WireIter_incr, pushes.
  destruct (sigbit_driver_map net !! sig it) as [drv|]; [|by right].
  destruct (decide (drv ∈ cells_visited it)); [by right|].
  destruct (cell_inputs_map net !! drv) as [[|x inputs]|] eqn:Hin; try done.
  intros [= <-]. left. by exists drv, x, inputs.
Qed.

(** On a cell whose recorded input set is empty the push is followed by
    the dereference of [begin()], which is [end()]. *)
Lemma WireIter_incr_empty_inputs net it drv :
  pushes net it = Some drv → cell_inputs_map net !! drv = Some [] →
  WireIter_incr net it = Err UndefinedBehaviour.
Proof.
  unfold pushes, WireIter_incr. intros Hp Hin.
  destruct (sigbit_driver_map net !! sig it) as [c|]; [|done].
  destruct (decide (c ∈ cells_visited it)); [done|].
  assert (c = drv) as -> by congruence. by rewrite Hin.
Qed.

Lemma stack_weight_cons (frame : list SigBit) stack :
  stack_weight (frame :: stack) = length frame + stack_weight stack.
Proof. done. Qed.

Lemma stack_weight_app stack1 stack2 :
  stack_weight (stack1 ++ stack2) = stack_weight stack1 + stack_weight stack2.
Proof.
  induction stack1 as [|f stack1 IH]; [done|].
  rewrite <- app_comm_cons, !stack_weight_cons, IH. lia.
Qed.

(** A step from an iterator that is not the end takes one unit of the
    budget at least. *)
Lemma WireIter_incr_weight net it it' :
  sentinel it = false → WireIter_incr net it = Ok it' →
  iter_weight net it' < iter_weight net it.
Proof.
  intros Hs [(drv & x & inputs & _ & _ & Hfresh & Hin & ->)|[_ Hnext]]%WireIter_incr_Ok.
  - unfold iter_weight; simpl. rewrite Hs.
    rewrite (unvisited_weight_visit net (cells_visited it) drv (x :: inputs) Hin Hfresh).
    rewrite stack_weight_cons. simpl.
    lia.
  - unfold next_sig_in_dag in Hnext.
    apply next_sig_in_dag_from_Ok in Hnext
      as [[-> _]|(popped & x & s' & rest & below & Hst & _ & ->)];
      unfold iter_weight; simpl; rewrite ?Hs, ?Hst.
    + change (stack_weight (@nil (list SigBit))) with 0. lia.
    + rewrite stack_weight_app, !stack_weight_cons. simpl. lia.
Qed.

Lemma sentinel_weight net it : sentinel it = false → 0 < iter_weight net it.
Proof. unfold iter_weight. intros ->. lia. Qed.

(** ** Runs *)

Lemma trace_total net it : ∃ l e, trace net it l e.
Proof.
  remember (iter_weight net it) as n eqn:Hn.
  revert it Hn. induction n as [n IH] using lt_wf_ind. intros it ->.
  destruct (sentinel it) eqn:Hs.
  - exists [], None. by constructor.
  - destruct (WireIter_incr net it) as [it'|e] eqn:Hincr.
    + destruct (IH (iter_weight net it') (WireIter_incr_weight _ _ _ Hs Hincr) it' eq_refl)
        as (l & e & Htr).
      exists (it :: l), e. by econstructor.
    + exists [it], (Some e). by constructor.
Qed.

Lemma trace_det net it l1 e1 l2 e2 :
  trace net it l1 e1 → trace net it l2 e2 → l1 = l2 ∧ e1 = e2.
Proof.
  intros Htr. revert l2 e2.
  induction Htr as [it Hs|it it' l e Hs Hincr Htr IH|it e Hs Hincr];
    intros l2 e2 Htr2; inversion Htr2 as [|? it2 l0 ? ? Hincr2 Htr2'|]; subst;
    try congruence.
  - done.
  - assert (it2 = it') as -> by congruence.
    by destruct (IH _ _ Htr2') as [-> ->].
  - split; congruence.
Qed.

Lemma trace_no_fuel net it l e : trace net it l e → e ≠ Some OutOfFuel.
Proof.
  induction 1 as [| |it e Hs Hincr]; try done.
  intros [= ->]. unfold WireIter_incr, next_sig_in_dag in Hincr.
  assert (Hnext : ∀ s snt V stack,
    next_sig_in_dag_from s snt V stack ≠ Err OutOfFuel).
  { clear. intros s snt V stack.
    induction stack as [|[|x [|s' rest]] below IH]; simpl; congruence. }
  repeat case_match; simplify_eq; by eapply Hnext.
Qed.

Lemma wire_states_trace net it l e fuel :
  trace net it l e → iter_weight net it ≤ fuel →
  wire_states fuel net it = (l, e).
Proof.
  intros Htr. revert fuel.
  induction Htr as [it Hs|it it' l e Hs Hincr Htr IH|it e Hs Hincr];
    intros fuel Hfuel.
  - destruct fuel; simpl; by rewrite WireIter_neq_end, Hs.
  - pose proof (WireIter_incr_weight _ _ _ Hs Hincr).
    destruct fuel as [|fuel]; [lia|].
    simpl. rewrite WireIter_neq_end, Hs, Hincr. simpl.
    rewrite IH; [done|lia].
  - pose proof (sentinel_weight net it Hs).
    destruct fuel as [|fuel]; [lia|].
    simpl. by rewrite WireIter_neq_end, Hs, Hincr.
Qed.

Lemma wire_range_for_states fuel net it :
  wire_range_for fuel net it
  = (sig <$> (wire_states fuel net it).1, (wire_states fuel net it).2).
Proof.
  revert it. induction fuel as [|fuel IH]; intros it; simpl.
  - by destruct (WireIter_neq it WireIter_end).
  - destruct (WireIter_neq it WireIter_end); [|done].
    destruct (WireIter_incr net it) as [it'|e]; [|done].
    simpl. by rewrite IH.
Qed.

Lemma wire_range_for_trace net it l e fuel :
  trace net it l e → iter_weight net it ≤ fuel →
  wire_range_for fuel net it = (sig <$> l, e).
Proof.
  intros Htr Hfuel.
  by rewrite wire_range_for_states, (wire_states_trace _ _ _ _ _ Htr Hfuel).
Qed.

Lemma wire_range_for_length fuel net it :
  length (wire_range_for fuel net it).1 ≤ fuel.
Proof.
  revert it. induction fuel as [|fuel IH]; intros it; simpl.
  - by destruct (WireIter_neq it WireIter_end).
  - destruct (WireIter_neq it WireIter_end); simpl; [|lia].
    destruct (WireIter_incr net it) as [it'|e]; simpl; [|lia].
    specialize (IH it'). lia.
Qed.

Lemma begin_weight net s : iter_weight net (WireIter_begin s) = cone_fuel net.
Proof. unfold iter_weight, cone_fuel, stack_weight. simpl. lia. Qed.

Lemma cone_trace net b l e :
  trace net (WireIter_begin (sigmap net b)) l e → cone net b = (sig <$> l, e).
Proof.
  intros Htr. apply wire_range_for_trace; [done|]. by rewrite begin_weight.
Qed.

Lemma cone_states_trace net b l e :
  trace net (WireIter_begin (sigmap net b)) l e → cone_states net b = (l, e).
Proof.
  intros Htr. apply wire_states_trace; [done|]. by rewrite begin_weight.
Qed.

(** ** Pushes *)

Lemma trace_pushes_fresh net it l e :
  trace net it l e →
  NoDup (omap (pushes net) l)
  ∧ ∀ c, c ∈ omap (pushes net) l → c ∉ cells_visited it.
Proof.
  induction 1 as [it Hs|it it' l e Hs Hincr Htr [IHnd IHv]|it e Hs Hincr]; simpl.
  - split; [constructor|]. intros c Hc. by apply elem_of_nil in Hc.
  - apply WireIter_incr_Ok in Hincr
      as [(drv & x & inputs & Hp & _ & Hfresh & _ & ->)|[Hp Hnext]]; rewrite Hp.
    + simpl in IHv. split.
      * constructor; [|done]. intros Hin. apply (IHv _ Hin).
        apply elem_of_union. left. by apply elem_of_singleton.
      * intros c [->|Hc]%elem_of_cons; [done|].
        intros Hv. apply (IHv _ Hc). apply elem_of_union. by right.
    + split; [done|]. intros c Hc.
      unfold next_sig_in_dag in Hnext.
      apply next_sig_in_dag_from_Ok in Hnext as [[-> _]|(?&?&?&?&?&_&_&->)];
        by apply IHv.
  - unfold pushes. destruct (sigbit_driver_map net !! sig it) as [drv|];
      [|split; [constructor|intros c Hc; by apply elem_of_nil in Hc]].
    destruct (decide (drv ∈ cells_visited it));
      [split; [constructor|intros c Hc; by apply elem_of_nil in Hc]|].
    split; [apply NoDup_singleton|].
    by intros c ->%list_elem_of_singleton.
Qed.

(** ** Claims about [cone] *)

(** C2, as the code has it: the sequence of [cone(net, b)] begins with the
    canonical start bit itself, whatever the index; the loop body sees
    [*begin()] before the first [operator++]. *)
Theorem cone_begins_with_start_bit net b :
  ∃ rest, (cone net b).1 = sigmap net b :: rest.
Proof.
  unfold cone, cone_fuel. simpl.
  destruct (WireIter_incr net (WireIter_begin (sigmap net b))); simpl; eauto.
Qed.

(** C4, as the code has it: for a bit whose canonical form has no entry in
    [sigbit_driver_map], [cone(net, b)] is the one-element sequence of that
    canonical bit, and the loop ends at [end()]. *)
Theorem cone_undriven_bit net b :
  sigbit_driver_map net !! sigmap net b = None →
  cone net b = ([sigmap net b], None).
Proof.
  intros Hnone. apply (cone_trace net b [WireIter_begin (sigmap net b)] None).
  apply (trace_step net _ (mkWireIter (sigmap net b) true [] ∅));
    [done| |by apply trace_end].
  unfold WireIter_incr. simpl. by rewrite Hnone.
Qed.

(** C9: [cone] and [cell_cone] apply [sigmap] to their argument before they
    build the iterable, so when the canonical form of [b] is its own
    canonical form, as it is with a canonicalizer, [b] and its canonical
    form have the same cones. *)
Theorem cone_of_canonical_bit net b :
  sigmap net (sigmap net b) = sigmap net b →
  cone net b = wire_range_for (cone_fuel net) net (WireIter_begin (sigmap net b))
  ∧ cone net (sigmap net b) = cone net b
  ∧ cell_cone net (sigmap net b) = cell_cone net b.
Proof.
  intros Hidem. unfold cone, cell_cone. by rewrite Hidem.
Qed.

(** C10: for a bit whose canonical form has no entry in
    [sigbit_driver_map], [cell_cone(net, b)] is empty: the constructor of
    the cell iterator steps off the start bit and reaches the end. *)
Theorem cell_cone_undriven_bit net b :
  sigbit_driver_map net !! sigmap net b = None →
  cell_cone net b = ([], None).
Proof.
  intros Hnone. unfold cell_cone, CellIter_begin, cone_fuel, has_driver_cell.
  simpl. rewrite Hnone.
  rewrite bool_decide_eq_false_2 by (by intros [? ?]).
  unfold WireIter_incr. simpl. by rewrite Hnone.
Qed.

(** ** The invariant of the traversal *)

Lemma cone_inv_begin net start : cone_inv net start [] (WireIter_begin start).
Proof.
  split; simpl.
  - apply elem_of_cons. by left.
  - apply rtc_refl.
  - intros s Hs. by apply elem_of_nil in Hs.
  - intros frame s Hf. by apply elem_of_nil in Hf.
  - intros s c Hs. by apply elem_of_nil in Hs.
  - intros c inputs s Hc. by apply not_elem_of_empty in Hc.
  - intros frame Hf. by apply elem_of_nil in Hf.
  - done.
Qed.

Lemma pushes_None_visited net it c :
  pushes net it = None → sigbit_driver_map net !! sig it = Some c →
  c ∈ cells_visited it.
Proof.
  unfold pushes. intros Hp Hd. rewrite Hd in Hp.
  by destruct (decide (c ∈ cells_visited it)).
Qed.

Lemma cone_inv_push net start yielded it drv x inputs :
  cone_inv net start yielded it →
  sentinel it = false →
  sigbit_driver_map net !! sig it = Some drv →
  cell_inputs_map net !! drv = Some (x :: inputs) →
  cone_inv net start (sig it :: yielded)
    (mkWireIter x (sentinel it) ((x :: inputs) :: dfs_path_stack it)
                ({[drv]} ∪ cells_visited it)).
Proof.
  intros [Hstart Hsig Hyield Hstack Hvis Hpend Hfr Hsnt] Hs Hdrv Hin.
  assert (Hfeeds : ∀ s, s ∈ x :: inputs → rtc (feeds net) start s).
  { intros s Hsin. eapply rtc_r; [exact Hsig|]. by exists drv, (x :: inputs). }
  split; simpl.
  - apply elem_of_cons. by right.
  - apply Hfeeds, elem_of_cons. by left.
  - intros s [->|Hsy]%elem_of_cons; auto.
  - intros frame s [->|Hf]%elem_of_cons Hsf; eauto.
  - intros s c [->|Hsy]%elem_of_cons Hd; apply elem_of_union.
    + left. apply elem_of_singleton. congruence.
    + right. eauto.
  - intros c ins s [->%elem_of_singleton|Hc]%elem_of_union Hci Hsi.
    + assert (ins = x :: inputs) as -> by congruence.
      apply elem_of_cons in Hsi as [->|Hsi].
      * left. apply elem_of_cons. by left.
      * right. exists (x :: inputs). split; [apply elem_of_cons; by left|done].
    + destruct (Hpend c ins s Hc Hci Hsi) as [Hl|(frame & Hf & Ht)].
      * left. apply elem_of_cons. by right.
      * right. exists frame. split; [apply elem_of_cons; by right|done].
  - intros frame [->|Hf]%elem_of_cons; [done|by apply Hfr].
  - congruence.
Qed.

Lemma cone_inv_next net start yielded it it' :
  cone_inv net start yielded it →
  sentinel it = false →
  pushes net it = None →
  next_sig_in_dag it = Ok it' →
  cone_inv net start (sig it :: yielded) it'.
Proof.
  intros [Hstart Hsig Hyield Hstack Hvis Hpend Hfr Hsnt] Hs Hp Hnext.
  unfold next_sig_in_dag in Hnext.
  apply next_sig_in_dag_from_Ok in Hnext
    as [[-> Hall]|(popped & x & s' & rest & below & Hst & Hall & ->)].
  - split; simpl.
    + apply elem_of_cons. by right.
    + done.
    + intros s [->|Hsy]%elem_of_cons; auto.
    + intros frame s Hf. by apply elem_of_nil in Hf.
    + intros s c [->|Hsy]%elem_of_cons Hd; [|eauto].
      by eapply pushes_None_visited.
    + intros c ins s Hc Hci Hsi.
      destruct (Hpend c ins s Hc Hci Hsi) as [Hl|(frame & Hf & Ht)].
      * left. apply elem_of_cons. by right.
      * destruct (Hall frame Hf) as [y ->]. by apply elem_of_nil in Ht.
    + intros frame Hf. by apply elem_of_nil in Hf.
    + intros _. split; [done|]. apply elem_of_cons. by left.
  - assert (Hframe : (x :: s' :: rest) ∈ dfs_path_stack it).
    { rewrite Hst. apply elem_of_app. right. apply elem_of_cons. by left. }
    assert (Hbelow : ∀ frame, frame ∈ below → frame ∈ dfs_path_stack it).
    { intros frame Hf. rewrite Hst. apply elem_of_app. right.
      apply elem_of_cons. by right. }
    split; simpl.
    + apply elem_of_cons. by right.
    + apply (Hstack _ _ Hframe). apply elem_of_cons. right.
      apply elem_of_cons. by left.
    + intros s [->|Hsy]%elem_of_cons; auto.
    + intros frame s [->|Hf]%elem_of_cons Hsf.
      * apply (Hstack _ _ Hframe). apply elem_of_cons. by right.
      * exact (Hstack frame s (Hbelow _ Hf) Hsf).
    + intros s c [->|Hsy]%elem_of_cons Hd; [|eauto].
      by eapply pushes_None_visited.
    + intros c ins s Hc Hci Hsi.
      destruct (Hpend c ins s Hc Hci Hsi) as [Hl|(frame & Hf & Ht)].
      { left. apply elem_of_cons. by right. }
      rewrite Hst in Hf.
      apply elem_of_app in Hf as [Hf|[->|Hf]%elem_of_cons].
      * destruct (Hall frame Hf) as [y ->]. by apply elem_of_nil in Ht.
      * simpl in Ht. apply elem_of_cons in Ht as [->|Ht].
        -- left. apply elem_of_cons. by left.
        -- right. exists (s' :: rest). split; [apply elem_of_cons; by left|done].
      * right. exists frame. split; [apply elem_of_cons; by right|done].
    + intros frame [->|Hf]%elem_of_cons; [done|]. by apply Hfr, Hbelow.
    + congruence.
Qed.

Lemma cone_inv_step net start yielded it it' :
  cone_inv net start yielded it → sentinel it = false →
  WireIter_incr net it = Ok it' →
  cone_inv net start (sig it :: yielded) it'.
Proof.
  intros Hinv Hs [(drv & x & inputs & _ & Hd & _ & Hin & ->)|[Hp Hnext]]%WireIter_incr_Ok.
  - by apply cone_inv_push.
  - by apply cone_inv_next.
Qed.

Lemma index_ok_check net : index_okb net = true → index_ok net.
Proof.
  unfold index_okb, index_ok, has_inputs.
  intros Hall%bool_decide_eq_true s c Hd. specialize (Hall s c Hd). simpl in Hall.
  destruct (cell_inputs_map net !! c) as [[|x inputs]|]; try done. eauto.
Qed.

(** With an index that is [index_ok] no step of the traversal faults. *)
Lemma next_sig_in_dag_from_Err s snt V stack e :
  next_sig_in_dag_from s snt V stack = Err e → ∃ frame, frame ∈ stack ∧ frame = [].
Proof.
  induction stack as [|[|x [|s' rest]] below IH]; simpl; try done.
  - intros _. exists []. split; [apply elem_of_cons; by left|done].
  - intros (frame & Hf & ->)%IH. exists []. split; [apply elem_of_cons; by right|done].
Qed.

Lemma WireIter_incr_no_fault net start yielded it e :
  index_ok net → cone_inv net start yielded it →
  WireIter_incr net it ≠ Err e.
Proof.
  intros Hok Hinv Herr.
  assert (Hnext : next_sig_in_dag it ≠ Err e).
  { intros (frame & Hf & ->)%next_sig_in_dag_from_Err.
    by apply (inv_frames _ _ _ _ Hinv []). }
  unfold WireIter_incr in Herr.
  destruct (sigbit_driver_map net !! sig it) as [drv|] eqn:Hd; [|done].
  destruct (decide (drv ∈ cells_visited it)); [done|].
  destruct (Hok _ _ Hd) as (x & inputs & Hin). by rewrite Hin in Herr.
Qed.

Lemma trace_no_fault net start yielded it l e :
  index_ok net → cone_inv net start yielded it → trace net it l e → e = None.
Proof.
  intros Hok Hinv Htr. revert yielded Hinv.
  induction Htr as [it Hs|it it' l e Hs Hincr Htr IH|it e Hs Hincr];
    intros yielded Hinv; [done| |].
  - eapply IH. by eapply cone_inv_step.
  - by destruct (WireIter_incr_no_fault net start yielded it e).
Qed.

(** Every bit of a run is in the fan-in. *)
Lemma trace_bits_reach net start yielded it l e :
  trace net it l e → cone_inv net start yielded it →
  ∀ s, s ∈ sig <$> l → rtc (feeds net) start s.
Proof.
  intros Htr. revert yielded.
  induction Htr as [it Hs|it it' l e Hs Hincr Htr IH|it e Hs Hincr];
    intros yielded Hinv s; simpl.
  - by intros ?%elem_of_nil.
  - intros [->|Hin]%elem_of_cons; [by apply (inv_reach_sig _ _ _ _ Hinv)|].
    apply (IH (sig it :: yielded)); [|done]. by apply cone_inv_step.
  - intros ->%list_elem_of_singleton. by apply (inv_reach_sig _ _ _ _ Hinv).
Qed.

(** The invariant at the end of a run without fault. *)
Lemma trace_inv_end net start yielded it l :
  trace net it l None → cone_inv net start yielded it →
  ∃ it_end yielded_end,
    cone_inv net start yielded_end it_end ∧ sentinel it_end = true
    ∧ ∀ s, s ∈ yielded_end ↔ s ∈ sig <$> l ∨ s ∈ yielded.
Proof.
  intros Htr. remember None as e eqn:He. revert yielded.
  induction Htr as [it Hs|it it' l e Hs Hincr Htr IH|it e Hs Hincr];
    intros yielded Hinv; [| |done].
  - exists it, yielded. split_and!; [done..|]. intros s. split; [auto|].
    intros [Hn|Hy]; [|done]. by apply elem_of_nil in Hn.
  - destruct (IH He (sig it :: yielded)) as (it_end & yend & Hend & Hsl & Hiff).
    { by eapply cone_inv_step. }
    exists it_end, yend. split_and!; [done..|]. intros s.
    rewrite Hiff, fmap_cons, !elem_of_cons. tauto.
Qed.

Lemma cone_inv_closed net start yielded it :
  cone_inv net start yielded it → sentinel it = true →
  ∀ s, rtc (feeds net) start s ↔ s ∈ yielded.
Proof.
  intros [Hstart Hsig Hyield Hstack Hvis Hpend Hfr Hsnt] Hs.
  destruct (Hsnt Hs) as [Hempty Hlast].
  assert (Hin : ∀ s, s ∈ sig it :: yielded → s ∈ yielded).
  { by intros s [->|Hy]%elem_of_cons. }
  intros s. split; [|by apply Hyield].
  revert s. apply rtc_ind_r; [by apply Hin|].
  intros s1 s2 Hr (c & inputs & Hd & Hci & Hs2) IH.
  destruct (Hpend c inputs s2 (Hvis _ _ IH Hd) Hci Hs2) as [Hl|(frame & Hf & _)];
    [by apply Hin|].
  rewrite Hempty in Hf. by apply elem_of_nil in Hf.
Qed.

(** The bits of a run without fault are the bits of the fan-in. *)
Lemma cone_bits_fanin net b l :
  trace net (WireIter_begin (sigmap net b)) l None →
  ∀ s, s ∈ sig <$> l ↔ fanin_bit net (sigmap net b) s.
Proof.
  intros Htr s.
  destruct (trace_inv_end net (sigmap net b) [] _ l Htr (cone_inv_begin _ _))
    as (it_end & yend & Hend & Hsl & Hiff).
  unfold fanin_bit. rewrite (cone_inv_closed _ _ _ _ Hend Hsl s), Hiff.
  split; [auto|]. intros [Hl|Hn]; [done|]. by apply elem_of_nil in Hn.
Qed.

(** When the loop over [cone(net, b)] reaches [end()], its bits are exactly
    the bits reachable from the canonical start bit by zero or more
    backward steps along a driver. *)
Theorem cone_is_fanin net b :
  (cone net b).2 = None →
  ∀ s, s ∈ (cone net b).1 ↔ fanin_bit net (sigmap net b) s.
Proof.
  destruct (trace_total net (WireIter_begin (sigmap net b))) as (l & e & Htr).
  rewrite (cone_trace _ _ _ _ Htr). cbn [fst snd]. intros ->.
  by apply cone_bits_fanin.
Qed.

(** ** The cell iterator follows the bit iterator *)

Lemma cell_range_for_end fuel net it :
  sentinel it = true → cell_range_for fuel net (mkCellIter it) = ([], None).
Proof.
  intros Hs. destruct fuel; simpl; by rewrite CellIter_neq_end; simpl; rewrite Hs.
Qed.

(** From a bit that is not the end, [operator++] of the cell iterator stops
    on the next bit the bit iterator is about to push a cell for, and the
    loop over the rest yields the cells of the remaining pushes; or it
    stops at the fault of a step of the bit iterator. *)
Lemma CellIter_incr_trace net it' l e :
  trace net it' l e →
  ∀ it fuel,
    sentinel it = false → WireIter_incr net it = Ok it' →
    iter_weight net it ≤ fuel →
    (∃ w, CellIter_incr fuel net (mkCellIter it) = Ok (mkCellIter w)
          ∧ iter_weight net w < iter_weight net it
          ∧ ∀ fuel', iter_weight net w ≤ fuel' →
              cell_range_for fuel' net (mkCellIter w) = (omap (pushes net) l, e))
    ∨ (∃ e', CellIter_incr fuel net (mkCellIter it) = Err e'
             ∧ e = Some e' ∧ omap (pushes net) l = []).
Proof.
  induction 1 as [it' Hs'|it' it'' l e Hs' Hincr' Htr IH|it' e Hs' Hincr'];
    intros it fuel Hs Hincr Hfuel;
    pose proof (WireIter_incr_weight _ _ _ Hs Hincr) as Hlt;
    (destruct fuel as [|fuel]; [lia|]).
  - left. exists it'. simpl. rewrite Hincr, Hs'. split_and!; [done..|].
    intros fuel' _. by apply cell_range_for_end.
  - pose proof (WireIter_incr_weight _ _ _ Hs' Hincr') as Hlt'.
    cbn [CellIter_incr sig_iter omap list_omap].
    rewrite Hincr, Hs'. unfold has_driver_cell.
    destruct (pushes net it') as [drv|] eqn:Hp; unfold pushes in Hp;
      destruct (sigbit_driver_map net !! sig it') as [cell|] eqn:Hd;
      try destruct (decide (cell ∈ cells_visited it')) as [Hv|Hv];
      simplify_eq;
      rewrite ?bool_decide_eq_true_2 by eauto;
      rewrite ?bool_decide_eq_false_2 by (by intros [? ?]).
    + left. exists it'. split_and!; [done..|].
      intros fuel' Hfuel'. destruct fuel' as [|fuel']; [lia|].
      cbn [cell_range_for]. rewrite CellIter_neq_end. cbn [sig_iter].
      rewrite Hs'. cbn [negb]. unfold CellIter_deref. cbn [sig_iter]. rewrite Hd.
      destruct (IH it' (S fuel') Hs' Hincr' Hfuel')
        as [(w & Hw & Hlw & Hrest)|(e' & Hw & -> & Hnil)]; rewrite Hw.
      * by rewrite (Hrest fuel') by lia.
      * by rewrite Hnil.
    + destruct (IH it' fuel Hs' Hincr' ltac:(lia))
        as [(w & Hw & Hlw & Hrest)|(e' & Hw & -> & Hnil)].
      * left. exists w. split_and!; [done|lia|done].
      * right. by exists e'.
    + destruct (IH it' fuel Hs' Hincr' ltac:(lia))
        as [(w & Hw & Hlw & Hrest)|(e' & Hw & -> & Hnil)].
      * left. exists w. split_and!; [done|lia|done].
      * right. by exists e'.
  - pose proof (sentinel_weight net it' Hs') as Hpos.
    cbn [CellIter_incr sig_iter omap list_omap].
    rewrite Hincr, Hs'. unfold has_driver_cell.
    destruct (pushes net it') as [drv|] eqn:Hp; unfold pushes in Hp;
      destruct (sigbit_driver_map net !! sig it') as [cell|] eqn:Hd;
      try destruct (decide (cell ∈ cells_visited it')) as [Hv|Hv];
      simplify_eq;
      rewrite ?bool_decide_eq_true_2 by eauto;
      rewrite ?bool_decide_eq_false_2 by (by intros [? ?]).
    + left. exists it'. split_and!; [done..|].
      intros fuel' Hfuel'. destruct fuel' as [|fuel']; [lia|].
      cbn [cell_range_for]. rewrite CellIter_neq_end. cbn [sig_iter].
      rewrite Hs'. cbn [negb]. unfold CellIter_deref. cbn [sig_iter]. rewrite Hd.
      cbn [CellIter_incr sig_iter]. by rewrite Hincr'.
    + right. exists e. destruct fuel as [|fuel]; [lia|].
      cbn [CellIter_incr sig_iter]. by rewrite Hincr'.
    + right. exists e. destruct fuel as [|fuel]; [lia|].
      cbn [CellIter_incr sig_iter]. by rewrite Hincr'.
Qed.

(** The loop over [cell_cone] yields the cells the loop over [cone]
    pushes, and ends the way it ends. *)
Lemma cell_cone_trace net b l e :
  trace net (WireIter_begin (sigmap net b)) l e →
  cell_cone net b = (omap (pushes net) l, e).
Proof.
  intros Htr.
  pose proof (begin_weight net (sigmap net b)) as Hw0.
  set (it0 := WireIter_begin (CellPtr:=CellPtr) (sigmap net b)) in *.
  assert (Hbegin : CellIter_begin (cone_fuel net) net (sigmap net b)
                   = match pushes net it0 with
                     | Some _ => Ok (mkCellIter it0)
                     | None => CellIter_incr (cone_fuel net) net (mkCellIter it0)
                     end).
  { unfold CellIter_begin, has_driver_cell, pushes. subst it0.
    cbn [sig_iter WireIter_begin sentinel sig cells_visited negb andb].
    destruct (sigbit_driver_map net !! sigmap net b) as [cell|] eqn:Hd.
    - rewrite bool_decide_eq_true_2 by eauto.
      by rewrite decide_False by apply not_elem_of_empty.
    - by rewrite bool_decide_eq_false_2 by (by intros [? ?]). }
  assert (Hderef : ∀ cell, pushes net it0 = Some cell →
            CellIter_deref net (mkCellIter it0) = Ok cell).
  { unfold pushes, CellIter_deref. cbn [sig_iter]. intros cell.
    destruct (sigbit_driver_map net !! sig it0) as [drv|]; [|done].
    destruct (decide (drv ∈ cells_visited it0)); congruence. }
  assert (Hloop : ∀ cell, pushes net it0 = Some cell →
            cell_range_for (cone_fuel net) net (mkCellIter it0)
            = match CellIter_incr (cone_fuel net) net (mkCellIter it0) with
              | Ok ci' =>
                  let r := cell_range_for (unvisited_weight net ∅) net ci' in
                  (cell :: r.1, r.2)
              | Err e' => ([cell], Some e')
              end).
  { intros cell Hp. unfold cone_fuel at 1. cbn [cell_range_for].
    rewrite CellIter_neq_end, (Hderef _ Hp). by subst it0. }
  unfold cell_cone. rewrite Hbegin.
  inversion Htr as [|? it1 l' e0 Hs Hincr Htr'|? e0 Hs Hincr]; subst; [done| |].
  - cbn [omap list_omap].
    destruct (CellIter_incr_trace net it1 l' e Htr' _ (cone_fuel net) Hs Hincr)
      as [(w & Hw & Hlw & Hrest)|(e' & Hw & -> & Hnil)]; [lia| |];
      destruct (pushes net it0) as [cell|] eqn:Hp.
    + rewrite (Hloop _ eq_refl), Hw. cbn zeta.
      rewrite Hrest; [done|]. unfold cone_fuel in *. lia.
    + rewrite Hw. apply Hrest. lia.
    + rewrite (Hloop _ eq_refl), Hw. by rewrite Hnil.
    + rewrite Hw. by rewrite Hnil.
  - cbn [omap list_omap].
    assert (Hfail : CellIter_incr (cone_fuel net) net (mkCellIter it0) = Err e0).
    { unfold cone_fuel. cbn [CellIter_incr sig_iter]. by rewrite Hincr. }
    destruct (pushes net it0) as [cell|] eqn:Hp.
    + by rewrite (Hloop _ eq_refl), Hfail.
    + by rewrite Hfail.
Qed.

(** ** First occurrences *)

Lemma first_occurrences_spec (seen : gset CellPtr) (l : list CellPtr) :
  NoDup (first_occurrences seen l)
  ∧ ∀ c, c ∈ first_occurrences seen l ↔ c ∈ l ∧ c ∉ seen.
Proof.
  revert seen. induction l as [|a l IH]; intros seen; simpl.
  - split; [constructor|]. intros c. split; [|by intros [?%elem_of_nil _]].
    by intros ?%elem_of_nil.
  - destruct (decide (a ∈ seen)) as [Ha|Ha].
    + destruct (IH seen) as [Hnd Hiff]. split; [done|]. intros c.
      rewrite Hiff, elem_of_cons. split; [tauto|].
      intros [[->|Hc] Hns]; [done|tauto].
    + destruct (IH ({[a]} ∪ seen)) as [Hnd Hiff]. split.
      * constructor; [|done]. rewrite Hiff. intros [_ Hn]. apply Hn.
        apply elem_of_union. left. by apply elem_of_singleton.
      * intros c. rewrite !elem_of_cons, Hiff, elem_of_union, elem_of_singleton.
        destruct (decide (c = a)) as [->|Hne]; tauto.
Qed.

Lemma trace_pushes_first_occurrences net it l e :
  trace net it l e →
  omap (pushes net) l
  = first_occurrences (cells_visited it) (drivers_of net (sig <$> l)).
Proof.
  unfold drivers_of.
  induction 1 as [it Hs|it it' l e Hs Hincr Htr IH|it e Hs Hincr];
    [done| |]; cbn [fmap list_fmap omap list_omap]; unfold pushes at 1.
  - apply WireIter_incr_Ok in Hincr
      as [(drv & x & inputs & _ & Hd & Hfresh & _ & ->)|[Hp Hnext]].
    + rewrite Hd. simpl. destruct (decide (drv ∈ cells_visited it)); [done|].
      by rewrite IH.
    + assert (cells_visited it' = cells_visited it) as Hv.
      { unfold next_sig_in_dag in Hnext.
        by apply next_sig_in_dag_from_Ok in Hnext as [[-> _]|(?&?&?&?&?&_&_&->)]. }
      rewrite IH, Hv. unfold pushes in Hp.
      destruct (sigbit_driver_map net !! sig it) as [drv|]; [|done].
      simpl. by destruct (decide (drv ∈ cells_visited it)).
  - destruct (sigbit_driver_map net !! sig it) as [drv|]; [|done].
    simpl. by destruct (decide (drv ∈ cells_visited it)).
Qed.

Lemma elem_of_drivers_of net (bits : list SigBit) c :
  c ∈ drivers_of net bits ↔ ∃ s, s ∈ bits ∧ sigbit_driver_map net !! s = Some c.
Proof. unfold drivers_of. by rewrite list_elem_of_omap. Qed.

(** ** The cells of a cone *)

(** [cell_cone(net, b)] yields each cell once, in the order in which
    the bits of [cone(net, b)] first meet a bit driven by the cell; every
    cell it yields drives a bit of the transitive fan-in of the canonical
    start bit; and when the run reaches [end()], as it does on every index
    in which each driving cell has a recorded, non-empty input set, it
    yields all of them. *)
Theorem cell_cone_is_fanin net b :
  ∃ cells e,
    cell_cone net b = (cells, e)
    ∧ e = (cone net b).2
    ∧ NoDup cells
    ∧ cells = first_occurrences ∅ (drivers_of net (cone net b).1)
    ∧ (∀ c, c ∈ cells → fanin_cell net (sigmap net b) c)
    ∧ (e = None → ∀ c, fanin_cell net (sigmap net b) c → c ∈ cells)
    ∧ (index_ok net → e = None).
Proof.
  destruct (trace_total net (WireIter_begin (sigmap net b))) as (l & e & Htr).
  pose proof (trace_pushes_first_occurrences _ _ _ _ Htr) as Hfirst.
  cbn [WireIter_begin cells_visited] in Hfirst.
  destruct (first_occurrences_spec ∅ (drivers_of net (sig <$> l))) as [Hnd Hiff].
  exists (omap (pushes net) l), e. rewrite (cone_trace _ _ _ _ Htr). cbn [fst snd].
  split_and!.
  - by apply cell_cone_trace.
  - done.
  - by rewrite Hfirst.
  - done.
  - intros c. rewrite Hfirst, Hiff, elem_of_drivers_of.
    intros [(s & Hs & Hd) _]. exists s. split; [|done].
    by apply (trace_bits_reach net _ [] _ l e Htr (cone_inv_begin _ _)).
  - intros -> c (s & Hs & Hd). rewrite Hfirst, Hiff, elem_of_drivers_of.
    split; [|apply not_elem_of_empty].
    exists s. split; [|done]. by apply (cone_bits_fanin net b l Htr).
  - intros Hok. eapply trace_no_fault; [done|apply cone_inv_begin|done].
Qed.

(** ** Termination and cycles *)

Lemma cone_loop_trace net (A B : CellPtr) (bitX bitY : SigBit) :
  A ≠ B →
  sigbit_driver_map net !! bitX = Some A →
  cell_inputs_map net !! A = Some [bitY] →
  sigbit_driver_map net !! bitY = Some B →
  cell_inputs_map net !! B = Some [bitX] →
  trace net (WireIter_begin bitX)
    [ WireIter_begin bitX;
      mkWireIter bitY false [[bitY]] ({[A]} ∪ ∅);
      mkWireIter bitX false [[bitX]; [bitY]] ({[B]} ∪ ({[A]} ∪ ∅)) ]
    None.
Proof.
  intros Hne HdX HiA HdY HiB.
  assert (HB : B ∉ ({[A]} ∪ ∅ : gset CellPtr)).
  { intros [HBA%elem_of_singleton|HBe%not_elem_of_empty]%elem_of_union; congruence. }
  assert (HA : A ∈ ({[B]} ∪ ({[A]} ∪ ∅) : gset CellPtr)).
  { apply elem_of_union. right. apply elem_of_union. left.
    by apply elem_of_singleton. }
  apply (trace_step net _ (mkWireIter bitY false [[bitY]] ({[A]} ∪ ∅))); [done| |].
  { unfold WireIter_incr. cbn [WireIter_begin sig cells_visited sentinel dfs_path_stack].
    rewrite HdX, HiA. by rewrite decide_False by apply not_elem_of_empty. }
  apply (trace_step net _
           (mkWireIter bitX false [[bitX]; [bitY]] ({[B]} ∪ ({[A]} ∪ ∅)))); [done| |].
  { unfold WireIter_incr. cbn [sig cells_visited sentinel dfs_path_stack].
    rewrite HdY, HiB. by rewrite decide_False by done. }
  apply (trace_step net _ (mkWireIter bitX true [] ({[B]} ∪ ({[A]} ∪ ∅)))); [done| |].
  { unfold WireIter_incr. cbn [sig cells_visited sentinel dfs_path_stack].
    rewrite HdX. by rewrite decide_True by done. }
  by apply trace_end.
Qed.

(** For every index and start bit, cyclic or not, the traversal of
    [cone] stops after at most [cone_fuel net] bits (at [end()] when the
    index is [index_ok], otherwise possibly at the fault of a step) and
    gives the same result with any larger budget; no cell has its input set
    pushed twice; and in a two-cell loop [A -> bitX -> B -> bitY -> A] the
    traversal from [bitX] reaches [end()], includes [bitY] and pushes [A]
    then [B], each once. *)
Theorem cone_terminates_on_cycles net b :
  (∃ bits e,
      cone net b = (bits, e) ∧ e ≠ Some OutOfFuel
      ∧ length bits ≤ cone_fuel net
      ∧ (index_ok net → e = None)
      ∧ ∀ fuel, cone_fuel net ≤ fuel →
          wire_range_for fuel net (WireIter_begin (sigmap net b)) = (bits, e))
  ∧ NoDup (cone_pushes net b)
  ∧ ∀ (A B : CellPtr) (bitX bitY : SigBit),
      A ≠ B → sigmap net bitX = bitX →
      sigbit_driver_map net !! bitX = Some A →
      cell_inputs_map net !! A = Some [bitY] →
      sigbit_driver_map net !! bitY = Some B →
      cell_inputs_map net !! B = Some [bitX] →
      cone net bitX = ([bitX; bitY; bitX], None)
      ∧ bitY ∈ (cone net bitX).1
      ∧ cone_pushes net bitX = [A; B].
Proof.
  destruct (trace_total net (WireIter_begin (sigmap net b))) as (l & e & Htr).
  split_and!.
  - exists (sig <$> l), e. split_and!.
    + by apply cone_trace.
    + by eapply trace_no_fuel.
    + pose proof (wire_range_for_length (cone_fuel net) net
                    (WireIter_begin (sigmap net b))) as Hlen.
      fold (cone net b) in Hlen. by rewrite (cone_trace _ _ _ _ Htr) in Hlen.
    + intros Hok. eapply trace_no_fault; [done|apply cone_inv_begin|done].
    + intros fuel Hfuel. apply wire_range_for_trace; [done|].
      by rewrite begin_weight.
  - unfold cone_pushes. rewrite (cone_states_trace _ _ _ _ Htr).
    by apply (trace_pushes_fresh _ _ _ _ Htr).
  - intros A B bitX bitY Hne Hcanon HdX HiA HdY HiB.
    pose proof (cone_loop_trace net A B bitX bitY Hne HdX HiA HdY HiB) as Hloop.
    rewrite <- Hcanon in Hloop at 1.
    assert (Hcone : cone net bitX = ([bitX; bitY; bitX], None)).
    { by rewrite (cone_trace _ _ _ _ Hloop). }
    split_and!; [done| |].
    + rewrite Hcone. simpl. apply elem_of_cons. right. apply elem_of_cons. by left.
    + unfold cone_pushes. rewrite (cone_states_trace _ _ _ _ Hloop).
      cbn [fst omap list_omap]. unfold pushes.
      cbn [WireIter_begin sig cells_visited].
      rewrite HdX, HdY.
      rewrite (decide_False (P := A ∈ (∅ : gset CellPtr))) by apply not_elem_of_empty.
      rewrite (decide_False (P := B ∈ ({[A]} ∪ ∅ : gset CellPtr))).
      2:{ intros [HBA%elem_of_singleton|HBe%not_elem_of_empty]%elem_of_union;
          congruence. }
      rewrite (decide_True (P := A ∈ ({[B]} ∪ ({[A]} ∪ ∅) : gset CellPtr))); [done|].
      apply elem_of_union. right. apply elem_of_union. left.
      by apply elem_of_singleton.
Qed.

(** ** Two gates in a row *)

Lemma two_and_trace net (c1 c2 : CellPtr) (in0 in1 in2 w1 out x1 x2 y1 y2 : SigBit) :
  c1 ≠ c2 →
  sigbit_driver_map net !! out = Some c2 →
  sigbit_driver_map net !! w1 = Some c1 →
  sigbit_driver_map net !! in0 = None →
  sigbit_driver_map net !! in1 = None →
  sigbit_driver_map net !! in2 = None →
  cell_inputs_map net !! c2 = Some [x1; x2] →
  cell_inputs_map net !! c1 = Some [y1; y2] →
  (x1 = w1 ∧ x2 = in2 ∨ x1 = in2 ∧ x2 = w1) →
  (y1 = in0 ∧ y2 = in1 ∨ y1 = in1 ∧ y2 = in0) →
  ∃ l, trace net (WireIter_begin out) l None
       ∧ omap (pushes net) l = [c2; c1]
       ∧ (sig <$> l = [out; w1; y1; y2; in2] ∨ sig <$> l = [out; in2; w1; y1; y2]).
Proof.
  intros Hne Hout Hw1 Hin0 Hin1 Hin2 Hc2 Hc1 Hx Hy.
  assert (sigbit_driver_map net !! y1 = None ∧ sigbit_driver_map net !! y2 = None)
    as [Hy1 Hy2] by (destruct Hy as [[-> ->]|[-> ->]]; done).
  destruct Hx as [[-> ->]|[-> ->]].
  - eexists. split; [trace_run|]. split; [|by left].
    cbn [omap list_omap]. by incr_lookup.
  - eexists. split; [trace_run|]. split; [|by right].
    cbn [omap list_omap]. by incr_lookup.
Qed.

(** C8, as the code has it: with [c1 = AND(in0, in1) -> w1] and
    [c2 = AND(w1, in2) -> out], whichever way [operator<] orders the two
    inputs of each cell, [cone(net, out)] yields [out] first and then
    [w1], [in2], [in0], [in1], each once, [w1] before [in0] and [in1];
    [cell_cone(net, out)] yields [c2] and then [c1]. *)
Theorem two_and_cones net (c1 c2 : CellPtr) (in0 in1 in2 w1 out : SigBit) :
  c1 ≠ c2 → sigmap net out = out →
  sigbit_driver_map net !! out = Some c2 →
  sigbit_driver_map net !! w1 = Some c1 →
  sigbit_driver_map net !! in0 = None →
  sigbit_driver_map net !! in1 = None →
  sigbit_driver_map net !! in2 = None →
  (cell_inputs_map net !! c2 = Some [w1; in2]
   ∨ cell_inputs_map net !! c2 = Some [in2; w1]) →
  (cell_inputs_map net !! c1 = Some [in0; in1]
   ∨ cell_inputs_map net !! c1 = Some [in1; in0]) →
  ∃ bits,
    cone net out = (bits, None)
    ∧ bits ≡ₚ [out; w1; in2; in0; in1]
    ∧ head bits = Some out
    ∧ (∃ before after, bits = before ++ w1 :: after ∧ in0 ∈ after ∧ in1 ∈ after)
    ∧ cell_cone net out = ([c2; c1], None).
Proof.
  intros Hne Hcanon Hout Hw1 Hin0 Hin1 Hin2 Hc2 Hc1.
  assert (∃ x1 x2 y1 y2,
    cell_inputs_map net !! c2 = Some [x1; x2]
    ∧ cell_inputs_map net !! c1 = Some [y1; y2]
    ∧ (x1 = w1 ∧ x2 = in2 ∨ x1 = in2 ∧ x2 = w1)
    ∧ (y1 = in0 ∧ y2 = in1 ∨ y1 = in1 ∧ y2 = in0))
    as (x1 & x2 & y1 & y2 & Hc2' & Hc1' & Hx & Hy).
  { destruct Hc2 as [Hc2|Hc2], Hc1 as [Hc1|Hc1];
      do 4 eexists; (split; [exact Hc2|]); (split; [exact Hc1|]); tauto. }
  destruct (two_and_trace net c1 c2 in0 in1 in2 w1 out x1 x2 y1 y2)
    as (l & Htr & Hpush & Hbits); try done.
  rewrite <- Hcanon in Htr at 1.
  exists (sig <$> l).
  rewrite (cone_trace _ _ _ _ Htr), (cell_cone_trace _ _ _ _ Htr), Hpush.
  split_and!; [done| | | |done].
  - destruct Hbits as [->| ->], Hy as [[-> ->]|[-> ->]]; solve_Permutation.
  - by destruct Hbits as [->| ->].
  - destruct Hbits as [->| ->].
    + exists [out], [y1; y2; in2].
      split; [done|]. rewrite !elem_of_cons.
      destruct Hy as [[-> ->]|[-> ->]]; tauto.
    + exists [out; in2], [y1; y2].
      split; [done|]. rewrite !elem_of_cons.
      destruct Hy as [[-> ->]|[-> ->]]; tauto.
Qed.

End ConeFacts.

(** * Construction of the index *)

Section SetupFacts.
Context {SigBit CellPtr IdString : Type}.
Context `{Countable SigBit, Countable CellPtr}.
Variable SigBit_lt : SigBit → SigBit → bool.

Abbreviation Netlist' := (@Netlist SigBit CellPtr IdString _ _ _ _).
Abbreviation Cell' := (@Cell SigBit CellPtr IdString).
Abbreviation CellTypes' := (@CellTypes IdString).
Implicit Types (net : Netlist') (cell : Cell') (ct : CellTypes').
Implicit Types (sm : SigBit → SigBit) (s : list SigBit) (b x y : SigBit).

(** ** Sets of bits *)

Lemma elem_of_set_insert_inv x y s :
  y ∈ set_insert SigBit_lt x s → y = x ∨ y ∈ s.
Proof.
  induction s as [|z s IH]; simpl.
  - intros ->%list_elem_of_singleton. by left.
  - destruct (SigBit_lt x z); [|destruct (SigBit_lt z x)].
    + intros [->|Hy]%elem_of_cons; auto.
    + intros [->|Hy]%elem_of_cons.
      * right. apply elem_of_cons. by left.
      * destruct (IH Hy) as [->|Hs]; [by left|].
        right. apply elem_of_cons. by right.
    + auto.
Qed.

Lemma elem_of_set_insert_old x y s :
  y ∈ s → y ∈ set_insert SigBit_lt x s.
Proof.
  induction s as [|z s IH]; simpl; [by intros ?%elem_of_nil|].
  destruct (SigBit_lt x z); [|destruct (SigBit_lt z x)].
  - intros Hy. apply elem_of_cons. by right.
  - intros [->|Hy]%elem_of_cons; apply elem_of_cons; auto.
  - done.
Qed.

Lemma elem_of_set_insert_range_inv (bits : list SigBit) s y :
  y ∈ set_insert_range SigBit_lt bits s → y ∈ bits ∨ y ∈ s.
Proof.
  unfold set_insert_range. revert s.
  induction bits as [|b bits IH]; intros s; simpl; [by right|].
  intros [Hy|[->|Hy]%elem_of_set_insert_inv]%IH.
  - left. apply elem_of_cons. by right.
  - left. apply elem_of_cons. by left.
  - by right.
Qed.

Lemma elem_of_set_insert_range_old (bits : list SigBit) s y :
  y ∈ s → y ∈ set_insert_range SigBit_lt bits s.
Proof.
  unfold set_insert_range. revert s.
  induction bits as [|b bits IH]; intros s; simpl; [done|].
  intros Hy. by apply IH, elem_of_set_insert_old.
Qed.

(** [operator<] is a strict total order: two bits neither of which is below
    the other are the same bit. *)
Hypothesis SigBit_lt_total :
  ∀ x y, SigBit_lt x y = false → SigBit_lt y x = false → x = y.

Lemma elem_of_set_insert_new x s : x ∈ set_insert SigBit_lt x s.
Proof.
  induction s as [|z s IH]; simpl; [apply elem_of_cons; by left|].
  destruct (SigBit_lt x z) eqn:Hxz; [apply elem_of_cons; by left|].
  destruct (SigBit_lt z x) eqn:Hzx; [apply elem_of_cons; by right|].
  rewrite (SigBit_lt_total x z Hxz Hzx). apply elem_of_cons. by left.
Qed.

Lemma elem_of_set_insert_range_new (bits : list SigBit) s y :
  y ∈ bits → y ∈ set_insert_range SigBit_lt bits s.
Proof.
  unfold set_insert_range. revert s.
  induction bits as [|b bits IH]; intros s; simpl; [by intros ?%elem_of_nil|].
  intros [->|Hy]%elem_of_cons; [|by apply IH].
  apply (elem_of_set_insert_range_old bits), elem_of_set_insert_new.
Qed.

(** ** The ports of one cell *)

Lemma sort_ports_outputs_inv ct sm (ty : IdString)
    (ports : list (IdString * list SigBit)) (acc : list SigBit * list SigBit) b :
  b ∈ (fold_left (sort_port SigBit_lt ct sm ty) ports acc).2 →
  b ∈ acc.2
  ∨ ∃ port spec bit, (port, spec) ∈ ports ∧ cell_output ct ty port = true
                     ∧ bit ∈ spec ∧ b = sm bit.
Proof.
  revert acc. induction ports as [|[port spec] ports IH]; intros acc; simpl; [by left|].
  intros [Hb|(port' & spec' & bit & Hin & Hout & Hbit & ->)]%IH.
  - unfold sort_port in Hb. simpl in Hb.
    destruct (cell_output ct ty port) eqn:Hout; simpl in Hb; [|by left].
    apply elem_of_set_insert_range_inv in Hb as [Hb|Hb]; [|by left].
    apply list_elem_of_fmap in Hb as (bit & -> & Hbit).
    right. exists port, spec, bit. split_and!; try done.
    apply elem_of_cons. by left.
  - right. exists port', spec', bit. split_and!; try done.
    apply elem_of_cons. by right.
Qed.

Lemma sort_ports_outputs ct sm (ty : IdString)
    (ports : list (IdString * list SigBit)) (acc : list SigBit * list SigBit) b :
  b ∈ acc.2
  ∨ (∃ port spec bit, (port, spec) ∈ ports ∧ cell_output ct ty port = true
                      ∧ bit ∈ spec ∧ b = sm bit) →
  b ∈ (fold_left (sort_port SigBit_lt ct sm ty) ports acc).2.
Proof.
  revert acc. induction ports as [|[port spec] ports IH]; intros acc; simpl.
  - intros [Hb|(port & spec & bit & Hin & _)]; [done|].
    by apply elem_of_nil in Hin.
  - intros [Hb|(port' & spec' & bit & Hin & Hout & Hbit & ->)]; apply IH.
    + left. unfold sort_port. simpl.
      destruct (cell_output ct ty port); simpl; [|done].
      by apply elem_of_set_insert_range_old.
    + apply elem_of_cons in Hin as [[= -> ->]|Hin].
      * left. unfold sort_port. simpl. rewrite Hout. simpl.
        apply elem_of_set_insert_range_new, list_elem_of_fmap. eauto.
      * right. exists port', spec', bit. by split_and!.
Qed.

Lemma cell_ports_outputs ct sm cell b :
  b ∈ (cell_ports SigBit_lt ct sm cell).2 ↔ drives ct sm cell b.
Proof.
  unfold cell_ports, drives. split.
  - intros [Hb|Hex]%sort_ports_outputs_inv; [|done].
    by apply elem_of_nil in Hb.
  - intros Hex. apply sort_ports_outputs. by right.
Qed.

(** ** One cell of the module *)

Lemma set_drivers_lookup (outs : list SigBit) c net b :
  sigbit_driver_map (fold_left (λ n bit, set_sigbit_driver n bit c) outs net) !! b
  = if decide (b ∈ outs) then Some c else sigbit_driver_map net !! b.
Proof.
  revert net. induction outs as [|o outs IH]; intros net; cbn [fold_left].
  - by rewrite decide_False by apply not_elem_of_nil.
  - rewrite IH. cbn [set_sigbit_driver sigbit_driver_map].
    destruct (decide (b ∈ outs)) as [Hin|Hin].
    + rewrite decide_True; [done|]. apply elem_of_cons. by right.
    + destruct (decide (b = o)) as [->|Hne].
      * rewrite lookup_insert_eq, decide_True; [done|]. apply elem_of_cons. by left.
      * rewrite lookup_insert_ne by done. rewrite decide_False; [done|].
        by intros [?|?]%elem_of_cons.
Qed.

Lemma set_drivers_others (outs : list SigBit) c net :
  cell_inputs_map (fold_left (λ n bit, set_sigbit_driver n bit c) outs net)
  = cell_inputs_map net
  ∧ sigmap (fold_left (λ n bit, set_sigbit_driver n bit c) outs net) = sigmap net.
Proof.
  revert net. induction outs as [|o outs IH]; intros net; simpl; [done|].
  by destruct (IH (set_sigbit_driver net o c)) as [-> ->].
Qed.

Lemma setup_cell_sigmap ct net cell :
  sigmap (setup_cell SigBit_lt ct net cell) = sigmap net.
Proof.
  unfold setup_cell. destruct (cell_known ct (type cell)); [|done].
  by rewrite (proj2 (set_drivers_others _ _ _)).
Qed.

Lemma setup_cell_driver ct net cell b :
  sigbit_driver_map (setup_cell SigBit_lt ct net cell) !! b
  = if cell_known ct (type cell)
    then if decide (b ∈ (cell_ports SigBit_lt ct (sigmap net) cell).2)
         then Some (self cell) else sigbit_driver_map net !! b
    else sigbit_driver_map net !! b.
Proof.
  unfold setup_cell. destruct (cell_known ct (type cell)); [|done].
  by rewrite set_drivers_lookup.
Qed.

Lemma setup_cell_inputs ct net cell :
  cell_inputs_map (setup_cell SigBit_lt ct net cell)
  = if cell_known ct (type cell)
    then <[self cell := (cell_ports SigBit_lt ct (sigmap net) cell).1]> (cell_inputs_map net)
    else cell_inputs_map net.
Proof.
  unfold setup_cell. destruct (cell_known ct (type cell)); [|done].
  by rewrite (proj1 (set_drivers_others _ _ _)).
Qed.

(** ** All cells of the module *)

Lemma setup_cells_sigmap ct (l : list Cell') net :
  sigmap (fold_left (setup_cell SigBit_lt ct) l net) = sigmap net.
Proof.
  revert net. induction l as [|cell l IH]; intros net; simpl; [done|].
  by rewrite IH, setup_cell_sigmap.
Qed.

Lemma setup_cells_driver_inv ct (l : list Cell') net b c :
  sigbit_driver_map (fold_left (setup_cell SigBit_lt ct) l net) !! b = Some c →
  sigbit_driver_map net !! b = Some c
  ∨ ∃ cell, cell ∈ l ∧ self cell = c ∧ cell_known ct (type cell) = true
            ∧ drives ct (sigmap net) cell b.
Proof.
  revert net. induction l as [|cell l IH]; intros net; simpl; [by left|].
  intros [Hd|(cell' & Hin & Hself & Hk & Hdr)]%IH.
  - rewrite setup_cell_driver in Hd.
    destruct (cell_known ct (type cell)) eqn:Hk; [|by left].
    destruct (decide (b ∈ (cell_ports SigBit_lt ct (sigmap net) cell).2))
      as [Hb|Hb]; [|by left].
    right. exists cell. split_and!; [apply elem_of_cons; by left|congruence|done|].
    by apply cell_ports_outputs.
  - right. exists cell'. rewrite setup_cell_sigmap in Hdr.
    split_and!; [apply elem_of_cons; by right|done..].
Qed.

Lemma setup_cells_inputs_inv ct (l : list Cell') net c :
  is_Some (cell_inputs_map (fold_left (setup_cell SigBit_lt ct) l net) !! c) →
  is_Some (cell_inputs_map net !! c)
  ∨ ∃ cell, cell ∈ l ∧ self cell = c ∧ cell_known ct (type cell) = true.
Proof.
  revert net. induction l as [|cell l IH]; intros net; simpl; [by left|].
  intros [Hi|(cell' & Hin & Hself & Hk)]%IH.
  - rewrite setup_cell_inputs in Hi.
    destruct (cell_known ct (type cell)) eqn:Hk; [|by left].
    destruct (decide (self cell = c)) as [Heq|Hne].
    + right. exists cell. split_and!; [apply elem_of_cons; by left|done..].
    + left. by rewrite lookup_insert_ne in Hi.
  - right. exists cell'. split_and!; [apply elem_of_cons; by right|done..].
Qed.

Lemma setup_cells_driver_keep ct (l : list Cell') net b :
  (∀ cell, cell ∈ l → cell_known ct (type cell) = true →
           ¬ drives ct (sigmap net) cell b) →
  sigbit_driver_map (fold_left (setup_cell SigBit_lt ct) l net) !! b
  = sigbit_driver_map net !! b.
Proof.
  revert net. induction l as [|cell l IH]; intros net Hnone; simpl; [done|].
  rewrite IH.
  - rewrite setup_cell_driver.
    destruct (cell_known ct (type cell)) eqn:Hk; [|done].
    destruct (decide (b ∈ (cell_ports SigBit_lt ct (sigmap net) cell).2))
      as [Hb|Hb]; [|done].
    exfalso. apply (Hnone cell); [apply elem_of_cons; by left|done|].
    by apply cell_ports_outputs.
  - intros cell' Hin Hk. rewrite setup_cell_sigmap.
    apply Hnone; [apply elem_of_cons; by right|done].
Qed.

(** C5: in the index that the constructor builds, every key of
    [sigbit_driver_map] is the canonical form of a bit on an output port of
    a cell of the module that the oracle knows, mapped to that cell; every
    key of [cell_inputs_map] is such a cell; and a bit driven by several
    known cells is mapped to the one that comes last in [module->cells()]. *)
Theorem setup_netlist_invariants (m : @Module SigBit CellPtr IdString) sm ct :
  let net := Netlist_new SigBit_lt m sm ct in
  (∀ b c, sigbit_driver_map net !! b = Some c →
     ∃ cell, cell ∈ cells m ∧ self cell = c
             ∧ cell_known ct (type cell) = true ∧ drives ct sm cell b)
  ∧ (∀ c, is_Some (cell_inputs_map net !! c) →
       ∃ cell, cell ∈ cells m ∧ self cell = c ∧ cell_known ct (type cell) = true)
  ∧ (∀ before cell after b,
       cells m = before ++ cell :: after →
       cell_known ct (type cell) = true → drives ct sm cell b →
       (∀ cell', cell' ∈ after → cell_known ct (type cell') = true →
                 ¬ drives ct sm cell' b) →
       sigbit_driver_map net !! b = Some (self cell)).
Proof.
  unfold Netlist_new, setup_netlist. cbn zeta. split_and!.
  - intros b c [Hd|Hex]%setup_cells_driver_inv; [|done].
    simpl in Hd. by rewrite lookup_empty in Hd.
  - intros c [Hi|Hex]%setup_cells_inputs_inv; [|done].
    simpl in Hi. rewrite lookup_empty in Hi. by destruct Hi.
  - intros before cell after b -> Hk Hdr Hlast.
    rewrite fold_left_app. simpl. rewrite setup_cells_driver_keep.
    + rewrite setup_cell_driver, Hk, setup_cells_sigmap. simpl.
      rewrite decide_True; [done|]. by apply cell_ports_outputs.
    + intros cell' Hin Hk'. rewrite setup_cell_sigmap, setup_cells_sigmap.
      by apply Hlast.
Qed.

End SetupFacts.

(** * The concrete netlists *)

Lemma string_ltb_total (x y : string) :
  String.ltb x y = false → String.ltb y x = false → x = y.
Proof.
  unfold String.ltb. rewrite (String.compare_antisym y x).
  destruct (String.compare x y) eqn:Hc; simpl; try done.
  intros _ _. by apply String.compare_eq_iff.
Qed.

Lemma ex_sigmap_idem (x : string) : ex_sigmap (ex_sigmap x) = ex_sigmap x.
Proof.
  unfold ex_sigmap. destruct (bool_decide (x = "alias"%string)) eqn:Hx; [done|].
  by rewrite Hx.
Qed.

(** The two-cell loop built by [setup_netlist]. *)
Lemma cone_terminates_on_cycles_witness :
  cone ex_loop_net "bitX" = (["bitX"; "bitY"; "bitX"]%string, None)
  ∧ "bitY"%string ∈ (cone ex_loop_net "bitX").1
  ∧ cone_pushes ex_loop_net "bitX" = ["A"; "B"]%string.
Proof.
  apply (proj2 (proj2 (cone_terminates_on_cycles ex_loop_net "bitX"))
           "A"%string "B"%string "bitX"%string "bitY"%string);
    [done|vm_compute; reflexivity..].
Defined.

(** C2 as stated fails: the start bit is the first bit that
    [cone(net, out)] yields on the two gates in a row. *)
Lemma cone_never_yields_start_bit_counterexample :
  cone ex_and_net "out" = (["out"; "in2"; "w1"; "in0"; "in1"]%string, None)
  ∧ "out"%string ∈ (cone ex_and_net "out").1.
Proof.
  assert (cone ex_and_net "out" = (["out"; "in2"; "w1"; "in0"; "in1"]%string, None))
    as Hcone by (vm_compute; reflexivity).
  split; [done|]. rewrite Hcone. apply elem_of_cons. by left.
Qed.

(** The cells of the cone of [out] on the two gates in a row. *)
Lemma cell_cone_is_fanin_witness :
  ∃ cells e,
    cell_cone ex_and_net "out" = (cells, e)
    ∧ e = (cone ex_and_net "out").2
    ∧ NoDup cells
    ∧ cells = first_occurrences ∅ (drivers_of ex_and_net (cone ex_and_net "out").1)
    ∧ (∀ c, c ∈ cells → fanin_cell ex_and_net (sigmap ex_and_net "out") c)
    ∧ (e = None → ∀ c, fanin_cell ex_and_net (sigmap ex_and_net "out") c → c ∈ cells)
    ∧ (index_ok ex_and_net → e = None).
Proof. exact (cell_cone_is_fanin ex_and_net "out"%string). Defined.

(** The two gates in a row form an index that is [index_ok]. *)
Lemma ex_and_net_ok : index_ok ex_and_net.
Proof. apply index_ok_check. vm_compute. reflexivity. Qed.

Lemma cone_is_fanin_witness :
  (cone ex_and_net "out").2 = None
  ∧ ∀ s, s ∈ (cone ex_and_net "out").1 ↔ fanin_bit ex_and_net (sigmap ex_and_net "out") s.
Proof.
  assert ((cone ex_and_net "out").2 = None) as Hend by (vm_compute; reflexivity).
  split; [done|]. exact (cone_is_fanin ex_and_net "out"%string Hend).
Defined.

(** C4 as stated fails: [in0] has no driver and its cone is not empty. *)
Lemma cone_undriven_bit_empty_counterexample :
  sigbit_driver_map ex_and_net !! sigmap ex_and_net "in0" = None
  ∧ cone ex_and_net "in0" = (["in0"%string], None)
  ∧ (cone ex_and_net "in0").1 ≠ [].
Proof. split_and!; [vm_compute; reflexivity..|by vm_compute]. Qed.

Lemma cone_undriven_bit_witness :
  sigbit_driver_map ex_and_net !! sigmap ex_and_net "in0" = None
  ∧ cone ex_and_net "in0" = ([sigmap ex_and_net "in0"], None).
Proof.
  assert (sigbit_driver_map ex_and_net !! sigmap ex_and_net "in0" = None) as Hnone
    by (vm_compute; reflexivity).
  split; [done|]. exact (cone_undriven_bit ex_and_net "in0"%string Hnone).
Defined.

(** C5 on two cells that drive the same bit [z]: the later one, [d2],
    is the driver on record. *)
Lemma setup_netlist_invariants_witness :
  sigbit_driver_map ex_multi_net !! "z"%string = Some "d2"%string.
Proof.
  apply (proj2 (proj2 (setup_netlist_invariants String.ltb string_ltb_total
                         ex_multi_module id ex_ct))
           [ex_cell "d1" "$not" [("A", ["a"]); ("Y", ["z"])]]%string
           (ex_cell "d2" "$not" [("A", ["b"]); ("Y", ["z"])])%string
           [ex_cell "u" "$dff" [("D", ["z"]); ("Y", ["q"])]]%string
           "z"%string).
  - reflexivity.
  - vm_compute; reflexivity.
  - exists "Y"%string, ["z"%string], "z"%string.
    split_and!; [|vm_compute; reflexivity| |done].
    + apply elem_of_cons. right. apply elem_of_cons. by left.
    + apply elem_of_cons. by left.
  - intros cell' ->%list_elem_of_singleton Hknown. by vm_compute in Hknown.
Defined.

(** C6 fails on the code: a known cell with an output port and no input
    port gets an empty input set from [setup_netlist], and the first
    [operator++] on the bit it drives does not pop the frame it pushes: it
    dereferences the [begin()] of that set, which is its [end()]. *)
Lemma cone_empty_input_set_undefined :
  cell_inputs_map ex_const_net !! "K"%string = Some []
  ∧ sigbit_driver_map ex_const_net !! "k"%string = Some "K"%string
  ∧ WireIter_incr ex_const_net (WireIter_begin "k"%string) = Err UndefinedBehaviour
  ∧ cone ex_const_net "k" = (["k"%string], Some UndefinedBehaviour)
  ∧ cell_cone ex_const_net "k" = (["K"%string], Some UndefinedBehaviour).
Proof.
  assert (cell_inputs_map ex_const_net !! "K"%string = Some []) as Hin
    by (vm_compute; reflexivity).
  split_and!; [done|vm_compute; reflexivity| |vm_compute; reflexivity..].
  apply (WireIter_incr_empty_inputs ex_const_net _ "K"%string); [|done].
  vm_compute; reflexivity.
Qed.

(** C1 fails on the code, by the defect of C6: on the index of a module
    whose one cell [K] has an output port and no input port, the traversal
    from the bit [K] drives does not come to [end()].  Its first
    [operator++] dereferences the [begin()] of the empty input set of [K];
    the only run there is ends in that undefined step, after the start bit,
    and no step budget makes the loop over [cone] reach [end()]. *)
Theorem cone_never_reaches_end_on_empty_input_set :
  sigbit_driver_map ex_const_net !! "k"%string = Some "K"%string
  ∧ cell_inputs_map ex_const_net !! "K"%string = Some []
  ∧ cone ex_const_net "k" = (["k"%string], Some UndefinedBehaviour)
  ∧ (∀ l e, trace ex_const_net (WireIter_begin "k"%string) l e →
            l = [WireIter_begin "k"%string] ∧ e = Some UndefinedBehaviour)
  ∧ (∀ fuel, (wire_range_for fuel ex_const_net (WireIter_begin "k"%string)).2 ≠ None).
Proof.
  assert (Hincr : WireIter_incr ex_const_net (WireIter_begin "k"%string)
                  = Err UndefinedBehaviour) by (vm_compute; reflexivity).
  split_and!; [vm_compute; reflexivity..| |].
  - intros l e Htr.
    apply (trace_det ex_const_net (WireIter_begin "k"%string) _ _ _ _ Htr).
    by apply trace_fault.
  - intros [|fuel]; cbn [wire_range_for]; rewrite ?Hincr; by vm_compute.
Qed.

(** C3 fails on the code, by the defect of C6: in the module
    [g = AND(k, w) -> y], [K -> k] without input port, [h = NOT(x) -> w],
    the cell [h] is in the fan-in of [y], and [cell_cone(net, y)] yields
    [g] and [K] and then stops at the undefined step on the empty input set
    of [K], before it comes to [w]: it never yields [h]. *)
Theorem cell_cone_misses_fanin_cell :
  cell_cone ex_gap_net "y" = (["g"; "K"]%string, Some UndefinedBehaviour)
  ∧ cone ex_gap_net "y" = (["y"; "k"]%string, Some UndefinedBehaviour)
  ∧ fanin_cell ex_gap_net (sigmap ex_gap_net "y") "h"%string
  ∧ "h"%string ∉ (cell_cone ex_gap_net "y").1.
Proof.
  assert (cell_cone ex_gap_net "y" = (["g"; "K"]%string, Some UndefinedBehaviour))
    as Hcells by (vm_compute; reflexivity).
  split_and!; [done|vm_compute; reflexivity| |].
  - exists "w"%string. split; [|vm_compute; reflexivity].
    apply rtc_once. exists "g"%string, ["k"; "w"]%string.
    split_and!; [vm_compute; reflexivity..|].
    apply elem_of_cons. right. apply elem_of_cons. by left.
  - rewrite Hcells. cbn [fst]. rewrite !not_elem_of_cons.
    split_and!; [done..|apply not_elem_of_nil].
Qed.

(** C8 as stated fails: the cone of [out] holds [out], which is none of
    [w1], [in2], [in0], [in1]. *)
Lemma two_and_cone_without_out_counterexample :
  cone ex_and_net "out" = (["out"; "in2"; "w1"; "in0"; "in1"]%string, None)
  ∧ ¬ (∀ s, s ∈ (cone ex_and_net "out").1 ↔ s ∈ ["w1"; "in2"; "in0"; "in1"]%string).
Proof.
  assert (cone ex_and_net "out" = (["out"; "in2"; "w1"; "in0"; "in1"]%string, None))
    as Hcone by (vm_compute; reflexivity).
  split; [done|]. rewrite Hcone. intros Hall.
  assert ("out"%string ∈ ["w1"; "in2"; "in0"; "in1"]%string) as Hin.
  { apply Hall. apply elem_of_cons. by left. }
  rewrite !elem_of_cons in Hin. destruct Hin as [?|[?|[?|[?|?%elem_of_nil]]]]; done.
Qed.

Lemma two_and_cones_witness :
  ∃ bits,
    cone ex_and_net "out" = (bits, None)
    ∧ bits ≡ₚ ["out"; "w1"; "in2"; "in0"; "in1"]%string
    ∧ head bits = Some "out"%string
    ∧ (∃ before after, bits = before ++ "w1"%string :: after
                       ∧ "in0"%string ∈ after ∧ "in1"%string ∈ after)
    ∧ cell_cone ex_and_net "out" = (["c2"; "c1"]%string, None).
Proof.
  apply (two_and_cones ex_and_net "c1"%string "c2"%string).
  - done.
  - reflexivity.
  - vm_compute; reflexivity.
  - vm_compute; reflexivity.
  - vm_compute; reflexivity.
  - vm_compute; reflexivity.
  - vm_compute; reflexivity.
  - right. vm_compute; reflexivity.
  - left. vm_compute; reflexivity.
Defined.

(** C9 with a canonicalizer that merges [alias] into [out]. *)
Lemma cone_of_canonical_bit_witness :
  cone ex_alias_net "alias"
  = wire_range_for (cone_fuel ex_alias_net) ex_alias_net
      (WireIter_begin (sigmap ex_alias_net "alias"))
  ∧ cone ex_alias_net (sigmap ex_alias_net "alias") = cone ex_alias_net "alias"
  ∧ cell_cone ex_alias_net (sigmap ex_alias_net "alias") = cell_cone ex_alias_net "alias".
Proof.
  apply (cone_of_canonical_bit ex_alias_net "alias"%string).
  change (sigmap ex_alias_net) with ex_sigmap. apply ex_sigmap_idem.
Defined.

(** C10 on the primary input [in0]. *)
Lemma cell_cone_undriven_bit_witness :
  sigbit_driver_map ex_and_net !! sigmap ex_and_net "in0" = None
  ∧ cell_cone ex_and_net "in0" = ([], None).
Proof.
  assert (sigbit_driver_map ex_and_net !! sigmap ex_and_net "in0" = None) as Hnone
    by (vm_compute; reflexivity).
  split; [done|]. exact (cell_cone_undriven_bit ex_and_net "in0"%string Hnone).
Defined.
(** * More about the iterators *)

Section IterFacts.
Context {SigBit CellPtr IdString : Type}.
Context `{Countable SigBit, Countable CellPtr, Inhabited SigBit}.

Abbreviation Netlist2 := (@Netlist SigBit CellPtr IdString _ _ _ _).
Abbreviation WireIter2 := (@NetlistConeWireIter SigBit CellPtr _ _).
Abbreviation CellIter2 := (@NetlistConeCellIter SigBit CellPtr _ _).
Implicit Types (net : Netlist2) (it : WireIter2) (ci : CellIter2) (s : SigBit) (c : CellPtr).

(** ** Comparison *)

(** [operator==] is an equivalence on iterators, [operator!=] is its
    negation, an iterator equals [end()] exactly when its [sentinel] is set,
    and two iterators that are not the end are equal as soon as they stand
    on the same bit, whatever their stacks and visited cells. *)
Theorem WireIter_eq_equivalence :
  (∀ it, WireIter_eq it it = true)
  ∧ (∀ a b : WireIter2, WireIter_eq a b = WireIter_eq b a)
  ∧ (∀ a b c : WireIter2,
       WireIter_eq a b = true → WireIter_eq b c = true → WireIter_eq a c = true)
  ∧ (∀ a b : WireIter2, WireIter_neq a b = negb (WireIter_eq a b))
  ∧ (∀ it, WireIter_eq it WireIter_end = sentinel it)
  ∧ (∀ a b : WireIter2, sentinel a = false → sentinel b = false →
       (WireIter_eq a b = true ↔ sig a = sig b)).
Proof.
  unfold WireIter_eq, WireIter_neq, WireIter_end. split_and!.
  - intros it. destruct (sentinel it); simpl; [done|]. by apply bool_decide_eq_true_2.
  - intros a b. destruct (sentinel a), (sentinel b); simpl; try done.
    apply bool_decide_ext. split; congruence.
  - intros a b c. destruct (sentinel a), (sentinel b), (sentinel c); simpl; try done.
    rewrite !bool_decide_eq_true. congruence.
  - intros a b. by destruct (sentinel a), (sentinel b).
  - intros it. simpl. rewrite orb_true_r. by destruct (sentinel it).
  - intros a b -> ->. simpl. by rewrite bool_decide_eq_true.
Qed.

(** ** What a step keeps *)

(** A step that returns never removes a cell from [cells_visited], adds at
    most the driver of the bit it steps off, which was not visited and has a
    recorded input set, and never clears [sentinel]; the step that sets
    [sentinel] leaves the stack empty and [sig] on the last bit. *)
Theorem WireIter_incr_keeps net it it' :
  WireIter_incr net it = Ok it' →
  cells_visited it ⊆ cells_visited it'
  ∧ (cells_visited it' = cells_visited it
     ∨ ∃ drv, sigbit_driver_map net !! sig it = Some drv
              ∧ (drv ∉ cells_visited it)
              ∧ is_Some (cell_inputs_map net !! drv)
              ∧ cells_visited it' = {[drv]} ∪ cells_visited it)
  ∧ (sentinel it = true → sentinel it' = true)
  ∧ (sentinel it = false → sentinel it' = true →
       dfs_path_stack it' = [] ∧ sig it' = sig it).
Proof.
  intros [(drv & x & inputs & _ & Hd & Hfresh & Hin & ->)|[_ Hnext]]%WireIter_incr_Ok.
  - cbn [cells_visited sentinel dfs_path_stack sig]. split_and!.
    + apply union_subseteq_r.
    + right. exists drv. by rewrite Hin.
    + done.
    + congruence.
  - unfold next_sig_in_dag in Hnext.
    apply next_sig_in_dag_from_Ok in Hnext
      as [[-> _]|(popped & x & s' & rest & below & _ & _ & ->)];
      cbn [cells_visited sentinel dfs_path_stack sig]; split_and!;
      try done; try (by left); congruence.
Qed.

(** ** The stack *)

Lemma stack_inv_begin net s : stack_inv net (WireIter_begin s).
Proof.
  split; simpl.
  - intros frame Hf. by apply elem_of_nil in Hf.
  - apply empty_subseteq.
  - lia.
Qed.

Lemma stack_inv_step net it it' :
  stack_inv net it → WireIter_incr net it = Ok it' → stack_inv net it'.
Proof.
  intros [Hfr Hvis Hdepth]
    [(drv & x & inputs & _ & Hd & Hfresh & Hin & ->)|[_ Hnext]]%WireIter_incr_Ok.
  - split; cbn [cells_visited sentinel dfs_path_stack sig].
    + intros frame [->|Hf]%elem_of_cons.
      * split; [done|]. exists drv, (x :: inputs). split_and!; [|done..].
        apply elem_of_union. left. by apply elem_of_singleton.
      * destruct (Hfr frame Hf) as [Hne (c & ins & Hc & Hci & Hsuf)].
        split; [done|]. exists c, ins. split_and!; [|done..].
        apply elem_of_union. by right.
    + apply union_subseteq. split; [|done].
      apply singleton_subseteq_l, elem_of_dom. by rewrite Hin.
    + rewrite size_union by (by apply disjoint_singleton_l).
      rewrite size_singleton. simpl. lia.
  - unfold next_sig_in_dag in Hnext.
    apply next_sig_in_dag_from_Ok in Hnext
      as [[-> _]|(popped & x & s' & rest & below & Hst & _ & ->)];
      split; cbn [cells_visited sentinel dfs_path_stack sig]; try done.
    + intros frame Hf. by apply elem_of_nil in Hf.
    + simpl. lia.
    + assert (Hsub : ∀ frame, frame ∈ below → frame ∈ dfs_path_stack it).
      { intros frame Hf. rewrite Hst. apply elem_of_app. right.
        apply elem_of_cons. by right. }
      intros frame [->|Hf]%elem_of_cons; [|by apply Hfr, Hsub].
      destruct (Hfr (x :: s' :: rest)) as [_ (c & ins & Hc & Hci & Hsuf)].
      { rewrite Hst. apply elem_of_app. right. apply elem_of_cons. by left. }
      split; [done|]. exists c, ins. split_and!; [done..|].
      etrans; [|exact Hsuf]. by apply suffix_cons_r.
    + rewrite Hst, length_app in Hdepth. simpl in *. lia.
Qed.

Lemma trace_stack_inv net it l e :
  trace net it l e → stack_inv net it → ∀ it', it' ∈ l → stack_inv net it'.
Proof.
  induction 1 as [it Hs|it it' l e Hs Hincr Htr IH|it e Hs Hincr];
    intros Hinv it2.
  - by intros ?%elem_of_nil.
  - intros [->|Hin]%elem_of_cons; [done|].
    apply IH; [|done]. by eapply stack_inv_step.
  - by intros ->%list_elem_of_singleton.
Qed.

(** In every state in which the loop over [cone(net, b)] runs its body
    (the state [begin()] gives and every state an [operator++] returned)
    the stack is no deeper than the index has cells and every entry of it
    is a non-empty rest of the recorded input set of a visited cell.  So
    [next_sig_in_dag] never increments or dereferences an exhausted
    iterator, and an [operator++] from such a state can go wrong in its
    push branch only: on an unvisited driver without recorded input set
    ([dict::at] throws) or with an empty one (the dereference of its
    [begin()]). *)
Theorem cone_stack_bounded net b :
  ∀ it, it ∈ (cone_states net b).1 →
    length (dfs_path_stack it) ≤ size (cell_inputs_map net)
    ∧ (∀ frame, frame ∈ dfs_path_stack it →
         frame ≠ [] ∧ ∃ c inputs, c ∈ cells_visited it
                                  ∧ cell_inputs_map net !! c = Some inputs
                                  ∧ frame `suffix_of` inputs)
    ∧ (∀ e, next_sig_in_dag it ≠ Err e)
    ∧ (∀ e, WireIter_incr net it = Err e →
         ∃ drv, sigbit_driver_map net !! sig it = Some drv
                ∧ (drv ∉ cells_visited it)
                ∧ (cell_inputs_map net !! drv = None ∧ e = OutOfRange
                   ∨ cell_inputs_map net !! drv = Some [] ∧ e = UndefinedBehaviour)).
Proof.
  destruct (trace_total net (WireIter_begin (sigmap net b))) as (l & e & Htr).
  rewrite (cone_states_trace _ _ _ _ Htr). cbn [fst]. intros it Hit.
  destruct (trace_stack_inv _ _ _ _ Htr (stack_inv_begin _ _) it Hit)
    as [Hfr Hvis Hdepth].
  assert (Hnext : ∀ e', next_sig_in_dag it ≠ Err e').
  { intros e'. unfold next_sig_in_dag.
    intros (frame & Hf & ->)%next_sig_in_dag_from_Err.
    by destruct (Hfr [] Hf) as [? _]. }
  split_and!; [|done|done|].
  - etrans; [exact Hdepth|]. rewrite <- size_dom. by apply subseteq_size.
  - intros e' Herr. unfold WireIter_incr in Herr.
    destruct (sigbit_driver_map net !! sig it) as [drv|] eqn:Hd;
      [|by apply Hnext in Herr].
    destruct (decide (drv ∈ cells_visited it)) as [|Hfresh];
      [by apply Hnext in Herr|].
    exists drv. split_and!; [done..|].
    destruct (cell_inputs_map net !! drv) as [[|s' inputs]|] eqn:Hin.
    + right. split; [done|]. by injection Herr as <-.
    + done.
    + left. split; [done|]. by injection Herr as <-.
Qed.

(** ** The bits of a cone, counted *)

Lemma pending_cons (frame : list SigBit) (stack : list (list SigBit)) :
  pending (frame :: stack) = tail frame ++ pending stack.
Proof. done. Qed.

Lemma pending_singletons (stack : list (list SigBit)) :
  (∀ frame, frame ∈ stack → ∃ y, frame = [y]) → pending stack = [].
Proof.
  induction stack as [|frame stack IH]; intros Hall; [done|].
  rewrite pending_cons, IH.
  - destruct (Hall frame) as [y ->]; [apply elem_of_cons; by left|done].
  - intros f Hf. apply Hall, elem_of_cons. by right.
Qed.

Lemma pending_app (stack1 stack2 : list (list SigBit)) :
  pending (stack1 ++ stack2) = pending stack1 ++ pending stack2.
Proof. unfold pending. by rewrite fmap_app, concat_app. Qed.

Lemma inputs_of_cells_cons net c (cs : list CellPtr) :
  inputs_of_cells net (c :: cs)
  = default [] (cell_inputs_map net !! c) ++ inputs_of_cells net cs.
Proof. done. Qed.

(** From a bit that is not the end, the bits of the rest of a run that
    reaches the end are the current bit, the input sets of the cells pushed
    from here on and what is pending on the stack. *)
Lemma trace_bits_count net it l :
  trace net it l None → sentinel it = false →
  sig <$> l
  ≡ₚ sig it :: inputs_of_cells net (omap (pushes net) l) ++ pending (dfs_path_stack it).
Proof.
  intros Htr. remember None as e eqn:He.
  induction Htr as [it Hs|it it' l e Hs Hincr Htr IH|it e Hs Hincr];
    intros Hs0; [congruence| |done].
  cbn [fmap list_fmap omap list_omap]. fold (fmap (M:=list) (@sig SigBit CellPtr _ _)).
  apply WireIter_incr_Ok in Hincr
    as [(drv & x & inputs & Hp & Hd & Hfresh & Hin & ->)|[Hp Hnext]]; rewrite Hp.
  - rewrite (IH He Hs). cbn [sig dfs_path_stack].
    rewrite inputs_of_cells_cons, Hin, pending_cons. cbn [default tail].
    apply Permutation_skip. solve_Permutation.
  - unfold next_sig_in_dag in Hnext.
    apply next_sig_in_dag_from_Ok in Hnext
      as [[-> Hall]|(popped & x & s' & rest & below & Hst & Hall & ->)].
    + inversion Htr; subst; simpl in *; try congruence.
      by rewrite (pending_singletons _ Hall).
    + rewrite (IH He Hs). cbn [sig dfs_path_stack].
      rewrite Hst, pending_app, (pending_singletons _ Hall), !pending_cons.
      cbn [tail app]. apply Permutation_skip. solve_Permutation.
Qed.

(** When the loop over [cone(net, b)] reaches [end()], what it yields after
    the start bit is, up to the order, the recorded input sets of the cells
    it pushed, every set in full and once: a bit is yielded as often as it
    occurs in these sets. *)
Theorem cone_bits_are_pushed_inputs net b :
  (cone net b).2 = None →
  ∃ rest,
    (cone net b).1 = sigmap net b :: rest
    ∧ rest ≡ₚ inputs_of_cells net (cone_pushes net b)
    ∧ length (cone net b).1 = S (length (inputs_of_cells net (cone_pushes net b))).
Proof.
  destruct (trace_total net (WireIter_begin (sigmap net b))) as (l & e & Htr).
  unfold cone_pushes.
  rewrite (cone_trace _ _ _ _ Htr), (cone_states_trace _ _ _ _ Htr).
  cbn [fst snd]. intros ->.
  pose proof (trace_bits_count _ _ _ Htr eq_refl) as Hperm.
  cbn [WireIter_begin sig dfs_path_stack] in Hperm.
  change (pending []) with (@nil SigBit) in Hperm. rewrite app_nil_r in Hperm.
  inversion Htr as [|it0 it1 l' e0 Hs Hincr Htr'|]; subst; [done|].
  cbn [fmap list_fmap] in *. fold (fmap (M:=list) (@sig SigBit CellPtr _ _)) in *.
  exists (sig <$> l'). split_and!; [done| |].
  - by apply Permutation_cons_inv in Hperm.
  - apply Permutation_length in Hperm. simpl in Hperm. simpl. lia.
Qed.

(** ** A cell whose inputs have no driver *)

Lemma walk_undriven_frame net (V : gset CellPtr) (frame : list SigBit) s :
  (∀ y, y ∈ s :: frame → sigbit_driver_map net !! y = None) →
  ∃ l, trace net (mkWireIter s false [s :: frame] V) l None
       ∧ sig <$> l = s :: frame ∧ omap (pushes net) l = [].
Proof.
  revert s. induction frame as [|s' frame IH]; intros s Hnone.
  - exists [mkWireIter s false [[s]] V]. split_and!.
    + apply (trace_step net _ (mkWireIter s true [] V)); [done| |by apply trace_end].
      unfold WireIter_incr. cbn [sig]. rewrite Hnone; [done|].
      apply elem_of_cons. by left.
    + done.
    + cbn [omap list_omap]. unfold pushes. cbn [sig]. rewrite Hnone; [done|].
      apply elem_of_cons. by left.
  - destruct (IH s') as (l & Htr & Hbits & Hpush).
    { intros y Hy. apply Hnone, elem_of_cons. by right. }
    exists (mkWireIter s false [s :: s' :: frame] V :: l). split_and!.
    + apply (trace_step net _ (mkWireIter s' false [s' :: frame] V)); [done| |done].
      unfold WireIter_incr. cbn [sig]. rewrite Hnone; [done|].
      apply elem_of_cons. by left.
    + cbn [fmap list_fmap]. fold (fmap (M:=list) (@sig SigBit CellPtr _ _)).
      by rewrite Hbits.
    + cbn [omap list_omap]. unfold pushes at 1. cbn [sig].
      rewrite Hnone; [done|]. apply elem_of_cons. by left.
Qed.

(** For a bit whose driver has a non-empty recorded input set none of whose
    bits has a driver, [cone] yields the canonical bit and then the input
    set in its order, and [cell_cone] yields the driver alone. *)
Theorem cone_one_level net b c x (inputs : list SigBit) :
  sigbit_driver_map net !! sigmap net b = Some c →
  cell_inputs_map net !! c = Some (x :: inputs) →
  (∀ y, y ∈ x :: inputs → sigbit_driver_map net !! y = None) →
  cone net b = (sigmap net b :: x :: inputs, None)
  ∧ cell_cone net b = ([c], None).
Proof.
  intros Hd Hin Hnone.
  destruct (walk_undriven_frame net ({[c]} ∪ ∅) inputs x Hnone)
    as (l & Htr & Hbits & Hpush).
  assert (Hrun : trace net (WireIter_begin (sigmap net b))
                   (WireIter_begin (sigmap net b) :: l) None).
  { apply (trace_step net _ (mkWireIter x false [x :: inputs] ({[c]} ∪ ∅)));
      [done| |done].
    unfold WireIter_incr. cbn [WireIter_begin sig cells_visited sentinel dfs_path_stack].
    rewrite Hd, Hin. by rewrite decide_False by apply not_elem_of_empty. }
  rewrite (cone_trace _ _ _ _ Hrun), (cell_cone_trace _ _ _ _ Hrun).
  cbn [fmap list_fmap omap list_omap].
  fold (fmap (M:=list) (@sig SigBit CellPtr _ _)). rewrite Hbits, Hpush.
  unfold pushes. cbn [WireIter_begin sig cells_visited]. rewrite Hd.
  by rewrite decide_False by apply not_elem_of_empty.
Qed.

(** ** Dereferencing a cell iterator *)

Lemma CellIter_incr_lands fuel net ci ci' :
  CellIter_incr fuel net ci = Ok ci' →
  sentinel (sig_iter ci') = true
  ∨ ∃ c, CellIter_deref net ci' = Ok c
         ∧ sigbit_driver_map net !! sig (sig_iter ci') = Some c
         ∧ c ∉ cells_visited (sig_iter ci').
Proof.
  revert ci. induction fuel as [|fuel IH]; intros ci; simpl; [done|].
  destruct (WireIter_incr net (sig_iter ci)) as [w|e]; [|done].
  destruct (sentinel w) eqn:Hs; [intros [= <-]; by left|].
  unfold has_driver_cell.
  destruct (sigbit_driver_map net !! sig w) as [cell|] eqn:Hd.
  - rewrite bool_decide_eq_true_2 by eauto.
    destruct (decide (cell ∈ cells_visited w)) as [Hv|Hv]; [apply IH|].
    intros [= <-]. right. exists cell. unfold CellIter_deref. cbn [sig_iter].
    by rewrite Hd.
  - rewrite bool_decide_eq_false_2 by (by intros [? ?]). apply IH.
Qed.

(** A cell iterator that its constructor or its [operator++] has returned
    and that is not [end()] can be dereferenced: [operator*] does not
    throw, and returns the driver of the current bit, a cell whose input set
    has not been pushed yet. *)
Theorem CellIter_deref_safe fuel net :
  (∀ s ci,
     CellIter_begin fuel net s = Ok ci → CellIter_neq ci CellIter_end = true →
     ∃ c, CellIter_deref net ci = Ok c
          ∧ sigbit_driver_map net !! sig (sig_iter ci) = Some c
          ∧ c ∉ cells_visited (sig_iter ci))
  ∧ (∀ ci ci',
       CellIter_incr fuel net ci = Ok ci' → CellIter_neq ci' CellIter_end = true →
       ∃ c, CellIter_deref net ci' = Ok c
            ∧ sigbit_driver_map net !! sig (sig_iter ci') = Some c
            ∧ c ∉ cells_visited (sig_iter ci')).
Proof.
  split.
  - intros s ci. unfold CellIter_begin, has_driver_cell.
    cbn [sig_iter WireIter_begin sentinel sig negb andb].
    destruct (sigbit_driver_map net !! s) as [cell|] eqn:Hd.
    + rewrite bool_decide_eq_true_2 by eauto. cbn [negb].
      intros [= <-] _. exists cell. unfold CellIter_deref.
      cbn [sig_iter WireIter_begin sig cells_visited]. rewrite Hd.
      split_and!; [done..|apply not_elem_of_empty].
    + rewrite bool_decide_eq_false_2 by (by intros [? ?]). cbn [negb].
      intros Hincr Hneq. rewrite CellIter_neq_end in Hneq.
      destruct (CellIter_incr_lands _ _ _ _ Hincr) as [Hs|Hex];
        [by rewrite Hs in Hneq|done].
  - intros ci ci' Hincr Hneq. rewrite CellIter_neq_end in Hneq.
    destruct (CellIter_incr_lands _ _ _ _ Hincr) as [Hs|Hex];
      [by rewrite Hs in Hneq|done].
Qed.

(** ** The index as the traversal reads it *)

Lemma WireIter_incr_ext net net' it :
  sigbit_driver_map net = sigbit_driver_map net' →
  cell_inputs_map net = cell_inputs_map net' →
  WireIter_incr net it = WireIter_incr net' it.
Proof. unfold WireIter_incr. by intros -> ->. Qed.

Lemma trace_ext net net' it l e :
  sigbit_driver_map net = sigbit_driver_map net' →
  cell_inputs_map net = cell_inputs_map net' →
  trace net it l e → trace net' it l e.
Proof.
  intros Hd Hi. induction 1 as [it Hs|it it' l e Hs Hincr Htr IH|it e Hs Hincr].
  - by apply trace_end.
  - apply (trace_step net' it it'); [done| |done].
    by rewrite <- (WireIter_incr_ext net net').
  - apply trace_fault; [done|]. by rewrite <- (WireIter_incr_ext net net').
Qed.

Lemma cone_ext net net' b :
  sigmap net = sigmap net' →
  sigbit_driver_map net = sigbit_driver_map net' →
  cell_inputs_map net = cell_inputs_map net' →
  cone net b = cone net' b ∧ cell_cone net b = cell_cone net' b.
Proof.
  intros Hsm Hd Hi.
  destruct (trace_total net (WireIter_begin (sigmap net b))) as (l & e & Htr).
  pose proof (trace_ext net net' _ _ _ Hd Hi Htr) as Htr'.
  rewrite Hsm in Htr'.
  rewrite (cone_trace _ _ _ _ Htr), (cone_trace _ _ _ _ Htr').
  rewrite (cell_cone_trace _ _ _ _ Htr), (cell_cone_trace _ _ _ _ Htr').
  split; [done|]. f_equal. apply list_omap_ext, Forall2_same_length_lookup_2; [done|].
  intros i it it' Hit Hit'. assert (it' = it) as -> by congruence.
  unfold pushes. by rewrite Hd.
Qed.

(** No step of the iterator throws as long as every driver has a recorded
    input set. *)
Lemma next_sig_in_dag_from_Err_undefined s (snt : bool) (V : gset CellPtr)
    (stack : list (list SigBit)) e :
  next_sig_in_dag_from s snt V stack = Err e → e = UndefinedBehaviour.
Proof.
  induction stack as [|[|x [|s' rest]] below IH]; simpl; try done. congruence.
Qed.

Lemma trace_no_out_of_range net it l e :
  (∀ b c, sigbit_driver_map net !! b = Some c → is_Some (cell_inputs_map net !! c)) →
  trace net it l e → e ≠ Some OutOfRange.
Proof.
  intros Hall. induction 1 as [it Hs|it it' l e Hs Hincr Htr IH|it e Hs Hincr];
    try done.
  intros [= ->]. unfold WireIter_incr, next_sig_in_dag in Hincr.
  destruct (sigbit_driver_map net !! sig it) as [drv|] eqn:Hd.
  - destruct (decide (drv ∈ cells_visited it)).
    + by apply next_sig_in_dag_from_Err_undefined in Hincr.
    + destruct (Hall _ _ Hd) as [inputs Hin]. rewrite Hin in Hincr.
      by destruct inputs.
  - by apply next_sig_in_dag_from_Err_undefined in Hincr.
Qed.

End IterFacts.

(** * More about the construction of the index *)

Section SetupMore.
Context {SigBit CellPtr IdString : Type}.
Context `{Countable SigBit, Countable CellPtr, Inhabited SigBit}.
Variable SigBit_lt : SigBit → SigBit → bool.

Abbreviation Netlist3 := (@Netlist SigBit CellPtr IdString _ _ _ _).
Abbreviation Cell3 := (@Cell SigBit CellPtr IdString).
Abbreviation Module3 := (@Module SigBit CellPtr IdString).
Abbreviation CellTypes3 := (@CellTypes IdString).
Implicit Types (net : Netlist3) (cell : Cell3) (ct : CellTypes3) (m : Module3).
Implicit Types (sm : SigBit → SigBit) (s : list SigBit) (b x y : SigBit).

(** ** Every driver has an input set *)

Lemma setup_cell_drivers_recorded ct net cell :
  drivers_recorded net → drivers_recorded (setup_cell SigBit_lt ct net cell).
Proof.
  intros Hrec b c. rewrite setup_cell_driver, setup_cell_inputs.
  destruct (cell_known ct (type cell)); [|apply Hrec].
  destruct (decide (b ∈ (cell_ports SigBit_lt ct (sigmap net) cell).2)).
  - intros [= <-]. by rewrite lookup_insert_eq.
  - intros Hd. apply lookup_insert_is_Some'. right. by eapply Hrec.
Qed.

Lemma setup_cells_drivers_recorded ct (l : list Cell3) net :
  drivers_recorded net →
  drivers_recorded (fold_left (setup_cell SigBit_lt ct) l net).
Proof.
  revert net. induction l as [|cell l IH]; intros net Hrec; simpl; [done|].
  by apply IH, setup_cell_drivers_recorded.
Qed.

(** On the index that the constructor builds every cell in
    [sigbit_driver_map] is a key of [cell_inputs_map], so that neither the
    loop over [cone] nor the loop over [cell_cone] ends by the
    [std::out_of_range] of [dict::at]. *)
Theorem Netlist_new_never_throws m sm ct :
  let net := Netlist_new SigBit_lt m sm ct in
  (∀ b c, sigbit_driver_map net !! b = Some c → is_Some (cell_inputs_map net !! c))
  ∧ ∀ b, (cone net b).2 ≠ Some OutOfRange ∧ (cell_cone net b).2 ≠ Some OutOfRange.
Proof.
  cbn zeta.
  assert (Hrec : drivers_recorded (Netlist_new SigBit_lt m sm ct)).
  { apply setup_cells_drivers_recorded. intros b c Hd. simpl in Hd.
    by rewrite lookup_empty in Hd. }
  split; [exact Hrec|]. intros b.
  destruct (trace_total (Netlist_new SigBit_lt m sm ct)
              (WireIter_begin (sigmap (Netlist_new SigBit_lt m sm ct) b)))
    as (l & e & Htr).
  rewrite (cone_trace _ _ _ _ Htr), (cell_cone_trace _ _ _ _ Htr). cbn [snd].
  split; by apply (trace_no_out_of_range _ _ _ _ Hrec Htr).
Qed.

(** ** Cells the oracle does not know *)

Lemma setup_cells_known ct (l : list Cell3) net :
  fold_left (setup_cell SigBit_lt ct)
            (filter (λ cell, cell_known ct (type cell) = true) l) net
  = fold_left (setup_cell SigBit_lt ct) l net.
Proof.
  revert net. induction l as [|cell l IH]; intros net; [done|].
  rewrite filter_cons. destruct (decide (cell_known ct (type cell) = true)) as [Hk|Hk].
  - simpl. by rewrite IH.
  - simpl. rewrite IH.
    assert (setup_cell SigBit_lt ct net cell = net) as ->; [|done].
    unfold setup_cell. by destruct (cell_known ct (type cell)).
Qed.

Lemma setup_cells_module ct (l : list Cell3) net m' :
  let net' := mkNetlist m' (sigmap net) (sigbit_driver_map net) (cell_inputs_map net) in
  sigbit_driver_map (fold_left (setup_cell SigBit_lt ct) l net')
  = sigbit_driver_map (fold_left (setup_cell SigBit_lt ct) l net)
  ∧ cell_inputs_map (fold_left (setup_cell SigBit_lt ct) l net')
    = cell_inputs_map (fold_left (setup_cell SigBit_lt ct) l net)
  ∧ sigmap (fold_left (setup_cell SigBit_lt ct) l net')
    = sigmap (fold_left (setup_cell SigBit_lt ct) l net).
Proof.
  cbn zeta.
  assert (Hgen : ∀ n1 n2 : Netlist3,
    sigbit_driver_map n1 = sigbit_driver_map n2 →
    cell_inputs_map n1 = cell_inputs_map n2 → sigmap n1 = sigmap n2 →
    sigbit_driver_map (fold_left (setup_cell SigBit_lt ct) l n1)
    = sigbit_driver_map (fold_left (setup_cell SigBit_lt ct) l n2)
    ∧ cell_inputs_map (fold_left (setup_cell SigBit_lt ct) l n1)
      = cell_inputs_map (fold_left (setup_cell SigBit_lt ct) l n2)
    ∧ sigmap (fold_left (setup_cell SigBit_lt ct) l n1)
      = sigmap (fold_left (setup_cell SigBit_lt ct) l n2)).
  { induction l as [|cell l IH]; intros n1 n2 Hd Hi Hs; simpl; [done|].
    apply IH.
    - apply map_eq. intros b. by rewrite !setup_cell_driver, Hd, Hs.
    - by rewrite !setup_cell_inputs, Hi, Hs.
    - by rewrite !setup_cell_sigmap. }
  by apply Hgen.
Qed.

(** Cells of a type the oracle does not know leave no trace in the index:
    the module without them gives the same two maps, and so the same cones. *)
Theorem Netlist_new_ignores_unknown_cells m sm ct :
  let net := Netlist_new SigBit_lt m sm ct in
  let net' := Netlist_new SigBit_lt (known_cells ct m) sm ct in
  sigbit_driver_map net' = sigbit_driver_map net
  ∧ cell_inputs_map net' = cell_inputs_map net
  ∧ ∀ b, cone net' b = cone net b ∧ cell_cone net' b = cell_cone net b.
Proof.
  cbn zeta. unfold Netlist_new, setup_netlist, known_cells. cbn [cells].
  rewrite setup_cells_known.
  destruct (setup_cells_module ct (cells m) (mkNetlist m sm ∅ ∅)
              (mkModule (filter (λ cell, cell_known ct (type cell) = true) (cells m))))
    as (Hd & Hi & Hs).
  cbn [sigmap sigbit_driver_map cell_inputs_map] in Hd, Hi, Hs.
  split_and!; [done..|]. intros b. by apply cone_ext.
Qed.

(** ** The input sets *)

Lemma set_insert_nonempty x s : set_insert SigBit_lt x s ≠ [].
Proof.
  destruct s as [|z s]; simpl; [done|].
  destruct (SigBit_lt x z); [done|]. by destruct (SigBit_lt z x).
Qed.

Lemma set_insert_range_nonempty (bits : list SigBit) s :
  bits ≠ [] ∨ s ≠ [] → set_insert_range SigBit_lt bits s ≠ [].
Proof.
  unfold set_insert_range. revert s.
  induction bits as [|b bits IH]; intros s; simpl; [by intros [?|?]|].
  intros _. apply IH. right. apply set_insert_nonempty.
Qed.

Lemma sort_ports_inputs_nonempty ct sm (ty : IdString)
    (ports : list (IdString * list SigBit)) (acc : list SigBit * list SigBit) :
  acc.1 ≠ []
  ∨ (∃ port spec bit, (port, spec) ∈ ports ∧ cell_output ct ty port = false
                      ∧ bit ∈ spec) →
  (fold_left (sort_port SigBit_lt ct sm ty) ports acc).1 ≠ [].
Proof.
  revert acc. induction ports as [|[port spec] ports IH]; intros acc; simpl.
  - intros [Hne|(port & spec & bit & Hin & _)]; [done|].
    by apply elem_of_nil in Hin.
  - intros [Hne|(port' & spec' & bit & Hin & Hout & Hbit)]; apply IH.
    + left. unfold sort_port. simpl.
      destruct (cell_output ct ty port); simpl; [done|].
      apply set_insert_range_nonempty. by right.
    + apply elem_of_cons in Hin as [[= -> ->]|Hin].
      * left. unfold sort_port. simpl. rewrite Hout. simpl.
        apply set_insert_range_nonempty. left.
        destruct spec; [by apply elem_of_nil in Hbit|done].
      * right. exists port', spec', bit. by split_and!.
Qed.

Lemma setup_cell_index_ok ct net cell :
  (cell_known ct (type cell) = true →
   ∃ port spec bit, (port, spec) ∈ connections cell
                    ∧ cell_output ct (type cell) port = false ∧ bit ∈ spec) →
  index_ok net → index_ok (setup_cell SigBit_lt ct net cell).
Proof.
  intros Hcell Hok b c. rewrite setup_cell_driver, setup_cell_inputs.
  destruct (cell_known ct (type cell)); [|apply Hok].
  assert (Hne : (cell_ports SigBit_lt ct (sigmap net) cell).1 ≠ []).
  { apply sort_ports_inputs_nonempty. right. by apply Hcell. }
  assert (Hself : ∃ x inputs,
    <[self cell := (cell_ports SigBit_lt ct (sigmap net) cell).1]>
      (cell_inputs_map net) !! self cell = Some (x :: inputs)).
  { rewrite lookup_insert_eq.
    destruct (cell_ports SigBit_lt ct (sigmap net) cell).1 as [|x inputs]; [done|].
    eauto. }
  destruct (decide (b ∈ (cell_ports SigBit_lt ct (sigmap net) cell).2)).
  - by intros [= <-].
  - intros Hd. destruct (decide (self cell = c)) as [<-|Hne']; [done|].
    rewrite lookup_insert_ne by done. by eapply Hok.
Qed.

Lemma setup_cells_index_ok ct (l : list Cell3) net :
  (∀ cell, cell ∈ l → cell_known ct (type cell) = true →
     ∃ port spec bit, (port, spec) ∈ connections cell
                      ∧ cell_output ct (type cell) port = false ∧ bit ∈ spec) →
  index_ok net → index_ok (fold_left (setup_cell SigBit_lt ct) l net).
Proof.
  revert net. induction l as [|cell l IH]; intros net Hall Hok; simpl; [done|].
  apply IH.
  - intros cell' Hin. apply Hall, elem_of_cons. by right.
  - apply setup_cell_index_ok; [|done]. apply Hall, elem_of_cons. by left.
Qed.

(** When every cell of the module that the oracle knows has a bit on a port
    that is not an output, the index that the constructor builds records a
    non-empty input set for every driver, and the loops over [cone] and
    [cell_cone] reach [end()] from every start bit. *)
Theorem Netlist_new_cones_complete m sm ct :
  (∀ cell, cell ∈ cells m → cell_known ct (type cell) = true →
     ∃ port spec bit, (port, spec) ∈ connections cell
                      ∧ cell_output ct (type cell) port = false ∧ bit ∈ spec) →
  let net := Netlist_new SigBit_lt m sm ct in
  index_ok net ∧ ∀ b, (cone net b).2 = None ∧ (cell_cone net b).2 = None.
Proof.
  intros Hall. cbn zeta.
  assert (Hok : index_ok (Netlist_new SigBit_lt m sm ct)).
  { apply setup_cells_index_ok; [done|]. intros b c Hd. simpl in Hd.
    by rewrite lookup_empty in Hd. }
  split; [done|]. intros b.
  destruct (trace_total (Netlist_new SigBit_lt m sm ct)
              (WireIter_begin (sigmap (Netlist_new SigBit_lt m sm ct) b)))
    as (l & e & Htr).
  rewrite (cone_trace _ _ _ _ Htr), (cell_cone_trace _ _ _ _ Htr). cbn [snd].
  assert (e = None) as ->; [|done].
  eapply trace_no_fault; [done|apply cone_inv_begin|done].
Qed.

(** ** What an input set holds *)

Lemma sort_ports_inputs_inv ct sm (ty : IdString)
    (ports : list (IdString * list SigBit)) (acc : list SigBit * list SigBit) b :
  b ∈ (fold_left (sort_port SigBit_lt ct sm ty) ports acc).1 →
  b ∈ acc.1
  ∨ ∃ port spec bit, (port, spec) ∈ ports ∧ cell_output ct ty port = false
                     ∧ bit ∈ spec ∧ b = sm bit.
Proof.
  revert acc. induction ports as [|[port spec] ports IH]; intros acc; simpl; [by left|].
  intros [Hb|(port' & spec' & bit & Hin & Hout & Hbit & ->)]%IH.
  - unfold sort_port in Hb. simpl in Hb.
    destruct (cell_output ct ty port) eqn:Hout; simpl in Hb; [by left|].
    apply elem_of_set_insert_range_inv in Hb as [Hb|Hb]; [|by left].
    apply list_elem_of_fmap in Hb as (bit & -> & Hbit).
    right. exists port, spec, bit. split_and!; try done.
    apply elem_of_cons. by left.
  - right. exists port', spec', bit. split_and!; try done.
    apply elem_of_cons. by right.
Qed.

Lemma setup_cells_inputs_value ct (l : list Cell3) net c (inputs : list SigBit) :
  cell_inputs_map (fold_left (setup_cell SigBit_lt ct) l net) !! c = Some inputs →
  cell_inputs_map net !! c = Some inputs
  ∨ ∃ cell, cell ∈ l ∧ self cell = c ∧ cell_known ct (type cell) = true
            ∧ inputs = (cell_ports SigBit_lt ct (sigmap net) cell).1.
Proof.
  revert net. induction l as [|cell l IH]; intros net; simpl; [by left|].
  intros [Hi|(cell' & Hin & Hself & Hk & Hv)]%IH.
  - rewrite setup_cell_inputs in Hi.
    destruct (cell_known ct (type cell)) eqn:Hk; [|by left].
    destruct (decide (self cell = c)) as [Heq|Hne].
    + right. exists cell. rewrite Heq, lookup_insert_eq in Hi.
      split_and!; [apply elem_of_cons; by left|done..|congruence].
    + left. by rewrite lookup_insert_ne in Hi.
  - right. exists cell'. rewrite setup_cell_sigmap in Hv.
    split_and!; [apply elem_of_cons; by right|done..].
Qed.

Lemma setup_cells_inputs_keep ct (l : list Cell3) net c :
  (∀ cell, cell ∈ l → cell_known ct (type cell) = true → self cell ≠ c) →
  cell_inputs_map (fold_left (setup_cell SigBit_lt ct) l net) !! c
  = cell_inputs_map net !! c.
Proof.
  revert net. induction l as [|cell l IH]; intros net Hnone; simpl; [done|].
  rewrite IH.
  - rewrite setup_cell_inputs.
    destruct (cell_known ct (type cell)) eqn:Hk; [|done].
    rewrite lookup_insert_ne; [done|]. apply Hnone; [apply elem_of_cons; by left|done].
  - intros cell' Hin. apply Hnone, elem_of_cons. by right.
Qed.

(** ** The order of an input set *)

Lemma set_insert_HdRel x z s :
  HdRel (below SigBit_lt) z s → below SigBit_lt z x →
  HdRel (below SigBit_lt) z (set_insert SigBit_lt x s).
Proof.
  intros Hhd Hzx. destruct s as [|w s]; simpl; [by constructor|].
  destruct (SigBit_lt x w); [by constructor|].
  destruct (SigBit_lt w x); [|done].
  constructor. by inversion Hhd.
Qed.

Lemma set_insert_Sorted x s :
  Sorted (below SigBit_lt) s → Sorted (below SigBit_lt) (set_insert SigBit_lt x s).
Proof.
  induction 1 as [|z s Hs IH Hhd]; simpl; [by repeat constructor|].
  destruct (SigBit_lt x z) eqn:Hxz; [by repeat constructor|].
  destruct (SigBit_lt z x) eqn:Hzx; [|by constructor].
  constructor; [done|]. by apply set_insert_HdRel.
Qed.

Lemma set_insert_range_Sorted (bits : list SigBit) s :
  Sorted (below SigBit_lt) s →
  Sorted (below SigBit_lt) (set_insert_range SigBit_lt bits s).
Proof.
  unfold set_insert_range. revert s.
  induction bits as [|b bits IH]; intros s Hs; simpl; [done|].
  by apply IH, set_insert_Sorted.
Qed.

Lemma cell_ports_Sorted ct sm cell :
  Sorted (below SigBit_lt) (cell_ports SigBit_lt ct sm cell).1
  ∧ Sorted (below SigBit_lt) (cell_ports SigBit_lt ct sm cell).2.
Proof.
  unfold cell_ports.
  assert (Hgen : ∀ (ports : list (IdString * list SigBit)) acc,
    Sorted (below SigBit_lt) acc.1 ∧ Sorted (below SigBit_lt) acc.2 →
    Sorted (below SigBit_lt)
      (fold_left (sort_port SigBit_lt ct sm (type cell)) ports acc).1
    ∧ Sorted (below SigBit_lt)
        (fold_left (sort_port SigBit_lt ct sm (type cell)) ports acc).2).
  { induction ports as [|port ports IH]; intros acc [H1' H2']; simpl; [done|].
    apply IH. unfold sort_port. cbn zeta.
    case_match; cbn [fst snd]; split; try done; by apply set_insert_range_Sorted. }
  apply Hgen. simpl. split; constructor.
Qed.

Lemma Sorted_below_NoDup s :
  (∀ x, SigBit_lt x x = false) →
  (∀ x y z, SigBit_lt x y = true → SigBit_lt y z = true → SigBit_lt x z = true) →
  Sorted (below SigBit_lt) s → NoDup s.
Proof.
  intros Hirr Htrans Hs.
  apply Sorted_StronglySorted in Hs; [|intros x y z; apply Htrans].
  induction Hs as [|a l Hl IH Hall]; constructor; [|done].
  intros Hin. rewrite Forall_forall in Hall.
  specialize (Hall a Hin). unfold below in Hall. by rewrite Hirr in Hall.
Qed.

(** Every input set that the constructor records is in strictly increasing
    order for [operator<], as the frames of the traversal iterate it, and
    so, [operator<] being irreflexive and transitive, holds no bit twice. *)
Theorem Netlist_new_input_sets_sorted m sm ct c (inputs : list SigBit) :
  (∀ x, SigBit_lt x x = false) →
  (∀ x y z, SigBit_lt x y = true → SigBit_lt y z = true → SigBit_lt x z = true) →
  cell_inputs_map (Netlist_new SigBit_lt m sm ct) !! c = Some inputs →
  Sorted (below SigBit_lt) inputs ∧ NoDup inputs.
Proof.
  intros Hirr Htrans [Hi|(cell & _ & _ & _ & ->)]%setup_cells_inputs_value.
  - simpl in Hi. by rewrite lookup_empty in Hi.
  - assert (Hs := proj1 (cell_ports_Sorted ct
                           (sigmap (mkNetlist m sm ∅ ∅)) cell)).
    split; [done|]. by apply Sorted_below_NoDup.
Qed.

(** [operator<] is total from here on. *)
Hypothesis SigBit_lt_total :
  ∀ x y, SigBit_lt x y = false → SigBit_lt y x = false → x = y.

Lemma sort_ports_inputs ct sm (ty : IdString)
    (ports : list (IdString * list SigBit)) (acc : list SigBit * list SigBit) b :
  b ∈ acc.1
  ∨ (∃ port spec bit, (port, spec) ∈ ports ∧ cell_output ct ty port = false
                      ∧ bit ∈ spec ∧ b = sm bit) →
  b ∈ (fold_left (sort_port SigBit_lt ct sm ty) ports acc).1.
Proof.
  revert acc. induction ports as [|[port spec] ports IH]; intros acc; simpl.
  - intros [Hb|(port & spec & bit & Hin & _)]; [done|].
    by apply elem_of_nil in Hin.
  - intros [Hb|(port' & spec' & bit & Hin & Hout & Hbit & ->)]; apply IH.
    + left. unfold sort_port. simpl.
      destruct (cell_output ct ty port); simpl; [done|].
      by apply elem_of_set_insert_range_old.
    + apply elem_of_cons in Hin as [[= -> ->]|Hin].
      * left. unfold sort_port. simpl. rewrite Hout. simpl.
        apply (elem_of_set_insert_range_new SigBit_lt SigBit_lt_total),
          list_elem_of_fmap. eauto.
      * right. exists port', spec', bit. by split_and!.
Qed.

Lemma cell_ports_inputs ct sm cell b :
  b ∈ (cell_ports SigBit_lt ct sm cell).1 ↔ consumes ct sm cell b.
Proof.
  unfold cell_ports, consumes. split.
  - intros [Hb|Hex]%sort_ports_inputs_inv; [|done].
    by apply elem_of_nil in Hb.
  - intros Hex. apply sort_ports_inputs. by right.
Qed.

(** In the index that the constructor builds, the input set recorded for a
    key is the set of the canonical bits on the ports that are not outputs
    of a known cell of the module with that address, and it is that of the
    last such cell in [module->cells()]. *)
Theorem Netlist_new_input_sets m sm ct :
  let net := Netlist_new SigBit_lt m sm ct in
  (∀ c (inputs : list SigBit), cell_inputs_map net !! c = Some inputs →
     ∃ cell, cell ∈ cells m ∧ self cell = c ∧ cell_known ct (type cell) = true
             ∧ ∀ b, b ∈ inputs ↔ consumes ct sm cell b)
  ∧ (∀ before cell after,
       cells m = before ++ cell :: after →
       cell_known ct (type cell) = true →
       (∀ cell', cell' ∈ after → cell_known ct (type cell') = true →
                 self cell' ≠ self cell) →
       ∃ inputs : list SigBit,
         cell_inputs_map net !! self cell = Some inputs
         ∧ ∀ b, b ∈ inputs ↔ consumes ct sm cell b).
Proof.
  unfold Netlist_new, setup_netlist. cbn zeta. split.
  - intros c inputs [Hi|(cell & Hin & Hself & Hk & ->)]%setup_cells_inputs_value.
    + simpl in Hi. by rewrite lookup_empty in Hi.
    + exists cell. split_and!; [done..|]. intros b. apply cell_ports_inputs.
  - intros before cell after -> Hk Hlast.
    exists (cell_ports SigBit_lt ct sm cell).1. split; [|intros b; apply cell_ports_inputs].
    rewrite fold_left_app. simpl. rewrite setup_cells_inputs_keep by done.
    rewrite setup_cell_inputs, Hk, setup_cells_sigmap. simpl.
    by rewrite lookup_insert_eq.
Qed.

End SetupMore.

(** * The [synth_intel] pass *)

(** ** The arguments *)

Lemma parse_loop_cons arg rest' st :
  parse_loop (arg :: rest') st
  = let switches :=
      if String.eqb arg "-nobram" then
        parse_loop rest' (next_arg st (set_nobram (pass st) true) 1)
      else if String.eqb arg "-flatten" then
        parse_loop rest' (next_arg st (set_flatten (pass st) true) 1)
      else if String.eqb arg "-retime" then
        parse_loop rest' (next_arg st (set_retime (pass st) true) 1)
      else st
    in
    match rest' with
    | [] => switches
    | value :: rest'' =>
        if String.eqb arg "-family" then
          parse_loop rest'' (next_arg st (set_family_opt (pass st) value) 2)
        else if String.eqb arg "-top" then
          parse_loop rest'' (next_arg st (set_top_opt (pass st) ("-top " ++ value)) 2)
        else if String.eqb arg "-vqm" then
          parse_loop rest'' (next_arg st (set_vout_file (pass st) value) 2)
        else if String.eqb arg "-run" then
          match string_find ":"%char value with
          | None => st
          | Some pos =>
              parse_loop rest''
                (mkParseState (pass st) (string_prefix pos value)
                              (string_suffix (pos + 1) value) (argidx st + 2))
          end
        else switches
    end.
Proof. done. Qed.

Lemma parse_loop_invariant (Inv : parse_state → Prop) :
  (∀ st, Inv st → Inv (next_arg st (set_nobram (pass st) true) 1)) →
  (∀ st, Inv st → Inv (next_arg st (set_flatten (pass st) true) 1)) →
  (∀ st, Inv st → Inv (next_arg st (set_retime (pass st) true) 1)) →
  (∀ st v, Inv st → Inv (next_arg st (set_family_opt (pass st) v) 2)) →
  (∀ st v, Inv st → Inv (next_arg st (set_top_opt (pass st) ("-top " ++ v)) 2)) →
  (∀ st v, Inv st → Inv (next_arg st (set_vout_file (pass st) v) 2)) →
  (∀ st v pos, Inv st → string_find ":"%char v = Some pos →
     Inv (mkParseState (pass st) (string_prefix pos v)
                       (string_suffix (pos + 1) v) (argidx st + 2))) →
  ∀ rest st, Inv st → Inv (parse_loop rest st).
Proof.
  intros Hnobram Hflatten Hretime Hfamily Htop Hvqm Hrun rest.
  remember (length rest) as n eqn:Hn. revert rest Hn.
  induction n as [n IH] using lt_wf_ind. intros rest -> st Hst.
  destruct rest as [|arg rest']; [done|].
  rewrite parse_loop_cons. cbv zeta.
  destruct rest' as [|value rest'']; repeat case_match; try done;
    try lazymatch goal with
    | |- Inv (parse_loop ?tl ?st1) =>
        apply (IH (length tl) ltac:(simpl; lia) tl eq_refl)
    end; eauto.
Qed.

Lemma parse_loop_flatten rest st :
  flatten (pass st) = true → flatten (pass (parse_loop rest st)) = true.
Proof. revert rest st. by apply parse_loop_invariant. Qed.

(** Whatever the arguments, [flatten] is set when the loop over them ends:
    no argument clears it.  [-noflatten], which [help] and the label of the
    flatten block announce, is not among the options the loop knows: the
    loop stops in front of it and leaves it to [extra_args]. *)
Theorem parse_args_never_clears_flatten p args :
  flatten (pass (parse_args p args)) = true
  ∧ ∀ command rest, parse_args p (command :: "-noflatten"%string :: rest)
                    = mkParseState (clear_flags p) "" "" 1.
Proof.
  split; [unfold parse_args; by apply parse_loop_flatten|].
  by intros command [|value rest].
Qed.

Lemma parse_loop_stops rest st :
  ∃ k, argidx (parse_loop rest st) = argidx st + k
       ∧ k ≤ length rest
       ∧ ∀ st0, parse_loop (drop k rest) st0 = st0.
Proof.
  remember (length rest) as n eqn:Hn. revert rest Hn st.
  induction n as [n IH] using lt_wf_ind. intros rest -> st.
  destruct rest as [|arg rest']; [by exists 0|].
  rewrite parse_loop_cons. cbv zeta.
  destruct rest' as [|value rest'']; repeat case_match;
    lazymatch goal with
    | |- ∃ k, argidx (parse_loop ?tl ?st1) = _ ∧ _ =>
        destruct (IH (length tl) ltac:(simpl; lia) tl eq_refl st1)
          as (k & Hk & Hle & Hstop);
        first [ exists (1 + k); split_and!;
                  [rewrite Hk; simpl; lia|simpl in *; lia|exact Hstop]
              | exists (2 + k); split_and!;
                  [rewrite Hk; simpl; lia|simpl in *; lia|exact Hstop] ]
    | |- _ =>
        first [ exists 0; split_and!; [simpl; lia|simpl; lia|];
                intros st0; cbn [drop]; rewrite parse_loop_cons; cbv zeta;
                repeat match goal with
                       | Heq : _ = _ |- _ => rewrite Heq
                       end; reflexivity
              | exists 1; split_and!; [simpl; lia|simpl; lia|done] ]
    end.
Qed.

(** The loop over the arguments stops in front of the first argument it
    cannot take: [argidx], which goes to [extra_args], is at least 1 and at
    most the number of arguments (1 when there is none), and from the
    arguments left the loop would not go one step further. *)
Theorem parse_args_stops p args :
  1 ≤ argidx (parse_args p args) ≤ max 1 (length args)
  ∧ ∀ st0, parse_loop (drop (argidx (parse_args p args)) args) st0 = st0.
Proof.
  unfold parse_args.
  destruct (parse_loop_stops (drop 1 args) (mkParseState (clear_flags p) "" "" 1))
    as (k & Hk & Hle & Hstop).
  rewrite Hk. cbn [argidx]. rewrite length_drop in Hle. split; [lia|].
  intros st0. rewrite <- (Hstop st0) at 2. by rewrite drop_drop.
Qed.

(** ** Where the flags come from *)

Lemma parse_loop_invariant_in (A : string → Prop) (Inv : parse_state → Prop) :
  (A "-nobram"%string → ∀ st, Inv st → Inv (next_arg st (set_nobram (pass st) true) 1)) →
  (A "-retime"%string → ∀ st, Inv st → Inv (next_arg st (set_retime (pass st) true) 1)) →
  (∀ st, Inv st → Inv (next_arg st (set_flatten (pass st) true) 1)) →
  (∀ st v, A v → Inv st → Inv (next_arg st (set_family_opt (pass st) v) 2)) →
  (∀ st v, A v → Inv st → Inv (next_arg st (set_top_opt (pass st) ("-top " ++ v)) 2)) →
  (∀ st v, A v → Inv st → Inv (next_arg st (set_vout_file (pass st) v) 2)) →
  (∀ st v pos, Inv st →
     Inv (mkParseState (pass st) (string_prefix pos v)
                       (string_suffix (pos + 1) v) (argidx st + 2))) →
  ∀ rest st, Forall A rest → Inv st → Inv (parse_loop rest st).
Proof.
  intros Hnobram Hretime Hflatten Hfamily Htop Hvqm Hrun rest.
  remember (length rest) as n eqn:Hn. revert rest Hn.
  induction n as [n IH] using lt_wf_ind. intros rest -> st HA Hst.
  destruct rest as [|arg rest']; [done|].
  rewrite parse_loop_cons. cbv zeta.
  inversion HA as [|? ? Harg HA']; subst.
  destruct rest' as [|value rest''];
    [|inversion HA' as [|? ? Hvalue HA'']; subst];
    repeat case_match; try done;
    repeat match goal with
           | Heq : String.eqb _ _ = true |- _ => apply String.eqb_eq in Heq; subst
           end;
    lazymatch goal with
    | |- Inv (parse_loop ?tl ?st1) =>
        apply (IH (length tl) ltac:(simpl; lia) tl eq_refl); [done|]
    end; eauto.
Qed.

(** The flags [execute] ends up with come from its arguments alone:
    [clear_flags] wipes whatever an earlier run left, the family is [max10]
    or one of the arguments, the top option is [-auto-top] or [-top] with
    one of the arguments, the output file is empty or one of the arguments,
    and [nobram] and [retime] are set only when [-nobram] and [-retime] are
    among the arguments. *)
Theorem parse_args_flags_from_arguments p args :
  (∀ p', parse_args p' args = parse_args p args)
  ∧ (family_opt (pass (parse_args p args)) = "max10"%string
     ∨ family_opt (pass (parse_args p args)) ∈ args)
  ∧ (top_opt (pass (parse_args p args)) = "-auto-top"%string
     ∨ ∃ v, v ∈ args ∧ top_opt (pass (parse_args p args)) = ("-top " ++ v)%string)
  ∧ (vout_file (pass (parse_args p args)) = ""%string
     ∨ vout_file (pass (parse_args p args)) ∈ args)
  ∧ (nobram (pass (parse_args p args)) = true → "-nobram"%string ∈ args)
  ∧ (retime (pass (parse_args p args)) = true → "-retime"%string ∈ args).
Proof.
  assert (HA : Forall (λ v, v ∈ args) (drop 1 args))
    by (by apply Forall_drop, Forall_forall).
  unfold parse_args. split_and!; [done|..].
  - apply (parse_loop_invariant_in (λ v, v ∈ args)
             (λ st, family_opt (pass st) = "max10"%string ∨ family_opt (pass st) ∈ args));
      cbn [pass next_arg family_opt set_nobram set_retime set_flatten set_family_opt
           set_top_opt set_vout_file clear_flags]; auto.
  - apply (parse_loop_invariant_in (λ v, v ∈ args)
             (λ st, top_opt (pass st) = "-auto-top"%string
                    ∨ ∃ v, v ∈ args ∧ top_opt (pass st) = ("-top " ++ v)%string));
      cbn [pass next_arg top_opt set_nobram set_retime set_flatten set_family_opt
           set_top_opt set_vout_file clear_flags]; eauto.
  - apply (parse_loop_invariant_in (λ v, v ∈ args)
             (λ st, vout_file (pass st) = ""%string ∨ vout_file (pass st) ∈ args));
      cbn [pass next_arg vout_file set_nobram set_retime set_flatten set_family_opt
           set_top_opt set_vout_file clear_flags]; auto.
  - apply (parse_loop_invariant_in (λ v, v ∈ args)
             (λ st, nobram (pass st) = true → "-nobram"%string ∈ args));
      cbn [pass next_arg nobram set_nobram set_retime set_flatten set_family_opt
           set_top_opt set_vout_file clear_flags]; auto; done.
  - apply (parse_loop_invariant_in (λ v, v ∈ args)
             (λ st, retime (pass st) = true → "-retime"%string ∈ args));
      cbn [pass next_arg retime set_nobram set_retime set_flatten set_family_opt
           set_top_opt set_vout_file clear_flags]; auto; done.
Qed.

(** ** [-run from:to] *)

Lemma string_find_split c v pos :
  string_find c v = Some pos →
  (string_prefix pos v ++ String c (string_suffix (pos + 1) v))%string = v
  ∧ string_find c (string_prefix pos v) = None
  ∧ String.length (string_prefix pos v) = pos.
Proof.
  revert pos. induction v as [|a v IH]; intros pos; simpl; [done|].
  destruct (Ascii.eqb a c) eqn:Hac.
  - intros [= <-]. by apply Ascii.eqb_eq in Hac as ->.
  - destruct (string_find c v) as [pos'|]; [|done].
    intros [= <-]. destruct (IH pos' eq_refl) as (Hsplit & Hnone & Hlen).
    simpl. rewrite Hac, Hnone, Hlen. split_and!; [|done..].
    change (String a (string_prefix pos' v ++ String c (string_suffix (pos' + 1) v))
            = String a v)%string.
    by rewrite Hsplit.
Qed.

(** [-run] cuts its value at the first colon: after [-run v] with a colon
    in [v], [run_from], the colon and [run_to] make up [v] again and
    [run_from] holds no colon; without a colon in [v] the loop stops in
    front of [-run]; and whatever the arguments, [run_from] holds no colon
    when the loop ends. *)
Theorem parse_args_run_labels p :
  (∀ args, string_find ":"%char (run_from (parse_args p args)) = None)
  ∧ (∀ command v pos, string_find ":"%char v = Some pos →
       let st := parse_args p [command; "-run"%string; v] in
       (run_from st ++ ":" ++ run_to st)%string = v
       ∧ String.length (run_from st) = pos
       ∧ argidx st = 3)
  ∧ (∀ command v rest, string_find ":"%char v = None →
       parse_args p (command :: "-run"%string :: v :: rest)
       = mkParseState (clear_flags p) "" "" 1).
Proof.
  split_and!.
  - intros args. unfold parse_args.
    apply parse_loop_invariant; try done.
    intros st v pos _ Hfind. cbn [run_from].
    by destruct (string_find_split _ _ _ Hfind) as (_ & Hnone & _).
  - intros command v pos Hfind. cbn zeta. unfold parse_args.
    cbn [drop parse_loop String.eqb Ascii.eqb Bool.eqb]. rewrite Hfind.
    cbn [run_from run_to argidx].
    destruct (string_find_split _ _ _ Hfind) as (Hsplit & _ & Hlen).
    by rewrite Hlen.
  - intros command v rest Hfind. unfold parse_args.
    cbn [drop parse_loop String.eqb Ascii.eqb Bool.eqb]. by rewrite Hfind.
Qed.

(** ** The family *)

Lemma family_known_cases (family : string) :
  family_known family = true →
  family = "max10"%string ∨ family = "a10gx"%string ∨ family = "cyclonev"%string
  ∨ family = "cycloneiv"%string ∨ family = "cycloneive"%string.
Proof.
  unfold family_known. intros Hin%bool_decide_eq_true.
  rewrite !elem_of_cons, elem_of_nil in Hin. tauto.
Qed.

Lemma family_known_eqb (family : string) :
  family_known family
  = String.eqb family "max10" || String.eqb family "a10gx"
    || String.eqb family "cyclonev" || String.eqb family "cycloneiv"
    || String.eqb family "cycloneive".
Proof.
  destruct (family_known family) eqn:Hk.
  - by destruct (family_known_cases _ Hk) as [->|[->|[->|[->| ->]]]].
  - symmetry. apply not_true_is_false. intros Hor. apply not_true_iff_false in Hk.
    apply Hk. unfold family_known. apply bool_decide_eq_true.
    rewrite !orb_true_iff, !String.eqb_eq in Hor. rewrite !elem_of_cons. tauto.
Qed.



Lemma execute_RunScript extra_args full_selection p0 args p from to :
  execute extra_args full_selection p0 args = RunScript p from to →
  family_known (family_opt p) = true
  ∧ full_selection = true
  ∧ extra_args args (argidx (parse_args p0 args)) = true
  ∧ p = pass (parse_args p0 args)
  ∧ from = run_from (parse_args p0 args) ∧ to = run_to (parse_args p0 args).
Proof.
  unfold execute. cbn zeta.
  destruct (extra_args args (argidx (parse_args p0 args))); [|done].
  destruct full_selection; [|done]. cbn [negb].
  rewrite family_known_eqb.
  destruct (String.eqb (family_opt (pass (parse_args p0 args))) "max10") eqn:H1,
    (String.eqb (family_opt (pass (parse_args p0 args))) "a10gx") eqn:H2,
    (String.eqb (family_opt (pass (parse_args p0 args))) "cyclonev") eqn:H3,
    (String.eqb (family_opt (pass (parse_args p0 args))) "cycloneiv") eqn:H4,
    (String.eqb (family_opt (pass (parse_args p0 args))) "cycloneive") eqn:H5;
    cbn [negb andb]; try done; intros [= <- <- <-];
    by rewrite H1, ?H2, ?H3, ?H4, ?H5.
Qed.

(** [execute] gets as far as [run_script] only with a design that is fully
    selected, arguments that [extra_args] accepts from where the loop
    stopped, and one of the five families; the flags it hands over are those
    the loop left, with [flatten] set. *)
Theorem execute_runs_script extra_args full_selection p0 args p from to :
  execute extra_args full_selection p0 args = RunScript p from to →
  family_opt p ∈ ["max10"; "a10gx"; "cyclonev"; "cycloneiv"; "cycloneive"]%string
  ∧ flatten p = true
  ∧ full_selection = true
  ∧ extra_args args (argidx (parse_args p0 args)) = true
  ∧ p = pass (parse_args p0 args)
  ∧ from = run_from (parse_args p0 args) ∧ to = run_to (parse_args p0 args).
Proof.
  intros (Hfamily & Hfull & Hextra & -> & -> & ->)%execute_RunScript.
  split_and!; try done.
  - by apply bool_decide_eq_true in Hfamily.
  - unfold parse_args. by apply parse_loop_flatten.
Qed.
(** ** The script *)

Lemma chosen_family_cases (p : SynthIntelPass) :
  chosen_family p = "max10"%string ∨ chosen_family p = "a10gx"%string
  ∨ chosen_family p = "cyclonev"%string ∨ chosen_family p = "cycloneiv"%string
  ∨ chosen_family p = "cycloneive"%string.
Proof.
  unfold chosen_family. destruct (family_known (family_opt p)) eqn:Hk; [|tauto].
  by apply family_known_cases.
Qed.

Lemma script_repertoire_obeys_flags p help_mode :
  Forall (obeys_flags p help_mode) (script_repertoire p help_mode).
Proof.
  unfold script_repertoire. rewrite !Forall_app.
  unfold begin_commands, flatten_commands, bram_commands, fine_commands,
    map_luts_commands, map_cells_commands, vqm_commands.
  split_and!.
  7: destruct (chosen_family_cases p) as [->|[->|[->|[->| ->]]]].
  all: repeat case_match; cbn [app];
    apply Forall_forall; intros c Hc; elem_cases Hc;
    unfold obeys_flags; (split_and!; intros; rewrite ?not_elem_of_cons);
    (split_and?; try apply not_elem_of_nil; flag_clause).
Qed.

Section ScriptFacts.
Context {Base : Type}.
Variable check_label : string → string → Base → bool * Base.
Variable run_effect : string → string → Base → Base.

Implicit Types (w : @script_state Base) (p : SynthIntelPass) (Q : string → Prop).

Lemma appends_id Q : appends (λ w : @script_state Base, w) Q.
Proof. intros w. exists []. by rewrite app_nil_r. Qed.

Lemma appends_compose (block1 block2 : @script_state Base → @script_state Base) Q :
  appends block1 Q → appends block2 Q → appends (λ w, block2 (block1 w)) Q.
Proof.
  intros H1 H2 w. destruct (H1 w) as (c1 & Hc1 & HQ1).
  destruct (H2 (block1 w)) as (c2 & Hc2 & HQ2).
  exists (c1 ++ c2). rewrite Hc2, Hc1, app_assoc. split; [done|].
  by apply Forall_app.
Qed.

Lemma script_begin_appends Q p help_mode :
  Forall Q (begin_commands p help_mode) →
  appends (script_begin check_label run_effect p help_mode) Q.
Proof.
  intros HQ. unfold script_begin, begin_commands in *.
  block_appends HQ.
Qed.

Lemma script_flatten_appends Q p :
  Forall Q (flatten_commands p) →
  appends (script_flatten check_label run_effect p) Q.
Proof.
  intros HQ. unfold script_flatten, flatten_commands in *.
  destruct (flatten p); [|apply appends_id].
  block_appends HQ.
Qed.

Lemma script_coarse_appends Q :
  Q "synth -run coarse"%string →
  appends (script_coarse check_label run_effect) Q.
Proof.
  intros HQ%Forall_singleton. unfold script_coarse. block_appends HQ.
Qed.

Lemma script_bram_appends Q p :
  Forall Q (bram_commands p) →
  appends (script_bram check_label run_effect p) Q.
Proof.
  intros HQ. unfold script_bram, bram_commands in *.
  destruct (nobram p); [apply appends_id|]. cbn [negb].
  block_appends HQ.
Qed.

Lemma script_fine_appends Q p help_mode :
  Forall Q (fine_commands p help_mode) →
  appends (script_fine check_label run_effect p help_mode) Q.
Proof.
  intros HQ. unfold script_fine, fine_commands in *.
  destruct (retime p || help_mode); block_appends HQ.
Qed.

Lemma script_map_luts_appends Q p :
  Forall Q (map_luts_commands p) →
  appends (script_map_luts check_label run_effect p) Q.
Proof.
  intros HQ. unfold script_map_luts, map_luts_commands in *.
  destruct (String.eqb (family_opt p) "a10gx" || String.eqb (family_opt p) "cyclonev");
    block_appends HQ.
Qed.

Lemma script_map_cells_appends Q p :
  Forall Q (map_cells_commands p) →
  appends (script_map_cells check_label run_effect p) Q.
Proof.
  intros HQ. unfold script_map_cells, map_cells_commands, chosen_family in *.
  rewrite family_known_eqb in HQ.
  destruct (String.eqb_spec (family_opt p) "max10") as [Hf|?];
  [rewrite Hf in *|
  destruct (String.eqb_spec (family_opt p) "a10gx") as [Hf|?];
  [rewrite Hf in *|
  destruct (String.eqb_spec (family_opt p) "cyclonev") as [Hf|?];
  [rewrite Hf in *|
  destruct (String.eqb_spec (family_opt p) "cycloneiv") as [Hf|?];
  [rewrite Hf in *|
  destruct (String.eqb_spec (family_opt p) "cycloneive") as [Hf|?];
  [rewrite Hf in *|]]]]];
  cbn [orb] in HQ; block_appends HQ.
Qed.

Lemma script_check_appends Q :
  Forall Q ["hierarchy -check"; "stat"; "check -noinit"]%string →
  appends (script_check check_label run_effect) Q.
Proof. intros HQ. unfold script_check. block_appends HQ. Qed.

Lemma script_vqm_appends Q p help_mode :
  Forall Q (vqm_commands p help_mode) →
  appends (script_vqm check_label run_effect p help_mode) Q.
Proof.
  intros HQ. unfold script_vqm, vqm_commands in *.
  destruct (negb (String.eqb (vout_file p) "") || help_mode); block_appends HQ.
Qed.

Lemma script_tail_appends Q p help_mode :
  Forall Q (flatten_commands p ++ ["synth -run coarse"%string]
            ++ bram_commands p ++ fine_commands p help_mode ++ map_luts_commands p
            ++ map_cells_commands p
            ++ ["hierarchy -check"; "stat"; "check -noinit"]%string
            ++ vqm_commands p help_mode) →
  appends (λ w, script_vqm check_label run_effect p help_mode
                  (script_check check_label run_effect
                    (script_map_cells check_label run_effect p
                      (script_map_luts check_label run_effect p
                        (script_fine check_label run_effect p help_mode
                          (script_bram check_label run_effect p
                            (script_coarse check_label run_effect
                              (script_flatten check_label run_effect p w)))))))) Q.
Proof.
  rewrite !Forall_app.
  intros (Hflatten & Hcoarse & Hbram & Hfine & Hluts & Hcells & Hcheck & Hvqm).
  apply Forall_inv in Hcoarse.
  apply (appends_compose _ (script_vqm check_label run_effect p help_mode));
    [|by apply script_vqm_appends].
  apply (appends_compose _ (script_check check_label run_effect));
    [|by apply script_check_appends].
  apply (appends_compose _ (script_map_cells check_label run_effect p));
    [|by apply script_map_cells_appends].
  apply (appends_compose _ (script_map_luts check_label run_effect p));
    [|by apply script_map_luts_appends].
  apply (appends_compose _ (script_fine check_label run_effect p help_mode));
    [|by apply script_fine_appends].
  apply (appends_compose _ (script_bram check_label run_effect p));
    [|by apply script_bram_appends].
  apply (appends_compose _ (script_coarse check_label run_effect));
    [|by apply script_coarse_appends].
  by apply script_flatten_appends.
Qed.

Lemma script_appends Q p help_mode :
  Forall Q (script_repertoire p help_mode) →
  appends (script check_label run_effect p help_mode) Q.
Proof.
  unfold script_repertoire. rewrite Forall_app. intros [Hbegin Htail].
  unfold script.
  apply (appends_compose (script_begin check_label run_effect p help_mode)
           (λ w, script_vqm check_label run_effect p help_mode
                  (script_check check_label run_effect
                    (script_map_cells check_label run_effect p
                      (script_map_luts check_label run_effect p
                        (script_fine check_label run_effect p help_mode
                          (script_bram check_label run_effect p
                            (script_coarse check_label run_effect
                              (script_flatten check_label run_effect p w))))))))).
  - by apply script_begin_appends.
  - by apply script_tail_appends.
Qed.

(** For every answer of [check_label], whatever the state of the base class:
    each command [script] hands to [run] obeys the flags.  Under [-nobram]
    no [memory_bram] is run and no [techmap] that mentions [brams], also
    when the [bram] label is active; without [-retime] (and outside help
    mode) no [abc] command carries [-dff]; without [-vqm] no [write_verilog]
    is run, also when the [vqm] label is active; with [flatten] off none of
    [proc], [flatten], [tribuf], [deminout].  A command counts as one of a
    pass by its first word. *)
Theorem script_respects_flags p help_mode s c :
  c ∈ script_commands check_label run_effect p help_mode s →
  obeys_flags p help_mode c.
Proof.
  unfold script_commands.
  destruct (script_appends (obeys_flags p help_mode) p help_mode
              (script_repertoire_obeys_flags p help_mode) (s, []))
    as (commands & -> & Hobey).
  cbn [snd app]. rewrite Forall_forall in Hobey. apply Hobey.
Qed.

Lemma script_begin_active p help_mode w :
  (check_label "begin" "" w.1).1 = true →
  ∃ family,
    (script_begin check_label run_effect p help_mode w).2
    = w.2 ++ [ cells_sim family;
               "read_verilog -sv -lib +/intel/common/m9k_bb.v";
               "read_verilog -sv -lib +/intel/common/altpll_bb.v";
               "hierarchy -check " ++ (if help_mode then "-top <top>" else top_opt p)
             ]%string
    ∧ (family = family_opt p ∨ family = "cycloneive"%string)
    ∧ family_known family = true
    ∧ ((∀ s, (check_label "family" "" s).1 = false) → family = "cycloneive"%string)
    ∧ ((∀ s, (check_label "family" "" s).1 = true) → family = chosen_family p).
Proof.
  intros Hbegin. unfold script_begin.
  cbn zeta; cbn [label label_and run fst snd]. rewrite Hbegin.
  repeat (case_match; cbn [label label_and run fst snd]);
    (eexists; split; [by rewrite <- !app_assoc|]);
    repeat match goal with
           | Heq : (_ && String.eqb _ _) = true |- _ =>
               apply andb_prop in Heq as [? Heq]; apply String.eqb_eq in Heq
           end;
    (split_and!;
     [ by auto
     | done
     | intros Hnever; try done;
       repeat match goal with
              | Heq : (check_label _ _ _).1 = true |- _ => rewrite Hnever in Heq
              end; done
     | intros Halways; unfold chosen_family; rewrite family_known_eqb;
       repeat match goal with
              | Heq : family_opt p = _ |- _ => rewrite Heq
              | Heq : (_ && String.eqb _ _) = false |- _ =>
                  rewrite Halways in Heq; cbn [andb] in Heq; rewrite Heq
              end; cbn [orb]; try done;
       by destruct (String.eqb_spec (family_opt p) "cycloneive") ]).
Qed.

(** When the [begin] label is active, [script] starts with the simulation
    library of one family, the two common libraries and [hierarchy -check]
    on the top module.  The family is the one asked for or Cyclone IV E,
    one of the five in either case: the one asked for (Cyclone IV E when it
    is none of the five) if [check_label("family")] always answers true,
    Cyclone IV E whatever was asked for if it always answers false. *)
Theorem script_begin_block p help_mode s :
  (check_label "begin" "" s).1 = true →
  ∃ family rest,
    script_commands check_label run_effect p help_mode s
    = [ cells_sim family;
        "read_verilog -sv -lib +/intel/common/m9k_bb.v";
        "read_verilog -sv -lib +/intel/common/altpll_bb.v";
        "hierarchy -check " ++ (if help_mode then "-top <top>" else top_opt p)
      ]%string ++ rest
    ∧ (family = family_opt p ∨ family = "cycloneive"%string)
    ∧ family_known family = true
    ∧ ((∀ s', (check_label "family" "" s').1 = false) → family = "cycloneive"%string)
    ∧ ((∀ s', (check_label "family" "" s').1 = true) → family = chosen_family p).
Proof.
  intros Hbegin.
  destruct (script_begin_active p help_mode (s, []) Hbegin)
    as (family & Hcommands & Hfamily).
  destruct (script_tail_appends (λ _, True) p help_mode
              ltac:(by apply Forall_forall)
              (script_begin check_label run_effect p help_mode (s, [])))
    as (rest & Hrest & _).
  exists family, rest. split; [|exact Hfamily].
  unfold script_commands, script. by rewrite Hrest, Hcommands.
Qed.

(** *** No block active *)

Section NoLabel.
Hypothesis Hnone : ∀ name info s, (check_label name info s).1 = false.

Lemma script_begin_idle p help_mode w :
  (script_begin check_label run_effect p help_mode w).2 = w.2.
Proof. unfold script_begin. cbn zeta; cbn [label fst snd]. by rewrite Hnone. Qed.

Lemma script_flatten_idle p w :
  (script_flatten check_label run_effect p w).2 = w.2.
Proof.
  unfold script_flatten. destruct (flatten p); [|done].
  cbn zeta; cbn [label fst snd]. by rewrite Hnone.
Qed.

Lemma script_coarse_idle w : (script_coarse check_label run_effect w).2 = w.2.
Proof. unfold script_coarse. cbn zeta; cbn [label fst snd]. by rewrite Hnone. Qed.

Lemma script_bram_idle p w : (script_bram check_label run_effect p w).2 = w.2.
Proof.
  unfold script_bram. destruct (nobram p); [done|].
  cbn zeta; cbn [negb label fst snd]. by rewrite Hnone.
Qed.

Lemma script_fine_idle p help_mode w :
  (script_fine check_label run_effect p help_mode w).2 = w.2.
Proof. unfold script_fine. cbn zeta; cbn [label fst snd]. by rewrite Hnone. Qed.

Lemma script_map_luts_idle p w :
  (script_map_luts check_label run_effect p w).2 = w.2.
Proof. unfold script_map_luts. cbn zeta; cbn [label fst snd]. by rewrite Hnone. Qed.

Lemma script_map_cells_idle p w :
  (script_map_cells check_label run_effect p w).2 = w.2.
Proof. unfold script_map_cells. cbn zeta; cbn [label fst snd]. by rewrite Hnone. Qed.

Lemma script_check_idle w : (script_check check_label run_effect w).2 = w.2.
Proof. unfold script_check. cbn zeta; cbn [label fst snd]. by rewrite Hnone. Qed.

Lemma script_vqm_idle p help_mode w :
  (script_vqm check_label run_effect p help_mode w).2 = w.2.
Proof. unfold script_vqm. cbn zeta; cbn [label fst snd]. by rewrite Hnone. Qed.

(** [script] hands nothing to [run] outside its blocks: when
    [check_label] answers false throughout, no command is run, whatever
    the flags. *)
Theorem script_without_labels p help_mode s :
  script_commands check_label run_effect p help_mode s = [].
Proof.
  unfold script_commands, script.
  by rewrite script_vqm_idle, script_check_idle, script_map_cells_idle,
    script_map_luts_idle, script_fine_idle, script_bram_idle, script_coarse_idle,
    script_flatten_idle, script_begin_idle.
Qed.

End NoLabel.

(** *** Every block active *)

Section AllLabels.
Hypothesis Hall : ∀ name info s, (check_label name info s).1 = true.

Lemma script_begin_full p help_mode w :
  (script_begin check_label run_effect p help_mode w).2
  = w.2 ++ [ cells_sim (chosen_family p);
             "read_verilog -sv -lib +/intel/common/m9k_bb.v";
             "read_verilog -sv -lib +/intel/common/altpll_bb.v";
             "hierarchy -check " ++ (if help_mode then "-top <top>" else top_opt p)
           ]%string.
Proof.
  unfold script_begin, chosen_family. rewrite family_known_eqb.
  cbn zeta; cbn [label label_and run fst snd]. rewrite !Hall. cbn [andb].
  destruct (String.eqb_spec (family_opt p) "max10") as [Hf|?];
  [rewrite Hf in *|
  destruct (String.eqb_spec (family_opt p) "a10gx") as [Hf|?];
  [rewrite Hf in *|
  destruct (String.eqb_spec (family_opt p) "cyclonev") as [Hf|?];
  [rewrite Hf in *|
  destruct (String.eqb_spec (family_opt p) "cycloneiv") as [Hf|?];
  [rewrite Hf in *|
  destruct (String.eqb_spec (family_opt p) "cycloneive") as [Hf|?];
  [rewrite Hf in *|]]]]];
  cbn [orb run fst snd]; by rewrite <- !app_assoc.
Qed.

Lemma script_flatten_full p w :
  (script_flatten check_label run_effect p w).2 = w.2 ++ flatten_commands p.
Proof.
  unfold script_flatten, flatten_commands.
  destruct (flatten p); [|by rewrite app_nil_r].
  cbn zeta; cbn [label run fst snd]. rewrite Hall. cbn [run fst snd].
  by rewrite <- !app_assoc.
Qed.

Lemma script_coarse_full w :
  (script_coarse check_label run_effect w).2 = w.2 ++ ["synth -run coarse"%string].
Proof.
  unfold script_coarse. cbn zeta; cbn [label run fst snd]. by rewrite Hall.
Qed.

Lemma script_bram_full p w :
  (script_bram check_label run_effect p w).2 = w.2 ++ bram_commands p.
Proof.
  unfold script_bram, bram_commands.
  destruct (nobram p); [by rewrite app_nil_r|].
  cbn zeta; cbn [negb label run fst snd]. rewrite Hall. cbn [run fst snd].
  by rewrite <- !app_assoc.
Qed.

Lemma script_fine_full p help_mode w :
  (script_fine check_label run_effect p help_mode w).2
  = w.2 ++ fine_commands p help_mode.
Proof.
  unfold script_fine, fine_commands.
  cbn zeta; cbn [label run fst snd foldl]. rewrite Hall.
  destruct (retime p || help_mode); cbn [run fst snd foldl];
    rewrite <- ?app_assoc; by rewrite ?app_nil_r.
Qed.

Lemma script_map_luts_full p w :
  (script_map_luts check_label run_effect p w).2 = w.2 ++ map_luts_commands p.
Proof.
  unfold script_map_luts, map_luts_commands.
  cbn zeta; cbn [label run fst snd]. rewrite Hall.
  destruct (String.eqb (family_opt p) "a10gx" || String.eqb (family_opt p) "cyclonev");
    cbn [run fst snd]; by rewrite <- !app_assoc.
Qed.

Lemma script_map_cells_full p w :
  (script_map_cells check_label run_effect p w).2 = w.2 ++ map_cells_commands p.
Proof.
  unfold script_map_cells, map_cells_commands, chosen_family.
  rewrite family_known_eqb.
  cbn zeta; cbn [label run fst snd]. rewrite Hall.
  destruct (String.eqb_spec (family_opt p) "max10") as [Hf|?];
  [rewrite Hf in *|
  destruct (String.eqb_spec (family_opt p) "a10gx") as [Hf|?];
  [rewrite Hf in *|
  destruct (String.eqb_spec (family_opt p) "cyclonev") as [Hf|?];
  [rewrite Hf in *|
  destruct (String.eqb_spec (family_opt p) "cycloneiv") as [Hf|?];
  [rewrite Hf in *|
  destruct (String.eqb_spec (family_opt p) "cycloneive") as [Hf|?];
  [rewrite Hf in *|]]]]];
  cbn [orb run fst snd]; by rewrite <- !app_assoc.
Qed.

Lemma script_check_full w :
  (script_check check_label run_effect w).2
  = w.2 ++ ["hierarchy -check"; "stat"; "check -noinit"]%string.
Proof.
  unfold script_check. cbn zeta; cbn [label run fst snd]. rewrite Hall.
  cbn [run fst snd]. by rewrite <- !app_assoc.
Qed.

Lemma script_vqm_full p help_mode w :
  (script_vqm check_label run_effect p help_mode w).2
  = w.2 ++ vqm_commands p help_mode.
Proof.
  unfold script_vqm, vqm_commands.
  cbn zeta; cbn [label run fst snd]. rewrite Hall.
  destruct (negb (String.eqb (vout_file p) "") || help_mode);
    cbn [run fst snd]; by rewrite ?app_nil_r.
Qed.

Lemma script_full p help_mode w :
  (script check_label run_effect p help_mode w).2 = w.2 ++ full_commands p help_mode.
Proof.
  unfold script, full_commands.
  rewrite script_vqm_full, script_check_full, script_map_cells_full,
    script_map_luts_full, script_fine_full, script_bram_full, script_coarse_full,
    script_flatten_full, script_begin_full.
  rewrite <- !app_assoc. reflexivity.
Qed.

(** When [check_label] answers true throughout, [script] hands to [run]
    the commands of [full_commands] in that order: the libraries of the
    chosen family, the flatten block if [flatten] is set, [synth -run
    coarse], the block-RAM commands unless [-nobram], the fine block, [abc]
    for the family, the cell mapping of the chosen family, the checks and,
    with [-vqm], [write_verilog]. *)
Theorem script_all_labels_active p help_mode s :
  script_commands check_label run_effect p help_mode s = full_commands p help_mode.
Proof. unfold script_commands. by rewrite script_full. Qed.

(** [execute] followed by [script] with every label active: the libraries
    read and the cells mapped are those of the family [execute] accepted,
    and the flatten block is run. *)
Theorem execute_then_script extra_args full_selection p0 args p from to s :
  execute extra_args full_selection p0 args = RunScript p from to →
  script_commands check_label run_effect p false s
  = [ cells_sim (family_opt p);
      "read_verilog -sv -lib +/intel/common/m9k_bb.v";
      "read_verilog -sv -lib +/intel/common/altpll_bb.v";
      "hierarchy -check " ++ top_opt p;
      "proc"; "flatten"; "tribuf -logic"; "deminout";
      "synth -run coarse" ]%string
    ++ bram_commands p ++ fine_commands p false ++ map_luts_commands p
    ++ [ "iopadmap -bits -outpad $__outpad I:O -inpad $__inpad O:I";
         cells_map (family_opt p);
         "dffinit -ff dffeas Q INIT";
         "clean -purge";
         "hierarchy -check"; "stat"; "check -noinit" ]%string
    ++ vqm_commands p false.
Proof.
  intros (Hfamily & _ & _ & Hpass & _)%execute_RunScript.
  assert (Hflatten : flatten p = true)
    by (rewrite Hpass; unfold parse_args; by apply parse_loop_flatten).
  unfold script_commands. rewrite script_full. cbn [snd app].
  unfold full_commands, flatten_commands, map_cells_commands.
  unfold chosen_family. rewrite Hflatten, Hfamily.
  reflexivity.
Qed.

End AllLabels.

End ScriptFacts.

(** * Concrete runs *)

(** ** The order of the bit names *)

Lemma string_compare_lt_trans (x y z : string) :
  String.compare x y = Lt → String.compare y z = Lt → String.compare x z = Lt.
Proof.
  revert y z. induction x as [|a x IH]; intros [|b y] [|c z]; simpl; try done.
  unfold Ascii.compare.
  destruct (N.compare_spec (Ascii.N_of_ascii a) (Ascii.N_of_ascii b)) as [Hab|Hab|Hab];
    destruct (N.compare_spec (Ascii.N_of_ascii b) (Ascii.N_of_ascii c)) as [Hbc|Hbc|Hbc];
    try done; intros Hxy Hyz.
  - rewrite Hab, Hbc, N.compare_refl. by eapply IH.
  - rewrite Hab. by apply N.compare_lt_iff in Hbc as ->.
  - rewrite <- Hbc. by apply N.compare_lt_iff in Hab as ->.
  - assert (Ascii.N_of_ascii a < Ascii.N_of_ascii c)%N as Hac by lia.
    by apply N.compare_lt_iff in Hac as ->.
Qed.

Lemma string_ltb_irrefl (x : string) : String.ltb x x = false.
Proof.
  unfold String.ltb. pose proof (String.compare_antisym x x) as Hanti.
  by destruct (String.compare x x).
Qed.

Lemma string_ltb_trans (x y z : string) :
  String.ltb x y = true → String.ltb y z = true → String.ltb x z = true.
Proof.
  unfold String.ltb.
  destruct (String.compare x y) eqn:Hxy; try done.
  destruct (String.compare y z) eqn:Hyz; try done.
  by rewrite (string_compare_lt_trans _ _ _ Hxy Hyz).
Qed.

(** ** The iterators on the two gates in a row *)

(** The first step from [out] pushes the inputs of [c2] and keeps what
    was visited. *)
Lemma WireIter_incr_keeps_witness :
  ∃ it',
    WireIter_incr ex_and_net (WireIter_begin "out"%string) = Ok it'
    ∧ cells_visited (WireIter_begin (CellPtr:=string) "out"%string) ⊆ cells_visited it'.
Proof.
  eexists. split; [vm_compute; reflexivity|].
  apply (proj1 (WireIter_incr_keeps ex_and_net (WireIter_begin "out"%string) _
                  ltac:(vm_compute; reflexivity))).
Defined.

(** After the first step of the loop over [cone(net, out)] the stack holds
    the input set of [c2], and the next step cannot fail. *)
Lemma cone_stack_bounded_witness :
  mkWireIter "in2"%string false [["in2"; "w1"]%string] ({["c2"%string]} ∪ ∅)
    ∈ (cone_states ex_and_net "out").1
  ∧ length [["in2"; "w1"]%string] ≤ size (cell_inputs_map ex_and_net)
  ∧ (∃ c inputs, c ∈ ({["c2"%string]} ∪ ∅ : gset string)
                 ∧ cell_inputs_map ex_and_net !! c = Some inputs
                 ∧ ["in2"; "w1"]%string `suffix_of` inputs)
  ∧ ∀ e, WireIter_incr ex_and_net
           (mkWireIter "in2"%string false [["in2"; "w1"]%string] ({["c2"%string]} ∪ ∅))
         ≠ Err e.
Proof.
  assert (mkWireIter "in2"%string false [["in2"; "w1"]%string] ({["c2"%string]} ∪ ∅)
            ∈ (cone_states ex_and_net "out").1) as Hin
    by (vm_compute; elem_solve).
  destruct (cone_stack_bounded ex_and_net "out"%string _ Hin)
    as (Hdepth & Hframes & _ & Hstep).
  split_and!; [done|exact Hdepth| |].
  - apply (Hframes ["in2"; "w1"]%string). apply list_elem_of_here.
  - intros e Herr. destruct (Hstep e Herr) as (drv & Hdrv & _).
    by vm_compute in Hdrv.
Defined.

(** The cone of [out]: [out], then the inputs of [c2] and of [c1]. *)
Lemma cone_bits_are_pushed_inputs_witness :
  (cone ex_and_net "out").2 = None
  ∧ ∃ rest,
      (cone ex_and_net "out").1 = sigmap ex_and_net "out" :: rest
      ∧ rest ≡ₚ inputs_of_cells ex_and_net (cone_pushes ex_and_net "out")
      ∧ length (cone ex_and_net "out").1
        = S (length (inputs_of_cells ex_and_net (cone_pushes ex_and_net "out"))).
Proof.
  assert ((cone ex_and_net "out").2 = None) as Hend by (vm_compute; reflexivity).
  split; [done|]. exact (cone_bits_are_pushed_inputs ex_and_net "out"%string Hend).
Defined.

(** The cone of [w1], whose driver [c1] takes primary inputs only. *)
Lemma cone_one_level_witness :
  cone ex_and_net "w1" = (["w1"; "in0"; "in1"]%string, None)
  ∧ cell_cone ex_and_net "w1" = (["c1"%string], None).
Proof.
  apply (cone_one_level ex_and_net "w1"%string "c1"%string "in0"%string ["in1"%string]).
  - vm_compute; reflexivity.
  - vm_compute; reflexivity.
  - intros y Hy. elem_cases Hy; vm_compute; reflexivity.
Defined.

(** ** The index of the two gates in a row *)

(** Both gates have inputs: every cone in their index reaches [end()]. *)
Lemma Netlist_new_cones_complete_witness :
  index_ok ex_and_net
  ∧ ∀ b, (cone ex_and_net b).2 = None ∧ (cell_cone ex_and_net b).2 = None.
Proof.
  apply (Netlist_new_cones_complete String.ltb ex_and_module id ex_ct).
  intros cell Hin _. unfold ex_and_module in Hin. cbn [cells] in Hin.
  elem_cases Hin.
  - exists "A"%string, ["in0"%string], "in0"%string.
    split_and!; [apply list_elem_of_here|vm_compute; reflexivity|apply list_elem_of_here].
  - exists "A"%string, ["w1"%string], "w1"%string.
    split_and!; [apply list_elem_of_here|vm_compute; reflexivity|apply list_elem_of_here].
Defined.

(** The input set of [c2] is in the order of the names. *)
Lemma Netlist_new_input_sets_sorted_witness :
  cell_inputs_map ex_and_net !! "c2"%string = Some ["in2"; "w1"]%string
  ∧ Sorted (below String.ltb) ["in2"; "w1"]%string
  ∧ NoDup ["in2"; "w1"]%string.
Proof.
  assert (cell_inputs_map ex_and_net !! "c2"%string = Some ["in2"; "w1"]%string)
    as Hinputs by (vm_compute; reflexivity).
  split; [done|].
  exact (Netlist_new_input_sets_sorted String.ltb ex_and_module id ex_ct
           "c2"%string ["in2"; "w1"]%string
           string_ltb_irrefl string_ltb_trans Hinputs).
Defined.

(** The input set of [c2] holds the bits on its ports [A] and [B]. *)
Lemma Netlist_new_input_sets_witness :
  ∃ inputs : list string,
    cell_inputs_map ex_and_net !! "c2"%string = Some inputs
    ∧ ∀ b, b ∈ inputs
           ↔ consumes ex_ct id
               (ex_cell "c2" "$and" [("A", ["w1"]); ("B", ["in2"]); ("Y", ["out"])])%string
               b.
Proof.
  apply (proj2 (Netlist_new_input_sets String.ltb string_ltb_total
                  ex_and_module id ex_ct)
           [ex_cell "c1" "$and" [("A", ["in0"]); ("B", ["in1"]); ("Y", ["w1"])]]%string
           (ex_cell "c2" "$and" [("A", ["w1"]); ("B", ["in2"]); ("Y", ["out"])])%string
           []).
  - reflexivity.
  - vm_compute; reflexivity.
  - by intros cell' ?%elem_of_nil.
Defined.

(** ** Runs of [synth_intel] *)

(** [synth_intel -family cyclonev -retime] on a fully selected design. *)
Lemma execute_runs_script_witness :
  execute ex_extra_args true ex_pass
    ["synth_intel"; "-family"; "cyclonev"; "-retime"]%string
  = RunScript (mkSynthIntelPass "-auto-top" "cyclonev" "" true true false) "" ""
  ∧ family_opt (mkSynthIntelPass "-auto-top" "cyclonev" "" true true false)
    ∈ ["max10"; "a10gx"; "cyclonev"; "cycloneiv"; "cycloneive"]%string.
Proof.
  assert (execute ex_extra_args true ex_pass
            ["synth_intel"; "-family"; "cyclonev"; "-retime"]%string
          = RunScript (mkSynthIntelPass "-auto-top" "cyclonev" "" true true false) "" "")
    as Hrun by (vm_compute; reflexivity).
  split; [done|].
  exact (proj1 (execute_runs_script _ _ _ _ _ _ _ Hrun)).
Defined.

(** Cyclone V with [-nobram], without [-retime], every label active: the
    [abc] command that is run carries no [-dff]. *)
Lemma script_respects_flags_witness :
  "abc -luts 2:2,3,6:5,10"%string
    ∈ script_commands all_labels ex_run_effect ex_pass false ()
  ∧ command_word "abc -luts 2:2,3,6:5,10" = "abc"%string
  ∧ obeys_flags ex_pass false "abc -luts 2:2,3,6:5,10".
Proof.
  assert ("abc -luts 2:2,3,6:5,10"%string
            ∈ script_commands all_labels ex_run_effect ex_pass false ())
    as Hin by (vm_compute; elem_solve).
  split_and!; [done|reflexivity|].
  exact (script_respects_flags all_labels ex_run_effect ex_pass false () _ Hin).
Defined.

(** The begin block for Cyclone V with every label active. *)
Lemma script_begin_block_witness :
  ∃ family rest,
    script_commands all_labels ex_run_effect ex_pass false ()
    = [ cells_sim family;
        "read_verilog -sv -lib +/intel/common/m9k_bb.v";
        "read_verilog -sv -lib +/intel/common/altpll_bb.v";
        "hierarchy -check " ++ top_opt ex_pass ]%string ++ rest
    ∧ (family = family_opt ex_pass ∨ family = "cycloneive"%string)
    ∧ family_known family = true
    ∧ ((∀ s', (all_labels "family" "" s').1 = false) → family = "cycloneive"%string)
    ∧ ((∀ s', (all_labels "family" "" s').1 = true) → family = chosen_family ex_pass).
Proof.
  exact (script_begin_block all_labels ex_run_effect ex_pass false () eq_refl).
Defined.

(** No label active: nothing is run. *)
Lemma script_without_labels_witness :
  script_commands no_label ex_run_effect ex_pass false () = [].
Proof.
  apply (script_without_labels no_label ex_run_effect). intros name info s'. reflexivity.
Defined.

(** Every label active, for Cyclone V with [-nobram]. *)
Lemma script_all_labels_active_witness :
  script_commands all_labels ex_run_effect ex_pass false ()
  = full_commands ex_pass false.
Proof.
  apply (script_all_labels_active all_labels ex_run_effect).
  intros name info s. reflexivity.
Defined.

(** [synth_intel -family cyclonev -retime], every label active: the
    libraries and the cell mapping are those of Cyclone V. *)
Lemma execute_then_script_witness :
  cells_sim "cyclonev"
  ∈ script_commands all_labels ex_run_effect
      (mkSynthIntelPass "-auto-top" "cyclonev" "" true true false) false ()
  ∧ cells_map "cyclonev"
    ∈ script_commands all_labels ex_run_effect
        (mkSynthIntelPass "-auto-top" "cyclonev" "" true true false) false ().
Proof.
  rewrite (execute_then_script all_labels ex_run_effect
             ltac:(intros name info s; reflexivity)
             ex_extra_args true ex_pass
             ["synth_intel"; "-family"; "cyclonev"; "-retime"]%string
             (mkSynthIntelPass "-auto-top" "cyclonev" "" true true false) "" "" ()
             ltac:(vm_compute; reflexivity)).
  split; vm_compute; elem_solve.
Defined.
